(** * MusicLinkedList: the circular doubly linked playlist of src/App.tsx

    A shallow embedding of the classes [TrackNode] and [MusicLinkedList].
    Nodes are JavaScript objects with mutable [next] and [prev] references,
    so the embedding keeps an explicit store of nodes (a list indexed by
    address; [new TrackNode] allocates at the end) and threads it through
    every method.  A method that would throw a TypeError on a null
    reference, or whose do/while loop would never reach [head] again,
    yields [None]. *)

From stdpp Require Import base option list sets strings numbers pretty.
From Stdlib Require Import ZArith Lia Ascii.

(** ** Data model *)

Abbreviation loc := nat (only parsing).

(** The object literal accepted by [addTrack] and by the [TrackNode]
    constructor.  [duration] is a whole number of seconds; a JavaScript
    number is a float64, and how [+] rounds on whole numbers is written
    out in [numberAdd] below. *)
Module Track.
Record t := mk {
  _id : string;
  title : string;
  artist : string;
  duration : Z;
  audioUrl : string;
  coverUrl : option string;
  genre : option string
}.
End Track.

Module TrackNode.
Record t := mk {
  id : string;
  title : string;
  artist : string;
  duration : Z;
  audioUrl : string;
  coverUrl : option string;
  genre : option string;
  next : option loc;
  prev : option loc
}.

(** [constructor(track)]: copies the fields, both links start as [null]. *)
Definition new (track : Track.t) : t :=
  mk (Track._id track) (Track.title track) (Track.artist track)
     (Track.duration track) (Track.audioUrl track) (Track.coverUrl track)
     (Track.genre track) None None.

Definition withNext (v : option loc) (n : t) : t :=
  mk (id n) (title n) (artist n) (duration n) (audioUrl n) (coverUrl n)
     (genre n) v (prev n).

Definition withPrev (v : option loc) (n : t) : t :=
  mk (id n) (title n) (artist n) (duration n) (audioUrl n) (coverUrl n)
     (genre n) (next n) v.

(** The object literal that [shuffle] and [restoreOrder] rebuild from a
    node before handing it to [addTrack]. *)
Definition fields (n : t) : Track.t :=
  Track.mk (id n) (title n) (artist n) (duration n) (audioUrl n)
           (coverUrl n) (genre n).
End TrackNode.

Abbreviation heap := (list TrackNode.t) (only parsing).

(** ** JavaScript string and number helpers *)

Definition lowerChar (c : Ascii.ascii) : Ascii.ascii :=
  let n := nat_of_ascii c in
  if (65 <=? n)%nat && (n <=? 90)%nat then ascii_of_nat (n + 32) else c.

(** [String.prototype.toLowerCase] on byte strings: the letters A-Z are
    folded, every other byte is kept.  This is what JavaScript does on
    text within ASCII ([isAscii] below); letters beyond ASCII, which
    JavaScript folds as well, are kept as they are. *)
Fixpoint toLowerCase (s : string) : string :=
  match s with
  | EmptyString => EmptyString
  | String c s' => String (lowerChar c) (toLowerCase s')
  end.

(** [s.includes(sub)]: [sub] occurs in [s] at some offset. *)
Fixpoint includes (s sub : string) : bool :=
  String.prefix sub s
  || match s with
     | EmptyString => false
     | String _ s' => includes s' sub
     end.

(** Text within ASCII: every character code is below 128. *)
Definition isAsciiChar (c : Ascii.ascii) : bool := (nat_of_ascii c <? 128)%nat.

Fixpoint isAscii (s : string) : bool :=
  match s with
  | EmptyString => true
  | String c s' => isAsciiChar c && isAscii s'
  end.

(** [Number.MAX_SAFE_INTEGER]: up to it in magnitude every whole number
    is a float64 and whole-number arithmetic is exact. *)
Definition MAX_SAFE_INTEGER : Z := 2 ^ 53 - 1.

(** The float64 nearest to a whole number.  A float64 has a significand
    of 53 bits: the bits below them are rounded off, to the nearest
    value, a tie going to the even significand.  (Magnitudes from 2^1024
    on, which overflow to [Infinity], are left out.) *)
Definition roundFloat64 (z : Z) : Z :=
  let a := Z.abs z in
  let k := (Z.log2 a - 52)%Z in
  if (k <=? 0)%Z then z
  else
    let q := Z.shiftr a k in
    let r := Z.land a (Z.ones k) in
    let half := Z.shiftl 1 (k - 1) in
    let q' := if (half <? r)%Z || ((r =? half)%Z && Z.odd q)
              then (q + 1)%Z else q in
    (Z.sgn z * Z.shiftl q' k)%Z.

(** [a + b] on whole float64 values. *)
Definition numberAdd (a b : Z) : Z := roundFloat64 (a + b).

(** [Number.prototype.toString] on a safe integer: decimal digits, with
    a leading minus sign below zero. *)
Definition toString (z : Z) : string := pretty z.

Fixpoint zeros (k : nat) (s : string) : string :=
  match k with
  | O => s
  | S k' => String "0" (zeros k' s)
  end.

(** [s.padStart(n, '0')]. *)
Definition padStart0 (n : nat) (s : string) : string :=
  zeros (n - String.length s) s.

(** ** The list object and its methods *)

Module MusicLinkedList.

Local Open Scope Z_scope.

(** The five private fields, together with the node store they point
    into. *)
Record state := mk {
  mem : heap;
  head : option loc;
  current : option loc;
  size : Z;
  isShuffled : bool;
  originalOrder : list loc
}.

(** [new MusicLinkedList()] over an empty store. *)
Definition empty : state := mk [] None None 0 false [].

(** [p.next = v] and [p.prev = v]; writing through a dangling address is
    an error. *)
Definition setNext (p : loc) (v : option loc) (h : heap) : option heap :=
  n ← h !! p; Some (<[p := TrackNode.withNext v n]> h).

Definition setPrev (p : loc) (v : option loc) (h : heap) : option heap :=
  n ← h !! p; Some (<[p := TrackNode.withPrev v n]> h).

(** The body of the do/while loop of [getAllTracks], entered at [node]:
    push the node, step to [node.next], stop when that is [head]. *)
Fixpoint collect (fuel : nat) (h : heap) (hd node : loc) : option (list loc) :=
  match fuel with
  | O => None
  | S fuel' =>
      n ← h !! node;
      nx ← TrackNode.next n;
      if decide (nx = hd) then Some [node]
      else (node ::.) <$> collect fuel' h hd nx
  end.

(** A walk that comes back to [head] visits pairwise distinct nodes, so
    the number of nodes in the store bounds the number of iterations. *)
Definition getAllTracks (s : state) : option (list loc) :=
  match head s with
  | None => Some []
  | Some hd => collect (length (mem s)) (mem s) hd hd
  end.

Definition updateOriginalOrder (s : state) : option state :=
  if isShuffled s then Some s
  else
    tracks ← getAllTracks s;
    Some (mk (mem s) (head s) (current s) (size s) (isShuffled s) tracks).

Definition addTrack (track : Track.t) (s : state) : option state :=
  let newNode := length (mem s) in
  let h0 := mem s ++ [TrackNode.new track] in
  '(h, hd, cur) ←
    match head s with
    | None =>
        h1 ← setNext newNode (Some newNode) h0;
        h2 ← setPrev newNode (Some newNode) h1;
        Some (h2, newNode, Some newNode)
    | Some hd =>
        hn ← h0 !! hd;
        let tail := TrackNode.prev hn in
        h1 ← setNext newNode (Some hd) h0;
        h2 ← setPrev newNode tail h1;
        tl ← tail;
        h3 ← setNext tl (Some newNode) h2;
        h4 ← setPrev hd (Some newNode) h3;
        Some (h4, hd, current s)
    end;
  updateOriginalOrder
    (mk h (Some hd) cur (size s + 1) (isShuffled s) (originalOrder s)).

Definition nextTrack (s : state) : option (option loc * state) :=
  match current s with
  | None => Some (None, s)
  | Some c =>
      n ← mem s !! c;
      let c' := TrackNode.next n in
      Some (c', mk (mem s) (head s) c' (size s) (isShuffled s)
                   (originalOrder s))
  end.

Definition prevTrack (s : state) : option (option loc * state) :=
  match current s with
  | None => Some (None, s)
  | Some c =>
      n ← mem s !! c;
      let c' := TrackNode.prev n in
      Some (c', mk (mem s) (head s) c' (size s) (isShuffled s)
                   (originalOrder s))
  end.

Definition getCurrentTrack (s : state) : option loc := current s.

(** The search loop shared by [setCurrentTrack] and [removeTrack]: the
    outer option is the loop returning at all, the inner one is the node
    found. *)
Fixpoint find (fuel : nat) (h : heap) (hd node : loc) (trackId : string)
  : option (option loc) :=
  match fuel with
  | O => None
  | S fuel' =>
      n ← h !! node;
      if decide (TrackNode.id n = trackId) then Some (Some node)
      else
        nx ← TrackNode.next n;
        if decide (nx = hd) then Some None
        else find fuel' h hd nx trackId
  end.

Definition setCurrentTrack (trackId : string) (s : state)
  : option (option loc * state) :=
  match head s with
  | None => Some (None, s)
  | Some hd =>
      r ← find (length (mem s)) (mem s) hd hd trackId;
      match r with
      | Some node =>
          Some (Some node, mk (mem s) (head s) (Some node) (size s)
                              (isShuffled s) (originalOrder s))
      | None => Some (None, s)
      end
  end.

Definition clear (s : state) : state :=
  mk (mem s) None None 0 (isShuffled s) (originalOrder s).

Definition getSize (s : state) : Z := size s.
Definition isEmpty (s : state) : bool := bool_decide (size s = 0).
Definition getIsShuffled (s : state) : bool := isShuffled s.

(** [[tracks[i], tracks[j]] = [tracks[j], tracks[i]]] for indices inside
    the array. *)
Definition swap (i j : nat) (tracks : list loc) : option (list loc) :=
  tj ← tracks !! j;
  ti ← tracks !! i;
  Some (<[j := ti]> (<[i := tj]> tracks)).

(** The Fisher-Yates loop, [i] running from its start value down to 1.
    [rnd i] stands for [Math.floor(Math.random() * (i + 1))] as drawn in
    the iteration with index [i]. *)
Fixpoint fisherYates (rnd : nat → nat) (i : nat) (tracks : list loc)
  : option (list loc) :=
  match i with
  | O => Some tracks
  | S i' => tracks' ← swap i (rnd i) tracks; fisherYates rnd i' tracks'
  end.

(** [tracks.forEach(track => this.addTrack({...}))]. *)
Fixpoint addEach (tracks : list loc) (s : state) : option state :=
  match tracks with
  | [] => Some s
  | p :: rest =>
      n ← mem s !! p;
      s' ← addTrack (TrackNode.fields n) s;
      addEach rest s'
  end.

(** [if (currentTrack) this.setCurrentTrack(currentTrack.id)]. *)
Definition reselect (currentTrack : option loc) (s : state) : option state :=
  match currentTrack with
  | None => Some s
  | Some c =>
      n ← mem s !! c;
      snd <$> setCurrentTrack (TrackNode.id n) s
  end.

Definition setIsShuffled (b : bool) (s : state) : state :=
  mk (mem s) (head s) (current s) (size s) b (originalOrder s).

Definition shuffle (rnd : nat → nat) (s : state) : option state :=
  if bool_decide (size s ≤ 1) then Some s
  else
    tracks ← getAllTracks s;
    let currentTrack := current s in
    tracks' ← fisherYates rnd (length tracks - 1) tracks;
    s1 ← addEach tracks' (clear s);
    s2 ← reselect currentTrack s1;
    Some (setIsShuffled true s2).

Definition restoreOrder (s : state) : option state :=
  if negb (isShuffled s) || bool_decide (length (originalOrder s) = 0%nat)
  then Some s
  else
    let currentTrack := current s in
    s1 ← addEach (originalOrder s) (clear s);
    s2 ← reselect currentTrack s1;
    Some (setIsShuffled false s2).

(** [track.genre?.toLowerCase() === genre.toLowerCase()]. *)
Definition genreIs (genre : string) (n : TrackNode.t) : bool :=
  match TrackNode.genre n with
  | Some g => bool_decide (toLowerCase g = toLowerCase genre)
  | None => false
  end.

(** The predicate handed to [filter] by [searchTracks]; an absent genre
    makes the optional chain [undefined], which is falsy. *)
Definition matches (searchTerm : string) (n : TrackNode.t) : bool :=
  includes (toLowerCase (TrackNode.title n)) searchTerm
  || includes (toLowerCase (TrackNode.artist n)) searchTerm
  || match TrackNode.genre n with
     | Some g => includes (toLowerCase g) searchTerm
     | None => false
     end.

(** [array.filter(pred)] over node references. *)
Fixpoint filterNodes (pred : TrackNode.t → bool) (h : heap)
  (tracks : list loc) : option (list loc) :=
  match tracks with
  | [] => Some []
  | p :: rest =>
      n ← h !! p;
      r ← filterNodes pred h rest;
      Some (if pred n then p :: r else r)
  end.

Definition getTracksByGenre (genre : string) (s : state)
  : option (list loc) :=
  tracks ← getAllTracks s; filterNodes (genreIs genre) (mem s) tracks.

Definition searchTracks (query : string) (s : state) : option (list loc) :=
  let searchTerm := toLowerCase query in
  tracks ← getAllTracks s; filterNodes (matches searchTerm) (mem s) tracks.

(** [array.reduce((total, track) => total + track.duration, 0)]. *)
Fixpoint reduceDuration (h : heap) (tracks : list loc) (total : Z)
  : option Z :=
  match tracks with
  | [] => Some total
  | p :: rest =>
      n ← h !! p;
      reduceDuration h rest (numberAdd total (TrackNode.duration n))
  end.

Definition getTotalDuration (s : state) : option Z :=
  tracks ← getAllTracks s; reduceDuration (mem s) tracks 0.

(** On safe integers [Math.floor(a / b)] is [a / b], the quotient
    rounded down; [%] is the remainder that takes the sign of the
    dividend. *)
Definition formatTotal (totalSeconds : Z) : string :=
  let hours := totalSeconds / 3600 in
  let minutes := Z.rem totalSeconds 3600 / 60 in
  let seconds := Z.rem totalSeconds 60 in
  if bool_decide (hours > 0) then
    toString hours +:+ ":" +:+ padStart0 2 (toString minutes) +:+ ":"
      +:+ padStart0 2 (toString seconds)
  else
    toString minutes +:+ ":" +:+ padStart0 2 (toString seconds).

Definition getFormattedTotalDuration (s : state) : option string :=
  formatTotal <$> getTotalDuration s.

Definition removeTrack (trackId : string) (s : state)
  : option (bool * state) :=
  match head s with
  | None => Some (false, s)
  | Some hd =>
      if bool_decide (size s = 0) then Some (false, s)
      else
        r ← find (length (mem s)) (mem s) hd hd trackId;
        match r with
        | None => Some (false, s)
        | Some nodeToRemove =>
            if bool_decide (size s = 1) then Some (true, clear s)
            else
              n ← mem s !! nodeToRemove;
              prevNode ← TrackNode.prev n;
              nextNode ← TrackNode.next n;
              h1 ← setNext prevNode (Some nextNode) (mem s);
              h2 ← setPrev nextNode (Some prevNode) h1;
              let hd' :=
                if decide (nodeToRemove = hd) then nextNode else hd in
              let cur' :=
                if decide (Some nodeToRemove = current s)
                then Some nextNode else current s in
              s' ← updateOriginalOrder
                     (mk h2 (Some hd') cur' (size s - 1) (isShuffled s)
                         (originalOrder s));
              Some (true, s')
        end
  end.

End MusicLinkedList.

Module L := MusicLinkedList.

(** The caller's loop [tracks.forEach(track => playlist.addTrack(track))]
    (src/components/AboutUs.tsx). *)
Fixpoint addTracks (tracks : list Track.t) (s : L.state) : option L.state :=
  match tracks with
  | [] => Some s
  | t :: rest => s' ← L.addTrack t s; addTracks rest s'
  end.

(** ** Reading the store *)

Definition nextOf (h : heap) (p : loc) : option loc :=
  n ← h !! p; TrackNode.next n.

Definition prevOf (h : heap) (p : loc) : option loc :=
  n ← h !! p; TrackNode.prev n.

Definition dataOf (h : heap) (p : loc) : option Track.t :=
  TrackNode.fields <$> h !! p.

Definition idOf (h : heap) (p : loc) : option string :=
  TrackNode.id <$> h !! p.

(** ** The ring seen as a list of addresses *)

(** [q] is the successor of [p] and [p] the predecessor of [q]. *)
Definition linked (h : heap) (p q : loc) : Prop :=
  nextOf h p = Some q ∧ prevOf h q = Some p.

(** Every two neighbours of the list are linked in both directions. *)
Fixpoint path (h : heap) (l : list loc) : Prop :=
  match l with
  | p :: (q :: _) as r => linked h p q ∧ path h r
  | _ => True
  end.

(** [l] lists the nodes of a circular doubly linked list once around,
    the last one linked back to the first. *)
Definition ring (h : heap) (l : list loc) : Prop :=
  NoDup l ∧ match l with [] => True | a :: _ => path h (l ++ [a]) end.

(** [k] steps along a link. *)
Fixpoint walk (f : loc → option loc) (k : nat) (p : loc) : option loc :=
  match k with
  | O => Some p
  | S k' => q ← f p; walk f k' q
  end.

(** The representation invariant: the fields of the object describe the
    ring [l], and the snapshot only names allocated nodes. *)
Record Inv (s : L.state) (l : list loc) : Prop := mkInv {
  inv_ring : ring (L.mem s) l;
  inv_head : L.head s = head l;
  inv_size : L.size s = Z.of_nat (length l);
  inv_current : match L.current s with
                | None => l = []
                | Some c => c ∈ l
                end;
  inv_snapshot : Forall (λ p, p < length (L.mem s)) (L.originalOrder s)
}.

(** The first address of [l] whose node carries [trackId]. *)
Fixpoint firstWithId (h : heap) (trackId : string) (l : list loc)
  : option loc :=
  match l with
  | [] => None
  | p :: r =>
      if decide (idOf h p = Some trackId) then Some p
      else firstWithId h trackId r
  end.

(** What [getAllTracks] shows to a caller: the track data of the ring
    nodes, in ring order. *)
Definition allTracks (s : L.state) : option (list Track.t) :=
  l ← L.getAllTracks s; mapM (dataOf (L.mem s)) l.

(** ** Sequences of calls *)

(** The state-changing public methods.  [Shuffle] carries the draws of
    its run of the Fisher-Yates loop. *)
Inductive call :=
  | AddTrack (track : Track.t)
  | NextTrack
  | PrevTrack
  | SetCurrentTrack (trackId : string)
  | Shuffle (rnd : nat → nat)
  | RestoreOrder
  | Clear
  | RemoveTrack (trackId : string).

Definition run (c : call) (s : L.state) : option L.state :=
  match c with
  | AddTrack track => L.addTrack track s
  | NextTrack => snd <$> L.nextTrack s
  | PrevTrack => snd <$> L.prevTrack s
  | SetCurrentTrack trackId => snd <$> L.setCurrentTrack trackId s
  | Shuffle rnd => L.shuffle rnd s
  | RestoreOrder => L.restoreOrder s
  | Clear => Some (L.clear s)
  | RemoveTrack trackId => snd <$> L.removeTrack trackId s
  end.

(** [Math.floor(Math.random() * (i + 1))] lies between 0 and [i]. *)
Definition fair (c : call) : Prop :=
  match c with
  | Shuffle rnd => ∀ i, rnd i ≤ i
  | _ => True
  end.

(** The states a list object can be in: those produced from a fresh
    object by public method calls. *)
Inductive reachable : L.state → Prop :=
  | reach_new : reachable L.empty
  | reach_call c s s' :
      reachable s → fair c → run c s = Some s' → reachable s'.

(** [n] calls in a row. *)
Fixpoint times (n : nat) (f : L.state → option L.state) (s : L.state)
  : option L.state :=
  match n with
  | O => Some s
  | S n' => s' ← f s; times n' f s'
  end.

Definition withCurrent (c : option loc) (s : L.state) : L.state :=
  L.mk (L.mem s) (L.head s) c (L.size s) (L.isShuffled s) (L.originalOrder s).

(** ** Rendering of durations *)

Definition digitChar (d : Z) : Ascii.ascii :=
  Ascii.ascii_of_nat (48 + Z.to_nat d).

(** The two decimal digits of a number below 100. *)
Definition twoDigits (m : Z) : string :=
  String (digitChar (m / 10)) (String (digitChar (m mod 10)) EmptyString).

Definition sumZ (l : list Z) : Z := foldr Z.add 0%Z l.

(** The shapes of a rendered duration.  A text is cut at its colons;
    "M:SS" is a run of one or more decimal digits and a run of exactly
    two, "H:MM:SS" has one more run of exactly two. *)
Definition isDigit (c : Ascii.ascii) : bool :=
  let n := nat_of_ascii c in (48 <=? n)%nat && (n <=? 57)%nat.

Fixpoint allDigits (s : string) : bool :=
  match s with
  | EmptyString => true
  | String c s' => isDigit c && allDigits s'
  end.

Fixpoint fieldsAtColon (s : string) : list string :=
  match s with
  | EmptyString => [EmptyString]
  | String c s' =>
      if Ascii.eqb c ":" then EmptyString :: fieldsAtColon s'
      else match fieldsAtColon s' with
           | f :: fs => String c f :: fs
           | [] => [String c EmptyString]
           end
  end.

Definition numberField (s : string) : bool :=
  negb (String.length s =? 0)%nat && allDigits s.

Definition twoDigitField (s : string) : bool :=
  (String.length s =? 2)%nat && allDigits s.

Definition isMSS (s : string) : bool :=
  match fieldsAtColon s with
  | [m; ss] => numberField m && twoDigitField ss
  | _ => false
  end.

Definition isHMMSS (s : string) : bool :=
  match fieldsAtColon s with
  | [h; mm; ss] => numberField h && twoDigitField mm && twoDigitField ss
  | _ => false
  end.

(** The text fields of a track are within ASCII. *)
Definition asciiTrack (t : Track.t) : bool :=
  isAscii (Track.title t) && isAscii (Track.artist t)
  && from_option isAscii true (Track.genre t).

(** ** Further code of the player *)

(** [TrackNode.getFormattedDuration]. *)
Definition getFormattedDuration (n : TrackNode.t) : string :=
  let minutes := (TrackNode.duration n / 60)%Z in
  let seconds := Z.rem (TrackNode.duration n) 60 in
  toString minutes +:+ ":" +:+ padStart0 2 (toString seconds).

(** The track behind [getCurrentTrack()], and its identifier. *)
Definition currentTrack (s : L.state) : option Track.t :=
  c ← L.getCurrentTrack s; dataOf (L.mem s) c.

Definition currentId (s : L.state) : option string :=
  Track._id <$> currentTrack s.

(** The tracks behind the snapshot [originalOrder]. *)
Definition snapshotTracks (s : L.state) : option (list Track.t) :=
  mapM (dataOf (L.mem s)) (L.originalOrder s).

(** [MusicPlayer] (src/components/AboutUs.tsx): the list it builds when
    it mounts, the effect that rebuilds it when [tracks] changes, and the
    shuffle button, which keeps a flag of its own beside the list. *)
Definition mount (tracks : list Track.t) : option L.state :=
  addTracks tracks L.empty.

Definition reload (tracks : list Track.t) (playlist : L.state)
  : option L.state :=
  addTracks tracks (L.clear playlist).

Definition toggleShuffle (rnd : nat → nat) (isShuffled : bool)
  (playlist : L.state) : option (bool * L.state) :=
  playlist' ← (if isShuffled then L.restoreOrder playlist
               else L.shuffle rnd playlist);
  Some (negb isShuffled, playlist').


Definition swapAt {A} (i j : nat) (tracks : list A) : option (list A) :=
  tj ← tracks !! j;
  ti ← tracks !! i;
  Some (<[j := ti]> (<[i := tj]> tracks)).

Fixpoint shuffleLoop {A} (rnd : nat → nat) (i : nat) (tracks : list A)
  : option (list A) :=
  match i with
  | O => Some tracks
  | S i' => tracks' ← swapAt i (rnd i) tracks; shuffleLoop rnd i' tracks'
  end.

Definition shuffleTracks {A} (rnd : nat → nat) (tracks : list A)
  : option (list A) :=
  shuffleLoop rnd (length tracks - 1) tracks.

(** A track matches a search term; [matches] read on the track data. *)
Definition matchesTrack (searchTerm : string) (t : Track.t) : bool :=
  includes (toLowerCase (Track.title t)) searchTerm
  || includes (toLowerCase (Track.artist t)) searchTerm
  || match Track.genre t with
     | Some g => includes (toLowerCase g) searchTerm
     | None => false
     end.

Definition genreIsTrack (genre : string) (t : Track.t) : bool :=
  match Track.genre t with
  | Some g => bool_decide (toLowerCase g = toLowerCase genre)
  | None => false
  end.

(** [sub] occurs somewhere inside [s]. *)
Definition contains (s sub : string) : Prop :=
  ∃ pre post, s = pre +:+ sub +:+ post.

(** Calls one after the other. *)
Fixpoint runAll (cs : list call) (s : L.state) : option L.state :=
  match cs with
  | [] => Some s
  | c :: rest => s' ← run c s; runAll rest s'
  end.

(** ** Sample playlists *)

Definition trackA : Track.t :=
  Track.mk "1" "Shape of You" "Ed Sheeran" 233 "a.mp3" None (Some "Pop").
Definition trackB : Track.t :=
  Track.mk "2" "Blinding Lights" "The Weeknd" 200 "b.mp3" None None.
Definition trackC : Track.t :=
  Track.mk "3" "Levitating" "Dua Lipa" 203 "c.mp3" (Some "c.png") (Some "Pop").

(** A second track that reuses the identifier of [trackA]. *)
Definition trackA' : Track.t :=
  Track.mk "1" "Perfect" "Ed Sheeran" 263 "p.mp3" None (Some "Pop").

Definition build (tracks : list Track.t) : L.state :=
  default L.empty (addTracks tracks L.empty).

Definition playlistAB : L.state := Eval vm_compute in build [trackA; trackB].
Definition playlistABC : L.state :=
  Eval vm_compute in build [trackA; trackB; trackC].
Definition playlistAA : L.state := Eval vm_compute in build [trackA; trackA'].

(** Tracks whose durations no track length has: 2^53 seconds beside one
    second, and a negative duration. *)
Definition trackLong : Track.t :=
  Track.mk "4" "Longplayer" "Jem Finer" 9007199254740992 "l.mp3" None None.
Definition trackSecond : Track.t :=
  Track.mk "5" "One Second" "Anon" 1 "s.mp3" None None.
Definition trackNegative : Track.t :=
  Track.mk "6" "Rewind" "Anon" (-1) "r.mp3" None None.

Definition playlistLong : L.state :=
  Eval vm_compute in build [trackLong; trackSecond].
Definition playlistNegative : L.state :=
  Eval vm_compute in build [trackNegative].

(** [playlistABC] after a [shuffle] whose draws are all 0. *)
Definition playlistShuffled : L.state :=
  Eval vm_compute in default L.empty (L.shuffle (λ _, 0) playlistABC).

(** ** Store updates *)

Section store.
Implicit Types (h : heap) (p q : loc) (v : option loc).

Lemma setNext_eq h p v n :
  h !! p = Some n → L.setNext p v h = Some (<[p := TrackNode.withNext v n]> h).
Proof. intros E. unfold L.setNext. by rewrite E. Qed.

Lemma setPrev_eq h p v n :
  h !! p = Some n → L.setPrev p v h = Some (<[p := TrackNode.withPrev v n]> h).
Proof. intros E. unfold L.setPrev. by rewrite E. Qed.

Lemma setNext_is_Some h p v : p < length h → is_Some (L.setNext p v h).
Proof.
  intros [n E]%lookup_lt_is_Some. rewrite (setNext_eq _ _ _ _ E). eauto.
Qed.

Lemma setPrev_is_Some h p v : p < length h → is_Some (L.setPrev p v h).
Proof.
  intros [n E]%lookup_lt_is_Some. rewrite (setPrev_eq _ _ _ _ E). eauto.
Qed.

Lemma setNext_length h h' p v : L.setNext p v h = Some h' → length h' = length h.
Proof.
  unfold L.setNext. destruct (h !! p); simpl; [|done].
  intros [= <-]. apply length_insert.
Qed.

Lemma setPrev_length h h' p v : L.setPrev p v h = Some h' → length h' = length h.
Proof.
  unfold L.setPrev. destruct (h !! p); simpl; [|done].
  intros [= <-]. apply length_insert.
Qed.

Lemma lookup_setNext h h' p v q :
  L.setNext p v h = Some h' →
  h' !! q = if decide (q = p) then TrackNode.withNext v <$> h !! p else h !! q.
Proof.
  unfold L.setNext. destruct (h !! p) as [n|] eqn:E; simpl; [|done].
  intros [= <-]. case_decide as D.
  - subst q. rewrite list_lookup_insert_eq; [done|]. by eapply lookup_lt_Some.
  - by rewrite list_lookup_insert_ne.
Qed.

Lemma lookup_setPrev h h' p v q :
  L.setPrev p v h = Some h' →
  h' !! q = if decide (q = p) then TrackNode.withPrev v <$> h !! p else h !! q.
Proof.
  unfold L.setPrev. destruct (h !! p) as [n|] eqn:E; simpl; [|done].
  intros [= <-]. case_decide as D.
  - subst q. rewrite list_lookup_insert_eq; [done|]. by eapply lookup_lt_Some.
  - by rewrite list_lookup_insert_ne.
Qed.

Lemma nextOf_setNext h h' p v q :
  L.setNext p v h = Some h' →
  nextOf h' q = if decide (q = p) then v else nextOf h q.
Proof.
  intros E. pose proof E as E'. unfold nextOf. rewrite (lookup_setNext _ _ _ _ q E).
  case_decide; [|done]. subst q.
  unfold L.setNext in E'. by destruct (h !! p).
Qed.

Lemma prevOf_setNext h h' p v q :
  L.setNext p v h = Some h' → prevOf h' q = prevOf h q.
Proof.
  intros E. unfold prevOf. rewrite (lookup_setNext _ _ _ _ q E).
  case_decide; [|done]. subst q. by destruct (h !! p).
Qed.

Lemma dataOf_setNext h h' p v q :
  L.setNext p v h = Some h' → dataOf h' q = dataOf h q.
Proof.
  intros E. unfold dataOf. rewrite (lookup_setNext _ _ _ _ q E).
  case_decide; [|done]. subst q. by destruct (h !! p).
Qed.

Lemma prevOf_setPrev h h' p v q :
  L.setPrev p v h = Some h' →
  prevOf h' q = if decide (q = p) then v else prevOf h q.
Proof.
  intros E. pose proof E as E'. unfold prevOf. rewrite (lookup_setPrev _ _ _ _ q E).
  case_decide; [|done]. subst q.
  unfold L.setPrev in E'. by destruct (h !! p).
Qed.

Lemma nextOf_setPrev h h' p v q :
  L.setPrev p v h = Some h' → nextOf h' q = nextOf h q.
Proof.
  intros E. unfold nextOf. rewrite (lookup_setPrev _ _ _ _ q E).
  case_decide; [|done]. subst q. by destruct (h !! p).
Qed.

Lemma dataOf_setPrev h h' p v q :
  L.setPrev p v h = Some h' → dataOf h' q = dataOf h q.
Proof.
  intros E. unfold dataOf. rewrite (lookup_setPrev _ _ _ _ q E).
  case_decide; [|done]. subst q. by destruct (h !! p).
Qed.

Lemma lookup_alloc h (n : TrackNode.t) q :
  (h ++ [n]) !! q = if decide (q = length h) then Some n else h !! q.
Proof.
  case_decide as D.
  - subst q. by rewrite list_lookup_middle.
  - destruct (decide (q < length h)).
    + by rewrite lookup_app_l.
    + rewrite !lookup_ge_None_2; [done| lia |]. rewrite length_app. simpl. lia.
Qed.

Lemma nextOf_lt h p q : nextOf h p = Some q → p < length h.
Proof.
  unfold nextOf. destruct (h !! p) eqn:E; [|done]. intros _.
  by eapply lookup_lt_Some.
Qed.

Lemma prevOf_lt h p q : prevOf h p = Some q → p < length h.
Proof.
  unfold prevOf. destruct (h !! p) eqn:E; [|done]. intros _.
  by eapply lookup_lt_Some.
Qed.

Lemma dataOf_idOf h h' p q : dataOf h' q = dataOf h p → idOf h' q = idOf h p.
Proof.
  unfold dataOf, idOf. destruct (h' !! q), (h !! p); simpl; try done.
  unfold TrackNode.fields. intros [= E _]. by rewrite E.
Qed.

End store.

(** ** Paths and rings *)

Section rings.
Implicit Types (h : heap) (l : list loc) (p q a z : loc).

Lemma path_app h l1 x l2 :
  path h (l1 ++ x :: l2) ↔ path h (l1 ++ [x]) ∧ path h (x :: l2).
Proof.
  induction l1 as [|a [|b l1] IH]; simpl in *; [tauto|tauto|].
  rewrite IH. tauto.
Qed.

Lemma path_frame h h' a l z :
  path h (a :: l ++ [z]) →
  (∀ p, p ∈ a :: l → nextOf h' p = nextOf h p) →
  (∀ q, q ∈ l ++ [z] → prevOf h' q = prevOf h q) →
  path h' (a :: l ++ [z]).
Proof.
  revert a. induction l as [|b l IH]; intros a; simpl.
  - intros [[Hn Hp] _] Fn Fp. split; [|done]. split.
    + rewrite Fn; [done|]. set_solver.
    + rewrite Fp; [done|]. set_solver.
  - intros [[Hn Hp] Hr] Fn Fp. split.
    + split; [rewrite Fn | rewrite Fp]; try done; set_solver.
    + apply IH; [done| |]; intros; [apply Fn | apply Fp]; set_solver.
Qed.

Lemma path_next h l z p :
  path h (l ++ [z]) → p ∈ l → ∃ q, nextOf h p = Some q ∧ q ∈ l ++ [z].
Proof.
  induction l as [|a l IH]; [set_solver|].
  intros Hp [->|Hin]%elem_of_cons.
  - destruct l as [|b l]; simpl in Hp; destruct Hp as [[Hn _] _];
      eexists; (split; [exact Hn|]); set_solver.
  - destruct l as [|b l]; [set_solver|].
    destruct Hp as [_ Hp]. destruct (IH Hp Hin) as (q & Hq & Hq').
    exists q. split; [done|]. set_solver.
Qed.

Lemma ring_lt h l p : ring h l → p ∈ l → p < length h.
Proof.
  intros [_ Hp] Hin. destruct l as [|a l]; [set_solver|].
  destruct (path_next _ _ _ _ Hp Hin) as (q & Hq & _).
  by eapply nextOf_lt.
Qed.

Lemma ring_length h l : ring h l → length l ≤ length h.
Proof.
  intros Hr. pose proof Hr as [Hnd _].
  assert (l ⊆+ seq 0 (length h)) as Hs.
  { apply NoDup_submseteq; [done|]. intros p Hin.
    apply elem_of_seq. pose proof (ring_lt _ _ _ Hr Hin). lia. }
  apply submseteq_length in Hs. by rewrite length_seq in Hs.
Qed.

Lemma ring_rotate1 h x l : ring h (x :: l) → ring h (l ++ [x]).
Proof.
  intros [Hnd Hp]. split.
  - eapply NoDup_Permutation_proper; [|exact Hnd]. by rewrite Permutation_app_comm.
  - destruct l as [|y l]; [done|].
    simpl in Hp. destruct Hp as [Hl Hp].
    simpl. rewrite <- (assoc_L (++)). simpl.
    change (path h ((y :: l) ++ x :: [y])). apply path_app.
    split; [done|]. simpl. done.
Qed.

Lemma ring_rotate h l1 l2 : ring h (l1 ++ l2) → ring h (l2 ++ l1).
Proof.
  revert l2. induction l1 as [|x l1 IH]; intros l2.
  - by rewrite app_nil_r.
  - intros Hr. apply (ring_rotate1 h x (l1 ++ l2)) in Hr.
    rewrite <- (assoc_L (++)) in Hr.
    apply IH in Hr. by rewrite <- (assoc_L (++)) in Hr.
Qed.

(** One full lap from any node of the ring back to itself. *)
Lemma ring_lap h l1 p l2 :
  ring h (l1 ++ p :: l2) → path h (p :: (l2 ++ l1) ++ [p]).
Proof.
  intros Hr. apply (ring_rotate _ l1 (p :: l2)) in Hr. by destruct Hr as [_ Hr].
Qed.

Lemma walk_next_path h a l z :
  path h (a :: l ++ [z]) → walk (nextOf h) (S (length l)) a = Some z.
Proof.
  revert a. induction l as [|b l IH]; intros a; simpl.
  - intros [[-> _] _]. done.
  - intros [[-> _] Hp]. simpl. by apply IH.
Qed.

Lemma walk_snoc f k p q :
  walk f k p = Some q → walk f (S k) p = f q.
Proof.
  revert p. induction k as [|k IH]; intros p; simpl.
  - intros [= ->]. by destruct (f q).
  - destruct (f p) as [r|]; simpl; [|done]. apply IH.
Qed.

Lemma walk_prev_path h a l z :
  path h (a :: l ++ [z]) → walk (prevOf h) (S (length l)) z = Some a.
Proof.
  revert z. induction l as [|b l IH] using rev_ind; intros z.
  - simpl. intros [[_ ->] _]. done.
  - rewrite <- (assoc_L (++)). intros Hp.
    change (path h ((a :: l) ++ b :: [z])) in Hp.
    apply path_app in Hp as [Hp [[_ Hl] _]].
    rewrite length_app. simpl. rewrite Nat.add_1_r.
    change (walk (prevOf h) (S (S (length l))) z)
      with (q ← prevOf h z; walk (prevOf h) (S (length l)) q).
    rewrite Hl. simpl. by apply IH.
Qed.

Lemma ring_walk_next h l p :
  ring h l → p ∈ l → walk (nextOf h) (length l) p = Some p.
Proof.
  intros Hr (l1 & l2 & ->)%list_elem_of_split.
  apply ring_lap, walk_next_path in Hr.
  rewrite length_app. simpl. rewrite length_app in Hr.
  by replace (length l1 + S (length l2)) with (S (length l2 + length l1)) by lia.
Qed.

Lemma ring_walk_prev h l p :
  ring h l → p ∈ l → walk (prevOf h) (length l) p = Some p.
Proof.
  intros Hr (l1 & l2 & ->)%list_elem_of_split.
  apply ring_lap, walk_prev_path in Hr.
  rewrite length_app. simpl. rewrite length_app in Hr.
  by replace (length l1 + S (length l2)) with (S (length l2 + length l1)) by lia.
Qed.

(** The successor of a ring node is a ring node that points back. *)
Lemma ring_next h l p :
  ring h l → p ∈ l →
  ∃ q, q ∈ l ∧ nextOf h p = Some q ∧ prevOf h q = Some p.
Proof.
  intros Hr (l1 & l2 & ->)%list_elem_of_split.
  apply ring_lap in Hr.
  destruct (l2 ++ l1) as [|q m] eqn:E; simpl in Hr.
  - destruct Hr as [[Hn Hp] _]. exists p. set_solver.
  - destruct Hr as [[Hn Hp] _]. exists q. split; [|done].
    assert (q ∈ l2 ++ l1) as Hq by (rewrite E; set_solver). set_solver.
Qed.

Lemma ring_prev h l p :
  ring h l → p ∈ l →
  ∃ q, q ∈ l ∧ prevOf h p = Some q ∧ nextOf h q = Some p.
Proof.
  intros Hr (l1 & l2 & ->)%list_elem_of_split.
  apply ring_lap in Hr.
  destruct (l2 ++ l1) as [|x m _] eqn:E using rev_ind.
  - simpl in Hr. destruct Hr as [[Hn Hp] _]. exists p. set_solver.
  - rewrite <- (assoc_L (++)) in Hr.
    change (p :: m ++ [x] ++ [p]) with ((p :: m) ++ x :: [p]) in Hr.
    apply path_app in Hr as [_ [[Hn Hp] _]]. exists x. split; [|done].
    assert (x ∈ l2 ++ l1) as Hq by (rewrite E; set_solver). set_solver.
Qed.

End rings.

(** ** The two loops *)

Section loops.
Implicit Types (h : heap) (l : list loc) (p q a z : loc).

Lemma collect_unfold fuel h a p :
  L.collect (S fuel) h a p =
  nx ← nextOf h p;
  if decide (nx = a) then Some [p] else (p ::.) <$> L.collect fuel h a nx.
Proof. unfold nextOf. simpl. by destruct (h !! p). Qed.

(** The fuel only bounds the number of iterations: more of it never
    changes a result. *)
Lemma collect_fuel_mono fuel fuel' h a p l :
  L.collect fuel h a p = Some l → fuel ≤ fuel' →
  L.collect fuel' h a p = Some l.
Proof.
  revert fuel' p l. induction fuel as [|fuel IH]; intros fuel' p l; [done|].
  destruct fuel' as [|fuel']; [lia|]. rewrite !collect_unfold.
  destruct (nextOf h p) as [nx|]; simpl; [|done].
  case_decide; [done|].
  destruct (L.collect fuel h a nx) as [r|] eqn:E; simpl; [|done].
  intros [= <-] Hle. rewrite (IH fuel' nx r); [done|done|lia].
Qed.

Lemma collect_path h a r p fuel :
  path h (p :: r ++ [a]) → a ∉ r → length r < fuel →
  L.collect fuel h a p = Some (p :: r).
Proof.
  revert p fuel. induction r as [|q r IH]; intros p fuel Hp Ha Hf;
    (destruct fuel as [|fuel]; [simpl in Hf; lia|]);
    rewrite collect_unfold; simpl in Hp; destruct Hp as [[-> _] Hp]; simpl.
  - by rewrite decide_True.
  - rewrite decide_False by set_solver.
    rewrite IH; [done|done|set_solver|simpl in Hf; lia].
Qed.

Lemma find_unfold fuel h a p trackId :
  L.find (S fuel) h a p trackId =
  match h !! p with
  | None => None
  | Some _ =>
      if decide (idOf h p = Some trackId) then Some (Some p)
      else nx ← nextOf h p;
           if decide (nx = a) then Some None else L.find fuel h a nx trackId
  end.
Proof.
  unfold nextOf, idOf. simpl. destruct (h !! p) as [n|]; simpl; [|done].
  destruct (decide (TrackNode.id n = trackId)) as [->|D].
  - by rewrite decide_True.
  - rewrite decide_False; [done|]. by intros [= ?].
Qed.

Lemma find_path h a r p fuel trackId :
  path h (p :: r ++ [a]) → a ∉ r → length r < fuel →
  L.find fuel h a p trackId = Some (firstWithId h trackId (p :: r)).
Proof.
  revert p fuel. induction r as [|q r IH]; intros p fuel Hp Ha Hf;
    (destruct fuel as [|fuel]; [simpl in Hf; lia|]);
    rewrite find_unfold; simpl in Hp; destruct Hp as [[Hn _] Hp];
    pose proof (nextOf_lt _ _ _ Hn) as [n En]%lookup_lt_is_Some;
    rewrite En, Hn; simpl; case_decide; try done.
  - by rewrite decide_True.
  - rewrite decide_False by set_solver.
    rewrite IH; [done|done|set_solver|simpl in Hf; lia].
Qed.

Lemma firstWithId_Some h trackId l q :
  firstWithId h trackId l = Some q ↔
  ∃ l1 l2, l = l1 ++ q :: l2 ∧ idOf h q = Some trackId
           ∧ ∀ p, p ∈ l1 → idOf h p ≠ Some trackId.
Proof.
  induction l as [|a l IH]; simpl.
  - split; [done|]. intros ([|??] & ? & ? & _); done.
  - case_decide as D.
    + split.
      * intros [= ->]. exists [], l. set_solver.
      * intros ([|b l1] & l2 & E & Hq & Hl1); simplify_eq/=; try done.
        exfalso. eapply Hl1; [|done]. set_solver.
    + rewrite IH. split.
      * intros (l1 & l2 & -> & Hq & Hl1). exists (a :: l1), l2.
        split; [done|]. split; [done|]. intros p [->|?]%elem_of_cons; auto.
      * intros ([|b l1] & l2 & E & Hq & Hl1); simplify_eq/=; try done.
        exists l1, l2. split; [done|]. split; [done|]. intros; apply Hl1. set_solver.
Qed.

Lemma firstWithId_None h trackId l :
  firstWithId h trackId l = None ↔ ∀ p, p ∈ l → idOf h p ≠ Some trackId.
Proof.
  induction l as [|a l IH]; simpl; [set_solver|].
  case_decide as D.
  - split; [done|]. intros Hl. exfalso. eapply Hl; [|done]. set_solver.
  - rewrite IH. split.
    + intros Hl p [->|?]%elem_of_cons; auto.
    + intros Hl p ?. apply Hl. set_solver.
Qed.

Lemma getAllTracks_Inv s l : Inv s l → L.getAllTracks s = Some l.
Proof.
  intros [Hr Hh _ _ _]. unfold L.getAllTracks. rewrite Hh.
  destruct l as [|a l]; [done|]. simpl.
  pose proof (ring_length _ _ Hr) as Hlen. destruct Hr as [Hnd Hp].
  apply collect_path; [done| |simpl in Hlen; lia].
  by apply NoDup_cons in Hnd as [? _].
Qed.

Lemma find_Inv s a l trackId :
  Inv s (a :: l) →
  L.find (length (L.mem s)) (L.mem s) a a trackId
  = Some (firstWithId (L.mem s) trackId (a :: l)).
Proof.
  intros [Hr Hh _ _ _].
  pose proof (ring_length _ _ Hr) as Hlen. destruct Hr as [Hnd Hp].
  apply find_path; [done| |simpl in Hlen; lia].
  by apply NoDup_cons in Hnd as [? _].
Qed.

End loops.

(** ** The methods preserve the representation *)

Section methods.
Implicit Types (h : heap) (l : list loc) (s : L.state).

Lemma nextOf_alloc h (n : TrackNode.t) q :
  nextOf (h ++ [n]) q
  = if decide (q = length h) then TrackNode.next n else nextOf h q.
Proof. unfold nextOf. rewrite lookup_alloc. by case_decide. Qed.

Lemma prevOf_alloc h (n : TrackNode.t) q :
  prevOf (h ++ [n]) q
  = if decide (q = length h) then TrackNode.prev n else prevOf h q.
Proof. unfold prevOf. rewrite lookup_alloc. by case_decide. Qed.

Lemma dataOf_alloc h (n : TrackNode.t) q :
  dataOf (h ++ [n]) q
  = if decide (q = length h) then Some (TrackNode.fields n) else dataOf h q.
Proof. unfold dataOf. rewrite lookup_alloc. by case_decide. Qed.

Lemma ring_intro h l a :
  head l = Some a → NoDup l → path h (l ++ [a]) → ring h l.
Proof. destruct l; [done|]. intros [= ->]. by split. Qed.

Lemma ring_elim h l a : ring h l → head l = Some a → path h (l ++ [a]).
Proof. destruct l; [done|]. intros [_ ?] [= ->]. done. Qed.

Lemma path_frame_NoDup h h' l a z :
  NoDup l → head l = Some a → last l = Some z → path h l →
  (∀ p, p ∈ l → p ≠ z → nextOf h' p = nextOf h p) →
  (∀ q, q ∈ l → q ≠ a → prevOf h' q = prevOf h q) →
  path h' l.
Proof.
  destruct l as [|a' l]; [done|]. intros Hnd [= ->].
  destruct l as [|z' l _] using rev_ind; [done|].
  rewrite last_cons, last_snoc. intros [= ->] Hp Fn Fp.
  apply NoDup_cons in Hnd as [Ha Hnd]. apply NoDup_app in Hnd as (_ & Hz & _).
  eapply path_frame; [done| |].
  - intros p Hin. apply Fn; [set_solver|].
    intros ->. apply elem_of_cons in Hin as [->|Hin]; [set_solver|].
    eapply Hz; [done|]. set_solver.
  - intros q Hin. apply Fp; [set_solver|]. intros ->. done.
Qed.

Lemma updateOriginalOrder_Inv s l :
  Inv s l →
  let s' := L.mk (L.mem s) (L.head s) (L.current s) (L.size s) (L.isShuffled s)
                 (if L.isShuffled s then L.originalOrder s else l) in
  L.updateOriginalOrder s = Some s' ∧ Inv s' l.
Proof.
  intros HI. pose proof (getAllTracks_Inv _ _ HI) as Hg.
  pose proof HI as [Hr Hh Hs Hc Ho].
  unfold L.updateOriginalOrder. destruct s as [h hd c n b o]; simpl in *.
  destruct b; simpl.
  - split; [done|]. done.
  - rewrite Hg. simpl. split; [done|]. split; simpl; try done.
    apply Forall_forall. intros p Hin. by eapply ring_lt.
Qed.

Lemma fields_new track : TrackNode.fields (TrackNode.new track) = track.
Proof. by destruct track. Qed.

Lemma snoc_cases {A} (l : list A) : l = [] ∨ ∃ m t, l = m ++ [t].
Proof. destruct l as [|t m _] using rev_ind; eauto. Qed.

(** The linking part of [addTrack], before the snapshot is refreshed. *)
Lemma addTrack_links track s l :
  Inv s l →
  let new := length (L.mem s) in
  ∃ s1, L.addTrack track s = L.updateOriginalOrder s1 ∧
    Inv s1 (l ++ [new]) ∧
    length (L.mem s1) = S new ∧
    (∀ q, dataOf (L.mem s1) q
          = if decide (q = new) then Some track else dataOf (L.mem s) q) ∧
    L.isShuffled s1 = L.isShuffled s ∧
    L.originalOrder s1 = L.originalOrder s.
Proof.
  intros HI new. pose proof HI as [Hr Hh Hs Hc Ho].
  destruct s as [h hd c n b o]; simpl in *. unfold L.addTrack; simpl.
  fold new. set (h0 := h ++ [TrackNode.new track]).
  assert (length h0 = S new) as Hl0.
  { unfold h0. rewrite length_app. simpl. lia. }
  assert (Forall (λ p, p < S new) o) as Ho'.
  { eapply Forall_impl; [exact Ho|]. simpl. intros. unfold new. lia. }
  destruct l as [|a l0]; simpl in Hh; subst hd.
  - (* first track *)
    destruct (setNext_is_Some h0 new (Some new)) as [h1 E1]; [lia|].
    rewrite E1. simpl.
    destruct (setPrev_is_Some h1 new (Some new)) as [h2 E2].
    { rewrite (setNext_length _ _ _ _ E1). lia. }
    rewrite E2. simpl.
    assert (length h2 = S new) as Hl2.
    { by rewrite (setPrev_length _ _ _ _ E2), (setNext_length _ _ _ _ E1). }
    eexists. split; [reflexivity|]. simpl.
    split; [|split; [done|]; split; [|done]].
    + split; simpl; [|done|simpl in Hs; lia|set_solver|by rewrite Hl2].
      split; [apply NoDup_singleton|]. simpl. split; [|done]. split.
      * rewrite (nextOf_setPrev _ _ _ _ _ E2), (nextOf_setNext _ _ _ _ _ E1).
        by rewrite decide_True.
      * rewrite (prevOf_setPrev _ _ _ _ _ E2). by rewrite decide_True.
    + intros q. rewrite (dataOf_setPrev _ _ _ _ _ E2), (dataOf_setNext _ _ _ _ _ E1).
      unfold h0. rewrite dataOf_alloc, fields_new. done.
  - (* append behind the tail *)
    assert (∀ p, p ∈ a :: l0 → p < new) as Hlt.
    { intros p Hin. by eapply ring_lt. }
    assert (a < new) as Ha by (apply Hlt; set_solver).
    destruct (snoc_cases (a :: l0)) as [?|(m & t & Em)]; [done|].
    pose proof Hr as [Hnd Hp]. rewrite Em in Hp, Hnd.
    rewrite <- (assoc_L (++)) in Hp. apply path_app in Hp as [Hm [[Hta Hat] _]].
    assert (t < new) as Ht by (apply Hlt; rewrite Em; set_solver).
    assert (h0 !! a = h !! a) as -> by (by apply lookup_app_l).
    pose proof Hat as Hat'. unfold prevOf in Hat'.
    destruct (h !! a) as [hn|] eqn:En; [|done]. simpl in Hat'. simpl.
    rewrite Hat'.
    destruct (setNext_is_Some h0 new (Some a)) as [h1 E1]; [lia|].
    rewrite E1. simpl.
    pose proof (setNext_length _ _ _ _ E1) as Hl1.
    destruct (setPrev_is_Some h1 new (Some t)) as [h2 E2]; [lia|].
    rewrite E2. simpl.
    pose proof (setPrev_length _ _ _ _ E2) as Hl2.
    destruct (setNext_is_Some h2 t (Some new)) as [h3 E3]; [lia|].
    rewrite E3. simpl.
    pose proof (setNext_length _ _ _ _ E3) as Hl3.
    destruct (setPrev_is_Some h3 a (Some new)) as [h4 E4]; [lia|].
    rewrite E4. simpl.
    pose proof (setPrev_length _ _ _ _ E4) as Hl4.
    assert (∀ q, nextOf h4 q
                 = if decide (q = t) then Some new
                   else if decide (q = new) then Some a else nextOf h q) as Hnext.
    { intros q. rewrite (nextOf_setPrev _ _ _ _ q E4), (nextOf_setNext _ _ _ _ q E3),
        (nextOf_setPrev _ _ _ _ q E2), (nextOf_setNext _ _ _ _ q E1).
      unfold h0. rewrite nextOf_alloc. fold new. by repeat case_decide. }
    assert (∀ q, prevOf h4 q
                 = if decide (q = a) then Some new
                   else if decide (q = new) then Some t else prevOf h q) as Hprev.
    { intros q. rewrite (prevOf_setPrev _ _ _ _ q E4), (prevOf_setNext _ _ _ _ q E3),
        (prevOf_setPrev _ _ _ _ q E2), (prevOf_setNext _ _ _ _ q E1).
      unfold h0. rewrite prevOf_alloc. fold new. by repeat case_decide. }
    eexists. split; [reflexivity|]. simpl.
    split; [|split; [lia|]; split; [|done]].
    + split; simpl; [| done | rewrite length_app; simpl in Hs |- *; lia | | ].
      * apply (ring_intro _ _ a); [done| |].
        { change (NoDup ((a :: l0) ++ [new])). apply NoDup_app.
          split; [by rewrite Em|]. split; [|apply NoDup_singleton].
          intros p Hin%Hlt ->%list_elem_of_singleton. lia. }
        change (path h4 (((a :: l0) ++ [new]) ++ [a])). rewrite Em.
        rewrite <- !(assoc_L (++)). apply path_app. split.
        -- destruct (decide (m = [])) as [->|Hne]; [done|].
           eapply (path_frame_NoDup h h4); [exact Hnd| | |exact Hm| |].
           ++ rewrite <- Em. done.
           ++ apply last_snoc.
           ++ intros p Hin Hne'. rewrite Hnext.
              rewrite decide_False by done. rewrite decide_False; [done|].
              rewrite <- Em in Hin. apply Hlt in Hin. lia.
           ++ intros q Hin Hne'. rewrite Hprev.
              rewrite decide_False by done. rewrite decide_False; [done|].
              rewrite <- Em in Hin. apply Hlt in Hin. lia.
        -- simpl. split; [|split; [|done]]; split.
           ++ rewrite Hnext. by rewrite decide_True.
           ++ rewrite Hprev. destruct (decide (new = a)); [lia|].
              by rewrite decide_True.
           ++ rewrite Hnext. destruct (decide (new = t)); [lia|].
              by rewrite decide_True.
           ++ rewrite Hprev. by rewrite decide_True.
      * destruct c as [c|]; [|done]. set_solver.
      * by rewrite Hl4, Hl3, Hl2, Hl1, Hl0.
    + intros q. rewrite (dataOf_setPrev _ _ _ _ q E4), (dataOf_setNext _ _ _ _ q E3),
        (dataOf_setPrev _ _ _ _ q E2), (dataOf_setNext _ _ _ _ q E1).
      unfold h0. rewrite dataOf_alloc, fields_new. done.
Qed.

Lemma addTrack_Inv track s l :
  Inv s l →
  let new := length (L.mem s) in
  ∃ s', L.addTrack track s = Some s' ∧
    Inv s' (l ++ [new]) ∧
    length (L.mem s') = S new ∧
    (∀ q, dataOf (L.mem s') q
          = if decide (q = new) then Some track else dataOf (L.mem s) q) ∧
    L.isShuffled s' = L.isShuffled s ∧
    L.originalOrder s'
    = (if L.isShuffled s then L.originalOrder s else l ++ [new]).
Proof.
  intros HI new.
  destruct (addTrack_links track s l HI) as (s1 & E & HI1 & Hl & Hd & Hb & Ho).
  destruct (updateOriginalOrder_Inv _ _ HI1) as [E' HI'].
  eexists. split; [by rewrite E|]. split; [done|]. simpl.
  rewrite Hb, Ho. done.
Qed.

Lemma addTracks_Inv tracks s l :
  Inv s l →
  let n := length (L.mem s) in
  let k := length tracks in
  ∃ s', addTracks tracks s = Some s' ∧
    Inv s' (l ++ seq n k) ∧
    length (L.mem s') = n + k ∧
    (∀ q, q < n → dataOf (L.mem s') q = dataOf (L.mem s) q) ∧
    dataOf (L.mem s') <$> seq n k = Some <$> tracks ∧
    L.isShuffled s' = L.isShuffled s ∧
    L.originalOrder s'
    = (if L.isShuffled s then L.originalOrder s
       else match tracks with [] => L.originalOrder s | _ => l ++ seq n k end).
Proof.
  revert s l. induction tracks as [|t tracks IH]; intros s l HI; simpl.
  - exists s. rewrite app_nil_r, Nat.add_0_r. split_and!; try done.
    by destruct (L.isShuffled s).
  - destruct (addTrack_Inv t s l HI) as (s1 & E1 & HI1 & Hl1 & Hd1 & Hb1 & Ho1).
    rewrite E1. simpl.
    destruct (IH s1 _ HI1) as (s' & E' & HI' & Hl' & Hd' & Hm' & Hb' & Ho').
    rewrite Hl1 in *. exists s'. split; [done|].
    rewrite <- (assoc_L (++)) in HI'. simpl in HI'.
    split; [done|]. split; [lia|]. split; [|split; [|split]].
    + intros q Hq. rewrite Hd' by lia. rewrite Hd1.
      rewrite decide_False; [done|lia].
    + f_equal; [|done]. rewrite Hd' by lia. rewrite Hd1. by rewrite decide_True.
    + congruence.
    + rewrite Ho', Hb1, Ho1. destruct (L.isShuffled s); [done|].
      destruct tracks; simpl; [done|]. by rewrite <- (assoc_L (++)).
Qed.

(** Rebuilding from node references inserts the tracks those nodes
    carry. *)
Lemma addEach_addTracks ts s l :
  Inv s l → Forall (λ p, p < length (L.mem s)) ts →
  ∃ tracks, dataOf (L.mem s) <$> ts = Some <$> tracks
            ∧ L.addEach ts s = addTracks tracks s.
Proof.
  revert s l. induction ts as [|p ts IH]; intros s l HI Hts.
  - by exists [].
  - apply Forall_cons in Hts as [Hp Hts].
    apply lookup_lt_is_Some in Hp as [n En]. simpl. rewrite En. simpl.
    destruct (addTrack_Inv (TrackNode.fields n) s l HI)
      as (s1 & E1 & HI1 & Hl1 & Hd1 & _).
    rewrite E1. simpl.
    destruct (IH s1 _ HI1) as (tracks & Ht & E').
    { eapply Forall_impl; [exact Hts|]. simpl. intros. lia. }
    exists (TrackNode.fields n :: tracks). simpl. rewrite E1. simpl.
    split; [|done]. f_equal.
    + unfold dataOf. by rewrite En.
    + etrans; [|exact Ht]. apply Forall_fmap_ext.
      eapply Forall_impl; [exact Hts|]. simpl. intros q Hq.
      rewrite Hd1. rewrite decide_False; [done|lia].
Qed.

Lemma clear_Inv s l : Inv s l → Inv (L.clear s) [].
Proof.
  intros [_ _ _ _ Ho]. split; simpl; try done. split; [apply NoDup_nil|]; done.
Qed.

Lemma setCurrentTrack_Inv trackId s l :
  Inv s l →
  let r := firstWithId (L.mem s) trackId l in
  let s' := match r with
            | Some node => L.mk (L.mem s) (L.head s) (Some node) (L.size s)
                                (L.isShuffled s) (L.originalOrder s)
            | None => s
            end in
  L.setCurrentTrack trackId s = Some (r, s') ∧ Inv s' l.
Proof.
  intros HI. pose proof HI as [Hr Hh Hs Hc Ho].
  destruct l as [|a l].
  - unfold L.setCurrentTrack. rewrite Hh. done.
  - pose proof (find_Inv s a l trackId HI) as Hf.
    pose proof (firstWithId_Some (L.mem s) trackId (a :: l)) as Hq.
    unfold L.setCurrentTrack. rewrite Hh.
    set (r := firstWithId (L.mem s) trackId (a :: l)) in *.
    simpl. rewrite Hf. simpl. clearbody r.
    destruct r as [q|]; [|done].
    split; [done|]. split; simpl; try done.
    destruct (Hq q) as [(l1 & l2 & E & _) _]; [done|]. rewrite E. set_solver.
Qed.

Lemma reselect_Inv c s l :
  Inv s l → (∀ p, c = Some p → p < length (L.mem s)) →
  ∃ s', L.reselect c s = Some s' ∧ Inv s' l ∧
    L.mem s' = L.mem s ∧ L.isShuffled s' = L.isShuffled s ∧
    L.originalOrder s' = L.originalOrder s.
Proof.
  intros HI Hc. destruct c as [p|]; simpl; [|by exists s].
  destruct (lookup_lt_is_Some_2 (L.mem s) p) as [n En]; [by apply Hc|].
  rewrite En. simpl.
  destruct (setCurrentTrack_Inv (TrackNode.id n) s l HI) as [E HI'].
  rewrite E. simpl. eexists. split; [done|]. split; [exact HI'|].
  by destruct (firstWithId _ _ _).
Qed.

Lemma fisherYates_perm rnd i (l : list loc) :
  (∀ k, rnd k ≤ k) → i < length l ∨ i = 0 →
  ∃ l', L.fisherYates rnd i l = Some l' ∧ l' ≡ₚ l.
Proof.
  intros Hrnd. revert l. induction i as [|i IH]; intros l Hi; [by exists l|].
  destruct Hi as [Hi|?]; [|done].
  simpl. unfold L.swap.
  destruct (lookup_lt_is_Some_2 l (rnd (S i))) as [tj Ej].
  { pose proof (Hrnd (S i)). lia. }
  destruct (lookup_lt_is_Some_2 l (S i)) as [ti Ei]; [done|].
  rewrite Ej, Ei. simpl.
  pose proof (Permutation_insert_swap l (S i) (rnd (S i)) ti tj Ei Ej) as Hperm.
  destruct (IH (<[rnd (S i):=ti]> (<[S i:=tj]> l))) as (l' & E' & Hl').
  { left. rewrite !length_insert. lia. }
  exists l'. split; [done|]. by rewrite Hl'.
Qed.

Lemma setIsShuffled_Inv b s l : Inv s l → Inv (L.setIsShuffled b s) l.
Proof. intros [? ? ? ? ?]. by split. Qed.

(** [clear], re-insert, re-select: the rebuild shared by [shuffle] and
    [restoreOrder]. *)
Lemma rebuild_Inv ts c s l :
  Inv s l →
  Forall (λ p, p < length (L.mem s)) ts →
  (∀ p, c = Some p → p < length (L.mem s)) →
  let l' := seq (length (L.mem s)) (length ts) in
  ∃ s2, (L.addEach ts (L.clear s) ≫= L.reselect c) = Some s2 ∧
    Inv s2 l' ∧
    dataOf (L.mem s2) <$> l' = dataOf (L.mem s) <$> ts ∧
    L.isShuffled s2 = L.isShuffled s ∧
    L.originalOrder s2
    = (if L.isShuffled s then L.originalOrder s
       else match ts with [] => L.originalOrder s | _ => l' end).
Proof.
  intros HI Hts Hc l'. pose proof (clear_Inv _ _ HI) as HI0.
  destruct (addEach_addTracks ts _ _ HI0 Hts) as (tracks & Ht & ->).
  destruct (addTracks_Inv tracks _ _ HI0)
    as (s1 & E1 & HI1 & Hl1 & _ & Hd1 & Hb1 & Ho1).
  simpl in *. rewrite E1. simpl.
  assert (length tracks = length ts) as Hk.
  { apply (f_equal length) in Ht. by rewrite !length_fmap in Ht. }
  rewrite Hk in *. fold l' in HI1, Hd1, Ho1.
  destruct (reselect_Inv c s1 l' HI1) as (s2 & E2 & HI2 & Hm2 & Hb2 & Ho2).
  { intros p Hp%Hc. lia. }
  exists s2. split; [done|]. split; [done|].
  rewrite Hm2, Hb2, Ho2, Hb1, Ho1, Hd1, Ht. split; [done|]. split; [done|].
  destruct (L.isShuffled s); [done|].
  destruct tracks, ts; simpl in *; done.
Qed.

Lemma current_lt s l p : Inv s l → L.current s = Some p → p < length (L.mem s).
Proof.
  intros [Hr _ _ Hc _] E. rewrite E in Hc. by eapply ring_lt.
Qed.

Lemma shuffle_small rnd s : (L.size s ≤ 1)%Z → L.shuffle rnd s = Some s.
Proof. intros H. unfold L.shuffle. by rewrite bool_decide_true. Qed.

Lemma shuffle_Inv rnd s l :
  Inv s l → (∀ k, rnd k ≤ k) → (1 < L.size s)%Z →
  ∃ s' l' σ, L.shuffle rnd s = Some s' ∧ Inv s' l' ∧
    L.fisherYates rnd (length l - 1) l = Some σ ∧ σ ≡ₚ l ∧
    dataOf (L.mem s') <$> l' = dataOf (L.mem s) <$> σ ∧
    L.isShuffled s' = true ∧
    L.originalOrder s' = (if L.isShuffled s then L.originalOrder s else l').
Proof.
  intros HI Hrnd Hsz. pose proof HI as [Hr Hh Hs Hc Ho].
  unfold L.shuffle. rewrite bool_decide_false by lia.
  rewrite (getAllTracks_Inv _ _ HI). simpl.
  destruct (fisherYates_perm rnd (length l - 1) l Hrnd) as (σ & Eσ & Hσ); [lia|].
  rewrite Eσ. simpl.
  destruct (rebuild_Inv σ (L.current s) s l HI) as (s2 & E2 & HI2 & Hd2 & Hb2 & Ho2).
  { apply Forall_forall. intros p Hp. rewrite Hσ in Hp. by eapply ring_lt. }
  { intros p. by apply current_lt with l. }
  unfold mbind, option_bind in E2 |- *.
  destruct (L.addEach σ (L.clear s)) as [s1|]; [|done]. rewrite E2.
  eexists _, _, σ. split; [done|]. split; [by apply setIsShuffled_Inv|].
  split; [done|]. split; [done|]. simpl. split; [done|]. split; [done|].
  rewrite Ho2. destruct (L.isShuffled s); [done|].
  destruct σ; [|done]. apply Permutation_nil_l in Hσ. subst l. simpl in Hs. lia.
Qed.

Lemma restoreOrder_skip s :
  L.isShuffled s = false ∨ L.originalOrder s = [] → L.restoreOrder s = Some s.
Proof.
  unfold L.restoreOrder. intros [->| ->]; [done|].
  by rewrite orb_true_r.
Qed.

Lemma restoreOrder_Inv s l :
  Inv s l → L.isShuffled s = true → L.originalOrder s ≠ [] →
  ∃ s' l', L.restoreOrder s = Some s' ∧ Inv s' l' ∧
    dataOf (L.mem s') <$> l' = dataOf (L.mem s) <$> L.originalOrder s ∧
    L.isShuffled s' = false ∧
    L.originalOrder s' = L.originalOrder s.
Proof.
  intros HI Hb Hne. pose proof HI as [Hr Hh Hs Hc Ho].
  unfold L.restoreOrder. rewrite Hb. simpl.
  rewrite bool_decide_false by (by destruct (L.originalOrder s)).
  destruct (rebuild_Inv (L.originalOrder s) (L.current s) s l HI Ho)
    as (s2 & E2 & HI2 & Hd2 & Hb2 & Ho2).
  { intros p. by apply current_lt with l. }
  unfold mbind, option_bind in E2 |- *.
  destruct (L.addEach (L.originalOrder s) (L.clear s)) as [s1|]; [|done].
  rewrite E2.
  eexists _, _. split; [done|]. split; [by apply setIsShuffled_Inv|].
  simpl. split; [done|]. split; [done|]. by rewrite Ho2, Hb.
Qed.

Lemma nextTrack_Inv s l c :
  Inv s l → L.current s = Some c →
  ∃ q, nextOf (L.mem s) c = Some q ∧ q ∈ l ∧
    let s' := L.mk (L.mem s) (L.head s) (Some q) (L.size s) (L.isShuffled s)
                   (L.originalOrder s) in
    L.nextTrack s = Some (Some q, s') ∧ Inv s' l.
Proof.
  intros HI Ec. pose proof HI as [Hr Hh Hs Hc Ho]. rewrite Ec in Hc.
  destruct (ring_next _ _ _ Hr Hc) as (q & Hq & Hn & _).
  exists q. split; [done|]. split; [done|]. simpl. split; [|by split].
  unfold L.nextTrack. rewrite Ec. unfold nextOf in Hn.
  destruct (L.mem s !! c); [|done]. simpl in *. by rewrite Hn.
Qed.

Lemma prevTrack_Inv s l c :
  Inv s l → L.current s = Some c →
  ∃ q, prevOf (L.mem s) c = Some q ∧ q ∈ l ∧
    let s' := L.mk (L.mem s) (L.head s) (Some q) (L.size s) (L.isShuffled s)
                   (L.originalOrder s) in
    L.prevTrack s = Some (Some q, s') ∧ Inv s' l.
Proof.
  intros HI Ec. pose proof HI as [Hr Hh Hs Hc Ho]. rewrite Ec in Hc.
  destruct (ring_prev _ _ _ Hr Hc) as (q & Hq & Hn & _).
  exists q. split; [done|]. split; [done|]. simpl. split; [|by split].
  unfold L.prevTrack. rewrite Ec. unfold prevOf in Hn.
  destruct (L.mem s !! c); [|done]. simpl in *. by rewrite Hn.
Qed.

Lemma removeTrack_miss trackId s l :
  Inv s l → firstWithId (L.mem s) trackId l = None →
  L.removeTrack trackId s = Some (false, s).
Proof.
  intros HI Hf. pose proof HI as [Hr Hh Hs Hc Ho].
  unfold L.removeTrack. rewrite Hh. destruct l as [|a l]; [done|].
  pose proof (find_Inv s a l trackId HI) as Hfind. rewrite Hf in Hfind.
  simpl. rewrite Hfind. simpl. by case_bool_decide.
Qed.

Lemma removeTrack_hit trackId s l x :
  Inv s l → firstWithId (L.mem s) trackId l = Some x →
  ∃ l1 l2 nx s',
    l = l1 ++ x :: l2 ∧
    (∀ p, p ∈ l1 → idOf (L.mem s) p ≠ Some trackId) ∧
    idOf (L.mem s) x = Some trackId ∧
    nextOf (L.mem s) x = Some nx ∧
    L.removeTrack trackId s = Some (true, s') ∧
    Inv s' (l1 ++ l2) ∧
    (∀ q, dataOf (L.mem s') q = dataOf (L.mem s) q) ∧
    (l = [x] → s' = L.clear s) ∧
    (l ≠ [x] →
       L.head s' = (if decide (L.head s = Some x) then Some nx else L.head s) ∧
       L.current s'
       = (if decide (L.current s = Some x) then Some nx else L.current s)).
Proof.
  intros HI Hf. pose proof HI as [Hr Hh Hs Hc Ho].
  pose proof Hf as (l1 & l2 & El & Hid & Hbefore)%firstWithId_Some.
  exists l1, l2.
  assert (∃ a l0, l = a :: l0) as (a & l0 & Eal).
  { destruct l; [by destruct l1|eauto]. }
  pose proof HI as Hfind. rewrite Eal in Hfind.
  apply (find_Inv _ _ _ trackId) in Hfind. rewrite <- Eal, Hf in Hfind.
  pose proof Hr as Hlap. rewrite El in Hlap. apply ring_lap in Hlap.
  assert (NoDup (x :: l2 ++ l1)) as Hnd.
  { destruct Hr as [Hnd _]. rewrite El in Hnd.
    eapply NoDup_Permutation_proper; [|exact Hnd].
    symmetry. apply (Permutation_app_comm l1 (x :: l2)). }
  apply NoDup_cons in Hnd as [Hx Hnd].
  assert (L.head s = Some a) as Hha by (by rewrite Hh, Eal).
  unfold L.removeTrack. rewrite Hha. cbv iota beta.
  rewrite bool_decide_false by (rewrite Hs, Eal; simpl; lia).
  rewrite Hfind. simpl.
  destruct (l2 ++ l1) as [|nx M1] eqn:EM.
  - (* the only node *)
    apply app_eq_nil in EM as [-> ->]. simpl in *. subst l.
    destruct Hlap as [[Hn _] _].
    exists x, (L.clear s). rewrite bool_decide_true by (rewrite Hs; simpl; lia).
    split; [done|]. split; [done|]. split; [done|]. split; [done|].
    split; [done|]. split; [by eapply clear_Inv|]. split; [done|].
    split; [done|]. done.
  - (* splice it out *)
    exists nx.
    assert (length l = S (S (length M1))) as Hlen.
    { rewrite El, length_app. simpl. apply (f_equal length) in EM.
      rewrite length_app in EM. simpl in EM. lia. }
    rewrite bool_decide_false by (rewrite Hs, Hlen; lia).
    destruct (snoc_cases (nx :: M1)) as [?|(M2 & pv & EM2)]; [done|].
    change (path (L.mem s) (x :: (nx :: M1) ++ [x])) in Hlap.
    destruct Hlap as [[Hxn Hnx] Hlap]. fold (path (L.mem s)) in Hlap.
    change (path (L.mem s) ((nx :: M1) ++ [x])) in Hlap.
    rewrite EM2 in Hlap, Hnd. rewrite <- (assoc_L (++)) in Hlap.
    apply path_app in Hlap as [HM [[Hpx Hxp] _]].
    pose proof Hxn as Hxn'. pose proof Hxp as Hxp'. unfold nextOf in Hxn'.
    unfold prevOf in Hxp'.
    destruct (L.mem s !! x) as [n|] eqn:En; [|done]. simpl in Hxn', Hxp'.
    simpl. rewrite Hxp', Hxn'. simpl.
    destruct (setNext_is_Some (L.mem s) pv (Some nx)) as [h1 E1].
    { by eapply nextOf_lt. }
    rewrite E1. simpl.
    destruct (setPrev_is_Some h1 nx (Some pv)) as [h2 E2].
    { rewrite (setNext_length _ _ _ _ E1). by eapply prevOf_lt. }
    rewrite E2. simpl.
    assert (∀ q, nextOf h2 q
                 = if decide (q = pv) then Some nx else nextOf (L.mem s) q) as Hnext.
    { intros q. by rewrite (nextOf_setPrev _ _ _ _ q E2), (nextOf_setNext _ _ _ _ q E1). }
    assert (∀ q, prevOf h2 q
                 = if decide (q = nx) then Some pv else prevOf (L.mem s) q) as Hprev.
    { intros q. by rewrite (prevOf_setPrev _ _ _ _ q E2), (prevOf_setNext _ _ _ _ q E1). }
    assert (∀ q, dataOf h2 q = dataOf (L.mem s) q) as Hdata.
    { intros q. by rewrite (dataOf_setPrev _ _ _ _ q E2), (dataOf_setNext _ _ _ _ q E1). }
    assert (nx ∈ l1 ++ l2) as Hnxin.
    { assert (nx ∈ l2 ++ l1) by (rewrite EM; set_solver). set_solver. }
    assert (x ∉ l1 ++ l2) as Hxout.
    { rewrite <- EM in Hx. set_solver. }
    set (s1 := L.mk h2 _ _ _ _ _).
    assert (Inv s1 (l1 ++ l2)) as HI1.
    { split; simpl.
      - apply ring_rotate. rewrite EM. apply (ring_intro _ _ nx); [done| |].
        { by rewrite EM2. }
        rewrite EM2, <- (assoc_L (++)). apply path_app. split.
        + eapply (path_frame_NoDup (L.mem s) h2); [exact Hnd| | |exact HM| |].
          * by rewrite <- EM2.
          * apply last_snoc.
          * intros p _ Hp. rewrite Hnext. by rewrite decide_False.
          * intros q _ Hq. rewrite Hprev. by rewrite decide_False.
        + simpl. split; [|done]. split.
          * rewrite Hnext. by rewrite decide_True.
          * rewrite Hprev. by rewrite decide_True.
      - destruct l1 as [|b l1]; simpl in *.
        + rewrite app_nil_r in EM. subst l2. simplify_eq/=.
          by rewrite decide_True.
        + simplify_eq/=. rewrite decide_False; [done|].
          intros ->. destruct Hr as [Hnd' _].
          apply NoDup_cons in Hnd' as [Hb _]. set_solver.
      - rewrite Hs, Hlen. apply (f_equal length) in EM.
        rewrite !length_app in *. simpl in EM. lia.
      - destruct (L.current s) as [c|] eqn:Ec.
        + case_decide as D; [done|].
          rewrite El in Hc. assert (c ≠ x) by congruence. set_solver.
        + rewrite decide_False by done. by subst l.
      - by rewrite (setPrev_length _ _ _ _ E2), (setNext_length _ _ _ _ E1). }
    destruct (updateOriginalOrder_Inv _ _ HI1) as [E' HI'].
    rewrite E'. simpl. eexists. split; [done|]. split; [done|].
    split; [done|]. split; [done|]. split; [done|]. split; [exact HI'|].
    split; [done|]. split.
    + intros ->. simpl in Hlen. lia.
    + intros _. simpl. split.
      * destruct (decide (x = a)) as [->|D].
        -- by rewrite decide_True.
        -- rewrite decide_False; [done|]. congruence.
      * destruct (decide (Some x = L.current s)) as [D|D].
        -- by rewrite decide_True.
        -- by rewrite decide_False.
Qed.

End methods.

(** ** Every reachable state is a ring *)

Section reachability.
Implicit Types (h : heap) (l : list loc) (s : L.state).

Lemma empty_Inv : Inv L.empty [].
Proof. split; simpl; try done. split; [apply NoDup_nil|]; done. Qed.

Lemma run_Inv c s l :
  Inv s l → fair c → ∃ s' l', run c s = Some s' ∧ Inv s' l'.
Proof.
  intros HI Hfair. destruct c as [t| | |trackId|rnd| | |trackId]; simpl.
  - destruct (addTrack_Inv t s l HI) as (s' & E & HI' & _). eauto.
  - destruct (L.current s) as [c|] eqn:Ec.
    + destruct (nextTrack_Inv s l c HI Ec) as (q & _ & _ & E & HI').
      rewrite E. simpl. eauto.
    + unfold L.nextTrack. rewrite Ec. simpl. eauto.
  - destruct (L.current s) as [c|] eqn:Ec.
    + destruct (prevTrack_Inv s l c HI Ec) as (q & _ & _ & E & HI').
      rewrite E. simpl. eauto.
    + unfold L.prevTrack. rewrite Ec. simpl. eauto.
  - destruct (setCurrentTrack_Inv trackId s l HI) as [E HI'].
    rewrite E. simpl. eauto.
  - destruct (decide (L.size s ≤ 1)%Z) as [Hs|Hs].
    + rewrite shuffle_small by done. eauto.
    + destruct (shuffle_Inv rnd s l HI Hfair) as (s' & l' & _ & E & HI' & _);
        [lia|eauto].
  - destruct (L.isShuffled s) eqn:Eb.
    + destruct (decide (L.originalOrder s = [])) as [Eo|Eo].
      * rewrite restoreOrder_skip by auto. eauto.
      * destruct (restoreOrder_Inv s l HI Eb Eo) as (s' & l' & E & HI' & _).
        eauto.
    + rewrite restoreOrder_skip by auto. eauto.
  - eauto using clear_Inv.
  - destruct (firstWithId (L.mem s) trackId l) as [x|] eqn:Ef.
    + destruct (removeTrack_hit trackId s l x HI Ef)
        as (l1 & l2 & nx & s' & _ & _ & _ & _ & E & HI' & _).
      rewrite E. simpl. eauto.
    + rewrite (removeTrack_miss trackId s l HI Ef). simpl. eauto.
Qed.

Lemma reachable_Inv s : reachable s → ∃ l, Inv s l.
Proof.
  induction 1 as [|c s s' _ [l HI] Hfair E].
  - exists []. apply empty_Inv.
  - destruct (run_Inv c s l HI Hfair) as (s'' & l' & E' & HI').
    rewrite E in E'. injection E' as <-. eauto.
Qed.

(** No call on a reachable state throws or loops. *)
Lemma run_total c s : reachable s → fair c → is_Some (run c s).
Proof.
  intros [l HI]%reachable_Inv Hfair.
  destruct (run_Inv c s l HI Hfair) as (s' & _ & E & _). eauto.
Qed.

Lemma reachable_getAllTracks s l :
  reachable s → L.getAllTracks s = Some l → Inv s l.
Proof.
  intros [l' HI]%reachable_Inv E.
  rewrite (getAllTracks_Inv _ _ HI) in E. by injection E as <-.
Qed.

Lemma mapM_dataOf h l :
  Forall (λ p, p < length h) l →
  ∃ tracks, mapM (dataOf h) l = Some tracks ∧ dataOf h <$> l = Some <$> tracks.
Proof.
  induction 1 as [|p l Hp _ (tracks & E & Ed)].
  - by exists [].
  - apply lookup_lt_is_Some in Hp as [n En].
    assert (dataOf h p = Some (TrackNode.fields n)) as Ep.
    { unfold dataOf. by rewrite En. }
    exists (TrackNode.fields n :: tracks). simpl.
    rewrite Ep. simpl. rewrite E. simpl.
    split; [done|]. f_equal. exact Ed.
Qed.

Lemma allTracks_Inv s l :
  Inv s l →
  ∃ tracks, allTracks s = Some tracks ∧ dataOf (L.mem s) <$> l = Some <$> tracks.
Proof.
  intros HI. unfold allTracks. rewrite (getAllTracks_Inv _ _ HI). simpl.
  apply mapM_dataOf. apply Forall_forall. intros p Hp.
  destruct HI as [Hr _ _ _ _]. by eapply ring_lt.
Qed.

Lemma Some_fmap_inj {A} (l k : list A) : Some <$> l = Some <$> k → l = k.
Proof.
  revert k. induction l as [|a l IH]; intros [|b k]; simpl; try done.
  intros [= -> E]. f_equal. by apply IH.
Qed.

Lemma allTracks_Inv_eq s l tracks :
  Inv s l → allTracks s = Some tracks →
  dataOf (L.mem s) <$> l = Some <$> tracks.
Proof.
  intros HI E. destruct (allTracks_Inv s l HI) as (tracks' & E' & Hd).
  rewrite E in E'. by injection E' as <-.
Qed.

Lemma idOf_dataOf h p : idOf h p = Track._id <$> dataOf h p.
Proof. unfold idOf, dataOf. by destruct (h !! p). Qed.

End reachability.

(** ** The sample playlists are reachable *)

Lemma reachable_addTracks tracks s s' :
  reachable s → addTracks tracks s = Some s' → reachable s'.
Proof.
  revert s. induction tracks as [|t tracks IH]; intros s Hs; simpl.
  - by intros [= <-].
  - destruct (L.addTrack t s) as [s1|] eqn:E; simpl; [|done].
    apply IH. by apply (reach_call (AddTrack t) s s1).
Qed.

Lemma reachable_playlistAB : reachable playlistAB.
Proof.
  apply (reachable_addTracks [trackA; trackB] L.empty); [apply reach_new|done].
Qed.

Lemma reachable_playlistABC : reachable playlistABC.
Proof.
  apply (reachable_addTracks [trackA; trackB; trackC] L.empty);
    [apply reach_new|done].
Qed.

Lemma reachable_playlistAA : reachable playlistAA.
Proof.
  apply (reachable_addTracks [trackA; trackA'] L.empty); [apply reach_new|done].
Qed.

(** ** Insertion *)

(** C2: tracks with pairwise distinct identifiers inserted one after the
    other into a fresh list come back from [getAllTracks] in insertion
    order, and [getSize] is their number. *)
Theorem insertion_order tracks :
  NoDup (Track._id <$> tracks) →
  ∃ s, addTracks tracks L.empty = Some s ∧
       allTracks s = Some tracks ∧
       L.getSize s = Z.of_nat (length tracks).
Proof.
  intros _.
  destruct (addTracks_Inv tracks L.empty [] empty_Inv)
    as (s & E & HI & _ & _ & Hd & _).
  simpl in HI, Hd. exists s. split; [done|].
  destruct (allTracks_Inv s _ HI) as (tracks' & Et & Hd').
  rewrite Hd in Hd'. apply Some_fmap_inj in Hd' as <-. split; [done|].
  destruct HI as [_ _ Hs _ _]. unfold L.getSize. by rewrite Hs, length_seq.
Qed.

Lemma insertion_order_witness :
  NoDup (Track._id <$> [trackA; trackB; trackC]) ∧
  ∃ s, addTracks [trackA; trackB; trackC] L.empty = Some s ∧
       allTracks s = Some [trackA; trackB; trackC] ∧
       L.getSize s = Z.of_nat (length [trackA; trackB; trackC]).
Proof.
  assert (NoDup (Track._id <$> [trackA; trackB; trackC])) as H by compute_done.
  split; [exact H | exact (insertion_order _ H)].
Defined.

(** ** Selection by identifier *)

(** C7: [setCurrentTrack] makes the first ring node carrying the
    identifier current and returns it, every other field staying as it
    was; when no ring node carries the identifier (the empty list
    included) it returns [null] and the state is unchanged. *)
Theorem select_by_id s l trackId :
  reachable s → L.getAllTracks s = Some l →
  (∀ l1 x l2,
     l = l1 ++ x :: l2 →
     idOf (L.mem s) x = Some trackId →
     (∀ p, p ∈ l1 → idOf (L.mem s) p ≠ Some trackId) →
     L.setCurrentTrack trackId s = Some (Some x, withCurrent (Some x) s)) ∧
  ((∀ p, p ∈ l → idOf (L.mem s) p ≠ Some trackId) →
   L.setCurrentTrack trackId s = Some (None, s)).
Proof.
  intros Hs Hl. pose proof (reachable_getAllTracks s l Hs Hl) as HI.
  destruct (setCurrentTrack_Inv trackId s l HI) as [E _]. split.
  - intros l1 x l2 El Hx Hl1.
    assert (firstWithId (L.mem s) trackId l = Some x) as Ef.
    { apply firstWithId_Some. eauto. }
    by rewrite Ef in E.
  - intros Hno. apply firstWithId_None in Hno. by rewrite Hno in E.
Qed.

Lemma select_by_id_witness :
  reachable playlistABC ∧ L.getAllTracks playlistABC = Some [0; 1; 2] ∧
  L.setCurrentTrack "2" playlistABC
  = Some (Some 1, withCurrent (Some 1) playlistABC) ∧
  L.setCurrentTrack "9" playlistABC = Some (None, playlistABC).
Proof.
  assert (L.getAllTracks playlistABC = Some [0; 1; 2]) as Hl by reflexivity.
  split; [exact reachable_playlistABC|]. split; [exact Hl|].
  destruct (select_by_id playlistABC [0; 1; 2] "2" reachable_playlistABC Hl)
    as [Hhit _].
  destruct (select_by_id playlistABC [0; 1; 2] "9" reachable_playlistABC Hl)
    as [_ Hmiss].
  split.
  - apply (Hhit [0] 1 [2]); [reflexivity|reflexivity|].
    intros p ->%list_elem_of_singleton. discriminate.
  - apply Hmiss. intros p Hp. repeat (apply elem_of_cons in Hp as [->|Hp]);
      [discriminate..|]. by apply elem_of_nil in Hp.
Defined.

(** ** Clearing *)

(** C8: [clear] empties [head] and [current] and zeroes [size] from any
    state, and keeps the shuffled flag and the snapshot. *)
Theorem clear_frame s :
  L.head (L.clear s) = None ∧ L.current (L.clear s) = None ∧
  L.size (L.clear s) = 0%Z ∧
  L.isShuffled (L.clear s) = L.isShuffled s ∧
  L.originalOrder (L.clear s) = L.originalOrder s.
Proof. by destruct s. Qed.

(** ** Searching *)

Lemma collect_lookup fuel h hd p l :
  L.collect fuel h hd p = Some l → Forall (λ q, is_Some (h !! q)) l.
Proof.
  revert p l. induction fuel as [|fuel IH]; intros p l; simpl; [done|].
  destruct (h !! p) as [n|] eqn:En; simpl; [|done].
  destruct (TrackNode.next n) as [nx|]; simpl; [|done].
  case_decide.
  - intros [= <-]. by repeat constructor.
  - destruct (L.collect fuel h hd nx) as [r|] eqn:Er; simpl; [|done].
    intros [= <-]. constructor; [by rewrite En|]. by eapply IH.
Qed.

Lemma getAllTracks_lookup s l :
  L.getAllTracks s = Some l → Forall (λ q, is_Some (L.mem s !! q)) l.
Proof.
  unfold L.getAllTracks. destruct (L.head s).
  - apply collect_lookup.
  - by intros [= <-].
Qed.

Lemma includes_empty s : includes s "" = true.
Proof. by destruct s. Qed.

Lemma matches_empty n : L.matches "" n = true.
Proof. unfold L.matches. by rewrite includes_empty. Qed.

Lemma filterNodes_all pred h l :
  Forall (λ q, is_Some (h !! q)) l → (∀ n, pred n = true) →
  L.filterNodes pred h l = Some l.
Proof.
  intros Hl Hp. induction Hl as [|q l [n En] _ IH]; simpl; [done|].
  rewrite En. simpl. rewrite IH. simpl. by rewrite Hp.
Qed.

(** C10: [searchTracks] with the empty string returns the sequence
    [getAllTracks] returns: the title of every track includes the empty
    string, so no track is filtered out. *)
Theorem search_empty_query s : L.searchTracks "" s = L.getAllTracks s.
Proof.
  unfold L.searchTracks. simpl toLowerCase.
  destruct (L.getAllTracks s) as [l|] eqn:E; simpl; [|done].
  apply filterNodes_all; [by apply getAllTracks_lookup|apply matches_empty].
Qed.

(** ** Navigation *)

Lemma withCurrent_Inv c s l : Inv s l → c ∈ l → Inv (withCurrent (Some c) s) l.
Proof. intros [? ? ? ? ?] Hc. by split. Qed.

Lemma withCurrent_id s c : L.current s = Some c → withCurrent (Some c) s = s.
Proof. destruct s. simpl. by intros ->. Qed.

Lemma times_nextTrack k s l c q :
  Inv s l → L.current s = Some c →
  walk (nextOf (L.mem s)) k c = Some q →
  times k (λ s, snd <$> L.nextTrack s) s = Some (withCurrent (Some q) s).
Proof.
  revert s c. induction k as [|k IH]; intros s c HI Ec; simpl.
  - intros [= <-]. by rewrite withCurrent_id.
  - destruct (nextTrack_Inv s l c HI Ec) as (q1 & Hn & _ & E & HI1).
    rewrite Hn, E. simpl. intros Hw.
    by rewrite (IH _ q1 HI1 eq_refl Hw).
Qed.

Lemma times_prevTrack k s l c q :
  Inv s l → L.current s = Some c →
  walk (prevOf (L.mem s)) k c = Some q →
  times k (λ s, snd <$> L.prevTrack s) s = Some (withCurrent (Some q) s).
Proof.
  revert s c. induction k as [|k IH]; intros s c HI Ec; simpl.
  - intros [= <-]. by rewrite withCurrent_id.
  - destruct (prevTrack_Inv s l c HI Ec) as (q1 & Hn & _ & E & HI1).
    rewrite Hn, E. simpl. intros Hw.
    by rewrite (IH _ q1 HI1 eq_refl Hw).
Qed.

(** C4: with any ring node as the current one, [size] calls of
    [nextTrack] lead back to that node, and so do [size] calls of
    [prevTrack]; on the empty list both return [null] and change
    nothing. *)
Theorem wraparound s :
  reachable s →
  (∀ l c, L.getAllTracks s = Some l → c ∈ l →
     let s0 := withCurrent (Some c) s in
     times (Z.to_nat (L.size s)) (λ s, snd <$> L.nextTrack s) s0 = Some s0 ∧
     times (Z.to_nat (L.size s)) (λ s, snd <$> L.prevTrack s) s0 = Some s0) ∧
  (L.size s = 0%Z →
     L.nextTrack s = Some (None, s) ∧ L.prevTrack s = Some (None, s)).
Proof.
  intros Hs. split.
  - intros l c Hl Hc s0. pose proof (reachable_getAllTracks s l Hs Hl) as HI.
    pose proof (withCurrent_Inv c s l HI Hc) as HI0. fold s0 in HI0.
    pose proof HI as [Hr _ Hsz _ _]. rewrite Hsz, Nat2Z.id. split.
    + by apply (times_nextTrack _ s0 l c c HI0 eq_refl), ring_walk_next.
    + by apply (times_prevTrack _ s0 l c c HI0 eq_refl), ring_walk_prev.
  - intros Hz. destruct (reachable_Inv s Hs) as [l [_ _ Hsz Hc _]].
    assert (l = []) as -> by (destruct l; [done|simpl in Hsz; lia]).
    unfold L.nextTrack, L.prevTrack.
    destruct (L.current s) as [c|]; [|done]. by apply elem_of_nil in Hc.
Qed.

Lemma wraparound_witness :
  reachable playlistABC ∧
  L.getAllTracks playlistABC = Some [0; 1; 2] ∧ 1 ∈ [0; 1; 2] ∧
  times 3 (λ s, snd <$> L.nextTrack s) (withCurrent (Some 1) playlistABC)
  = Some (withCurrent (Some 1) playlistABC) ∧
  times 3 (λ s, snd <$> L.prevTrack s) (withCurrent (Some 1) playlistABC)
  = Some (withCurrent (Some 1) playlistABC).
Proof.
  assert (L.getAllTracks playlistABC = Some [0; 1; 2]) as Hl by reflexivity.
  assert (1 ∈ [0; 1; 2]) as Hc by (apply elem_of_cons; right; apply elem_of_cons; by left).
  split; [exact reachable_playlistABC|]. split; [exact Hl|]. split; [exact Hc|].
  exact (proj1 (wraparound playlistABC reachable_playlistABC) [0; 1; 2] 1 Hl Hc).
Defined.

(** ** The ring invariant *)

Lemma walk_in_ring h l k p q :
  ring h l → p ∈ l → walk (nextOf h) k p = Some q → q ∈ l.
Proof.
  intros Hr. revert p. induction k as [|k IH]; intros p Hp; simpl.
  - by intros [= <-].
  - destruct (ring_next _ _ _ Hr Hp) as (p' & Hp' & -> & _). simpl. by apply IH.
Qed.

Lemma walk_next_lookup h a r k :
  path h (a :: r) → k ≤ length r → walk (nextOf h) k a = (a :: r) !! k.
Proof.
  revert a r. induction k as [|k IH]; intros a r Hp Hk; [done|].
  destruct r as [|b r]; [simpl in Hk; lia|].
  destruct Hp as [[Hn _] Hp]. simpl. rewrite Hn. simpl.
  apply IH; [done|simpl in Hk; lia].
Qed.

(** C5: in every state reached through public method calls, [size] is 0
    exactly when [head] and [current] are both [null]; and when [size] is
    positive, [size] steps along [next] from [head] come back to [head]
    for the first time, [size] steps along [prev] come back to [head],
    and every node met on the way satisfies [node.next.prev == node] and
    [node.prev.next == node]. *)
Theorem ring_invariant s :
  reachable s →
  let h := L.mem s in
  let n := Z.to_nat (L.size s) in
  (L.size s = 0%Z ↔ L.head s = None ∧ L.current s = None) ∧
  ((0 < L.size s)%Z →
   ∃ hd, L.head s = Some hd ∧
     walk (nextOf h) n hd = Some hd ∧
     walk (prevOf h) n hd = Some hd ∧
     (∀ k, 0 < k < n → walk (nextOf h) k hd ≠ Some hd) ∧
     (∀ k p, walk (nextOf h) k hd = Some p →
        (∃ q, nextOf h p = Some q ∧ prevOf h q = Some p) ∧
        (∃ q, prevOf h p = Some q ∧ nextOf h q = Some p))).
Proof.
  intros [l HI]%reachable_Inv h n. pose proof HI as [Hr Hh Hsz Hc _].
  subst h n. rewrite Hsz, Nat2Z.id. split.
  - split.
    + intros Hz. assert (l = []) as -> by (destruct l; [done|simpl in Hz; lia]).
      split; [done|]. destruct (L.current s); [|done]. by apply elem_of_nil in Hc.
    + intros [Hhd _]. rewrite Hhd in Hh. by destruct l.
  - intros Hpos. destruct l as [|a l]; [simpl in Hpos; lia|].
    exists a. split; [done|].
    assert (a ∈ a :: l) as Ha by set_solver.
    split; [by apply ring_walk_next|]. split; [by apply ring_walk_prev|]. split.
    + intros k Hk. destruct Hr as [Hnd Hp]. apply NoDup_cons in Hnd as [Hal _].
      change (path (L.mem s) (a :: l ++ [a])) in Hp.
      rewrite (walk_next_lookup _ _ _ _ Hp)
        by (rewrite length_app; simpl in *; lia).
      destruct k as [|k]; [lia|]. simpl.
      rewrite lookup_app_l by (simpl in Hk; lia).
      intros Hk'%list_elem_of_lookup_2. done.
    + intros k p Hw. pose proof (walk_in_ring _ _ _ _ _ Hr Ha Hw) as Hp.
      destruct (ring_next _ _ _ Hr Hp) as (q & _ & ? & ?).
      destruct (ring_prev _ _ _ Hr Hp) as (q' & _ & ? & ?).
      split; [by exists q|by exists q'].
Qed.

Lemma ring_invariant_witness :
  reachable playlistABC ∧
  (L.size playlistABC = 0%Z
   ↔ L.head playlistABC = None ∧ L.current playlistABC = None) ∧
  ((0 < L.size playlistABC)%Z →
   ∃ hd, L.head playlistABC = Some hd ∧
     walk (nextOf (L.mem playlistABC)) 3 hd = Some hd ∧
     walk (prevOf (L.mem playlistABC)) 3 hd = Some hd ∧
     (∀ k, 0 < k < 3 → walk (nextOf (L.mem playlistABC)) k hd ≠ Some hd) ∧
     (∀ k p, walk (nextOf (L.mem playlistABC)) k hd = Some p →
        (∃ q, nextOf (L.mem playlistABC) p = Some q
              ∧ prevOf (L.mem playlistABC) q = Some p) ∧
        (∃ q, prevOf (L.mem playlistABC) p = Some q
              ∧ nextOf (L.mem playlistABC) q = Some p))).
Proof.
  split; [exact reachable_playlistABC|].
  exact (ring_invariant playlistABC reachable_playlistABC).
Defined.

(** ** Shuffling *)

Lemma omap_Some_fmap {A} (l : list A) : omap id (Some <$> l) = l.
Proof. induction l as [|a l IH]; [done|]. simpl. by f_equal. Qed.

Lemma Some_fmap_Permutation {A} (l k : list A) :
  Some <$> l ≡ₚ Some <$> k → l ≡ₚ k.
Proof.
  intros H. apply (omap_Permutation id) in H. by rewrite !omap_Some_fmap in H.
Qed.

(** C6: for draws within range, [shuffle] returns, the identifiers of
    [getAllTracks] afterwards are a permutation of those before (indeed
    the tracks are), [size] is unchanged, and a list of at most one track
    is left exactly as it was. *)
Theorem shuffle_permutation rnd s tracks :
  reachable s → (∀ i, rnd i ≤ i) → allTracks s = Some tracks →
  ∃ s' tracks',
    L.shuffle rnd s = Some s' ∧ allTracks s' = Some tracks' ∧
    tracks' ≡ₚ tracks ∧
    Track._id <$> tracks' ≡ₚ Track._id <$> tracks ∧
    L.getSize s' = L.getSize s ∧
    ((L.size s ≤ 1)%Z → s' = s).
Proof.
  intros [l HI]%reachable_Inv Hrnd Ht.
  pose proof (allTracks_Inv_eq s l tracks HI Ht) as Hd.
  destruct (decide (L.size s ≤ 1)%Z) as [Hsz|Hsz].
  - exists s, tracks. rewrite shuffle_small by done. by split_and!.
  - destruct (shuffle_Inv rnd s l HI Hrnd) as (s' & l' & σ & E & HI' & _ & Hσ & Hd' & _);
      [lia|].
    destruct (allTracks_Inv s' l' HI') as (tracks' & Et' & Hdt').
    assert (tracks' ≡ₚ tracks) as Hperm.
    { apply Some_fmap_Permutation. by rewrite <- Hdt', Hd', <- Hd, Hσ. }
    exists s', tracks'. split_and!; try done.
    + by rewrite Hperm.
    + destruct HI as [_ _ Hs _ _]. destruct HI' as [_ _ Hs' _ _].
      unfold L.getSize. rewrite Hs, Hs'. f_equal.
      apply (f_equal length) in Hd, Hdt'. rewrite !length_fmap in Hd, Hdt'.
      apply Permutation_length in Hperm. lia.
Qed.

Lemma shuffle_permutation_witness :
  reachable playlistABC ∧ (∀ i : nat, (λ _ : nat, 0) i ≤ i) ∧
  allTracks playlistABC = Some [trackA; trackB; trackC] ∧
  ∃ s' tracks',
    L.shuffle (λ _, 0) playlistABC = Some s' ∧ allTracks s' = Some tracks' ∧
    tracks' ≡ₚ [trackA; trackB; trackC] ∧
    Track._id <$> tracks' ≡ₚ Track._id <$> [trackA; trackB; trackC] ∧
    L.getSize s' = L.getSize playlistABC ∧
    ((L.size playlistABC ≤ 1)%Z → s' = playlistABC).
Proof.
  assert (∀ i : nat, (λ _ : nat, 0) i ≤ i) as Hrnd by (intros i; simpl; lia).
  assert (allTracks playlistABC = Some [trackA; trackB; trackC]) as Ht
    by reflexivity.
  split; [exact reachable_playlistABC|]. split; [exact Hrnd|]. split; [exact Ht|].
  exact (shuffle_permutation _ playlistABC _ reachable_playlistABC Hrnd Ht).
Defined.

(** What [restoreOrder] rebuilds after a [shuffle] of an unshuffled list:
    [shuffle] re-inserts through [addTrack] while the flag is still
    false, so the snapshot it leaves behind is the shuffled order. *)
Lemma shuffle_restore rnd s :
  reachable s → (∀ i, rnd i ≤ i) →
  L.isShuffled s = false → (1 < L.size s)%Z →
  ∃ s1 s2 shuffled,
    L.shuffle rnd s = Some s1 ∧ allTracks s1 = Some shuffled ∧
    L.restoreOrder s1 = Some s2 ∧ allTracks s2 = Some shuffled ∧
    L.isShuffled s2 = false.
Proof.
  intros [l HI]%reachable_Inv Hrnd Hb Hsz.
  destruct (shuffle_Inv rnd s l HI Hrnd Hsz)
    as (s1 & l1 & σ & E1 & HI1 & _ & Hσ & Hd1 & Hb1 & Ho1).
  rewrite Hb in Ho1.
  destruct (allTracks_Inv s1 l1 HI1) as (shuffled & Et1 & Hdt1).
  assert (L.originalOrder s1 ≠ []) as Hne.
  { rewrite Ho1. intros ->. simpl in Hd1. symmetry in Hd1.
    apply fmap_nil_inv in Hd1. subst σ. apply Permutation_nil_l in Hσ. subst l.
    destruct HI as [_ _ Hs _ _]. simpl in Hs. lia. }
  destruct (restoreOrder_Inv s1 l1 HI1 Hb1 Hne) as (s2 & l2 & E2 & HI2 & Hd2 & Hb2 & _).
  destruct (allTracks_Inv s2 l2 HI2) as (tracks2 & Et2 & Hdt2).
  rewrite Ho1, Hdt1 in Hd2. rewrite Hd2 in Hdt2. apply Some_fmap_inj in Hdt2 as <-.
  by exists s1, s2, shuffled.
Qed.

(** C1, evaluated on the list of [trackA] and [trackB] when the draw at
    index 1 is 0: [shuffle] swaps the two tracks, and [restoreOrder]
    afterwards clears the flag but leaves them swapped. *)
Theorem restore_after_shuffle_AB :
  L.isShuffled playlistAB = false ∧ L.size playlistAB = 2%Z ∧
  allTracks playlistAB = Some [trackA; trackB] ∧
  ∃ s1 s2,
    L.shuffle (λ _, 0) playlistAB = Some s1 ∧
    allTracks s1 = Some [trackB; trackA] ∧
    L.restoreOrder s1 = Some s2 ∧
    allTracks s2 = Some [trackB; trackA] ∧
    L.isShuffled s2 = false.
Proof.
  split_and!; [done..|].
  eexists _, _. split; [vm_compute; reflexivity|].
  split; [vm_compute; reflexivity|].
  split; [vm_compute; reflexivity|]. split; vm_compute; reflexivity.
Qed.

(** ** Durations *)

Lemma roundFloat64_safe z :
  (Z.abs z ≤ MAX_SAFE_INTEGER)%Z → roundFloat64 z = z.
Proof.
  unfold MAX_SAFE_INTEGER, roundFloat64. intros Hz.
  assert (Z.log2 (Z.abs z) < 53)%Z as Hlog.
  { destruct (decide (Z.abs z = 0)%Z) as [->|Hne]; [done|].
    apply Z.log2_lt_pow2; lia. }
  by rewrite (proj2 (Z.leb_le _ _)) by lia.
Qed.

Lemma numberAdd_safe a b :
  (0 ≤ a)%Z → (0 ≤ b)%Z → (a + b ≤ MAX_SAFE_INTEGER)%Z →
  numberAdd a b = (a + b)%Z.
Proof. intros Ha Hb Hab. apply roundFloat64_safe. lia. Qed.

Lemma sumZ_nonneg (tracks : list Track.t) :
  Forall (λ t, (0 ≤ Track.duration t)%Z) tracks →
  (0 ≤ sumZ (Track.duration <$> tracks))%Z.
Proof.
  unfold sumZ. induction 1 as [|t tracks Ht _ IH]; simpl; [done|].
  change (list_fmap _ _ Track.duration tracks) with (Track.duration <$> tracks).
  lia.
Qed.

Lemma reduceDuration_sum h l tracks acc :
  dataOf h <$> l = Some <$> tracks →
  Forall (λ t, (0 ≤ Track.duration t)%Z) tracks → (0 ≤ acc)%Z →
  (acc + sumZ (Track.duration <$> tracks) ≤ MAX_SAFE_INTEGER)%Z →
  L.reduceDuration h l acc = Some (acc + sumZ (Track.duration <$> tracks))%Z.
Proof.
  revert tracks acc. induction l as [|p l IH]; intros [|t tracks] acc;
    rewrite ?fmap_nil, ?fmap_cons; try done.
  - intros _ _ _ _. simpl. f_equal. unfold sumZ. simpl. lia.
  - intros [= Hp Hl] [Ht Hts]%Forall_cons Hacc.
    pose proof (sumZ_nonneg tracks Hts) as Hrest.
    assert (sumZ (Track.duration t :: (Track.duration <$> tracks))
            = (Track.duration t + sumZ (Track.duration <$> tracks))%Z) as ->
      by done.
    intros Hsum.
    change (L.reduceDuration h (p :: l) acc)
      with (n ← h !! p;
            L.reduceDuration h l (numberAdd acc (TrackNode.duration n))).
    unfold dataOf in Hp. destruct (h !! p) as [n|]; [|done].
    injection Hp as <-.
    change (Some n ≫= λ n0, L.reduceDuration h l
                               (numberAdd acc (TrackNode.duration n0)))
      with (L.reduceDuration h l
              (numberAdd acc (Track.duration (TrackNode.fields n)))).
    change (Track.duration (TrackNode.fields n))
      with (TrackNode.duration n) in *.
    rewrite numberAdd_safe by lia.
    rewrite (IH tracks) by (done || lia). f_equal. lia.
Qed.

Lemma getTotalDuration_Inv s l tracks :
  Inv s l → allTracks s = Some tracks →
  Forall (λ t, (0 ≤ Track.duration t)%Z) tracks →
  (sumZ (Track.duration <$> tracks) ≤ MAX_SAFE_INTEGER)%Z →
  L.getTotalDuration s = Some (sumZ (Track.duration <$> tracks)).
Proof.
  intros HI Ht Hpos Hsum. pose proof (allTracks_Inv_eq s l tracks HI Ht) as Hd.
  unfold L.getTotalDuration. rewrite (getAllTracks_Inv _ _ HI). simpl.
  by rewrite (reduceDuration_sum _ _ tracks) by (done || lia).
Qed.

Lemma padStart0_two m :
  (0 ≤ m < 60)%Z → padStart0 2 (toString m) = twoDigits m.
Proof.
  intros Hm.
  assert (Forall (λ k, padStart0 2 (toString (Z.of_nat k))
                       = twoDigits (Z.of_nat k)) (seq 0 60)) as H
    by compute_done.
  rewrite Forall_forall in H. specialize (H (Z.to_nat m)).
  rewrite Z2Nat.id in H by lia. apply H. apply elem_of_seq. lia.
Qed.

Lemma formatTotal_hours total :
  (3600 ≤ total)%Z →
  L.formatTotal total
  = toString (total / 3600) +:+ ":" +:+ twoDigits (total `mod` 3600 / 60)
      +:+ ":" +:+ twoDigits (total `mod` 60).
Proof.
  intros Ht. unfold L.formatTotal.
  rewrite !Z.rem_mod_nonneg by lia.
  rewrite bool_decide_true by (apply Z.lt_gt, Z.div_str_pos; lia).
  rewrite !padStart0_two; [done| |].
  - apply Z.mod_pos_bound. lia.
  - pose proof (Z.mod_pos_bound total 3600). split.
    + apply Z.div_pos; lia.
    + apply Z.div_lt_upper_bound; lia.
Qed.

Lemma formatTotal_minutes total :
  (0 ≤ total < 3600)%Z →
  L.formatTotal total
  = toString (total / 60) +:+ ":" +:+ twoDigits (total `mod` 60).
Proof.
  intros Ht. unfold L.formatTotal.
  rewrite !Z.rem_mod_nonneg by lia.
  rewrite bool_decide_false by (rewrite Z.div_small by lia; lia).
  rewrite Z.mod_small by lia.
  rewrite padStart0_two; [done|]. apply Z.mod_pos_bound. lia.
Qed.

Lemma allDigits_pretty_N_go x s :
  allDigits s = true → allDigits (pretty_N_go x s) = true.
Proof.
  revert s. induction (N.lt_wf_0 x) as [x _ IH]. intros s Hs.
  destruct (decide (x = 0)%N) as [->|Hx]; [by rewrite pretty_N_go_0|].
  rewrite pretty_N_go_step by lia. apply IH; [apply N.div_lt; lia|].
  change (isDigit (pretty_N_char (x `mod` 10)) && allDigits s = true).
  rewrite Hs, andb_true_r. unfold pretty_N_char. by repeat case_match.
Qed.

Lemma length_pretty_N_go x s :
  String.length s ≤ String.length (pretty_N_go x s).
Proof.
  revert s. induction (N.lt_wf_0 x) as [x _ IH]. intros s.
  destruct (decide (x = 0)%N) as [->|Hx]; [by rewrite pretty_N_go_0|].
  rewrite pretty_N_go_step by lia.
  etrans; [|apply IH, N.div_lt; lia]. simpl. lia.
Qed.

Lemma numberField_toString z : (0 ≤ z)%Z → numberField (toString z) = true.
Proof.
  intros Hz. destruct z as [|x|x]; [done| |lia].
  unfold toString, pretty, pretty_Z, pretty, pretty_positive, pretty, pretty_N.
  rewrite decide_False by done. rewrite pretty_N_go_step by lia.
  unfold numberField. rewrite allDigits_pretty_N_go.
  - rewrite andb_true_r. apply negb_true_iff, Nat.eqb_neq.
    pose proof (length_pretty_N_go (N.pos x `div` 10)
                  (String (pretty_N_char (N.pos x `mod` 10)) "")) as Hlen.
    simpl in Hlen. lia.
  - change (isDigit (pretty_N_char (N.pos x `mod` 10)) && true = true).
    rewrite andb_true_r. unfold pretty_N_char. by repeat case_match.
Qed.

Lemma twoDigitField_twoDigits m :
  (0 ≤ m < 60)%Z → twoDigitField (twoDigits m) = true.
Proof.
  intros Hm.
  assert (Forall (λ k, twoDigitField (twoDigits (Z.of_nat k)) = true)
                 (seq 0 60)) as H by compute_done.
  rewrite Forall_forall in H. specialize (H (Z.to_nat m)).
  rewrite Z2Nat.id in H by lia. apply H. apply elem_of_seq. lia.
Qed.

Lemma isDigit_not_colon c : isDigit c = true → Ascii.eqb c ":" = false.
Proof.
  intros Hc. apply Ascii.eqb_neq. intros ->. by vm_compute in Hc.
Qed.

Lemma fieldsAtColon_digits s : allDigits s = true → fieldsAtColon s = [s].
Proof.
  induction s as [|c s IH]; [done|]. intros [Hc Hs]%andb_true_iff.
  change (fieldsAtColon (String c s))
    with (if Ascii.eqb c ":" then EmptyString :: fieldsAtColon s
          else match fieldsAtColon s with
               | f :: fs => String c f :: fs
               | [] => [String c EmptyString]
               end).
  by rewrite (isDigit_not_colon c Hc), (IH Hs).
Qed.

Lemma fieldsAtColon_app a rest :
  allDigits a = true →
  fieldsAtColon (a +:+ ":" +:+ rest) = a :: fieldsAtColon rest.
Proof.
  induction a as [|c a IH]; [done|]. intros [Hc Ha]%andb_true_iff.
  change (fieldsAtColon (String c a +:+ ":" +:+ rest))
    with (if Ascii.eqb c ":"
          then EmptyString :: fieldsAtColon (a +:+ ":" +:+ rest)
          else match fieldsAtColon (a +:+ ":" +:+ rest) with
               | f :: fs => String c f :: fs
               | [] => [String c EmptyString]
               end).
  by rewrite (isDigit_not_colon c Hc), (IH Ha).
Qed.

Lemma isMSS_intro m ss :
  numberField m = true → twoDigitField ss = true →
  isMSS (m +:+ ":" +:+ ss) = true.
Proof.
  intros Hm Hs. unfold isMSS.
  pose proof Hm as [_ Hm']%andb_true_iff.
  pose proof Hs as [_ Hs']%andb_true_iff.
  by rewrite (fieldsAtColon_app _ _ Hm'), (fieldsAtColon_digits _ Hs'), Hm, Hs.
Qed.

Lemma isHMMSS_intro h mm ss :
  numberField h = true → twoDigitField mm = true → twoDigitField ss = true →
  isHMMSS (h +:+ ":" +:+ mm +:+ ":" +:+ ss) = true.
Proof.
  intros Hh Hm Hs. unfold isHMMSS.
  pose proof Hh as [_ Hh']%andb_true_iff.
  pose proof Hm as [_ Hm']%andb_true_iff.
  pose proof Hs as [_ Hs']%andb_true_iff.
  by rewrite (fieldsAtColon_app _ _ Hh'), (fieldsAtColon_app _ _ Hm'),
    (fieldsAtColon_digits _ Hs'), Hh, Hm, Hs.
Qed.

Lemma reachable_playlistLong : reachable playlistLong.
Proof.
  apply (reachable_addTracks [trackLong; trackSecond] L.empty);
    [apply reach_new|reflexivity].
Qed.

Lemma reachable_playlistNegative : reachable playlistNegative.
Proof.
  apply (reachable_addTracks [trackNegative] L.empty);
    [apply reach_new|reflexivity].
Qed.

(** C9, as the code has it.  When no duration is negative and the sum of
    the durations is at most [Number.MAX_SAFE_INTEGER], [getTotalDuration]
    is that sum, and [getFormattedTotalDuration] renders it as hours,
    two-digit minutes and two-digit seconds ("H:MM:SS") from one hour on
    and as minutes and two-digit seconds ("M:SS") below.  With two tracks
    of 233 and 200 seconds the total is 433 and is rendered as 7:13. *)
Theorem total_duration s tracks :
  reachable s → allTracks s = Some tracks →
  let total := sumZ (Track.duration <$> tracks) in
  (Forall (λ t, (0 ≤ Track.duration t)%Z) tracks →
   (total ≤ MAX_SAFE_INTEGER)%Z →
   L.getTotalDuration s = Some total ∧
   ∃ text, L.getFormattedTotalDuration s = Some text ∧
     text = (if bool_decide (3600 ≤ total)%Z
             then toString (total / 3600) +:+ ":"
                    +:+ twoDigits (total `mod` 3600 / 60) +:+ ":"
                    +:+ twoDigits (total `mod` 60)
             else toString (total / 60) +:+ ":"
                    +:+ twoDigits (total `mod` 60)) ∧
     (if bool_decide (3600 ≤ total)%Z then isHMMSS text else isMSS text)
     = true) ∧
  (Track.duration <$> tracks = [233; 200]%Z →
   L.getTotalDuration s = Some 433%Z ∧
   L.getFormattedTotalDuration s = Some "7:13").
Proof.
  intros [l HI]%reachable_Inv Ht total.
  assert (Forall (λ t, (0 ≤ Track.duration t)%Z) tracks →
          (total ≤ MAX_SAFE_INTEGER)%Z →
          L.getTotalDuration s = Some total) as Hsum
    by (intros; by apply (getTotalDuration_Inv s l)).
  split.
  - intros Hpos Hmax. pose proof (sumZ_nonneg tracks Hpos) as H0.
    fold total in H0. rewrite (Hsum Hpos Hmax). split; [done|].
    exists (L.formatTotal total).
    split; [unfold L.getFormattedTotalDuration; by rewrite (Hsum Hpos Hmax)|].
    pose proof (Z.mod_pos_bound total 60 ltac:(lia)) as Hsec.
    case_bool_decide as Hh.
    + rewrite formatTotal_hours by done. split; [done|].
      apply isHMMSS_intro.
      * apply numberField_toString, Z.div_pos; lia.
      * apply twoDigitField_twoDigits.
        pose proof (Z.mod_pos_bound total 3600 ltac:(lia)). split.
        -- apply Z.div_pos; lia.
        -- apply Z.div_lt_upper_bound; lia.
      * by apply twoDigitField_twoDigits.
    + rewrite formatTotal_minutes by lia. split; [done|].
      apply isMSS_intro.
      * apply numberField_toString, Z.div_pos; lia.
      * by apply twoDigitField_twoDigits.
  - intros Hd.
    assert (total = 433%Z) as Etot by (subst total; by rewrite Hd).
    assert (Forall (λ t, (0 ≤ Track.duration t)%Z) tracks) as Hpos.
    { destruct tracks as [|t1 [|t2 [|t3 tracks]]]; try done.
      injection Hd as H1 H2. repeat constructor; lia. }
    rewrite Etot in Hsum. unfold L.getFormattedTotalDuration.
    by rewrite (Hsum Hpos ltac:(by vm_compute)).
Qed.

Lemma total_duration_witness :
  reachable playlistAB ∧ allTracks playlistAB = Some [trackA; trackB] ∧
  Forall (λ t, (0 ≤ Track.duration t)%Z) [trackA; trackB] ∧
  (sumZ (Track.duration <$> [trackA; trackB]) ≤ MAX_SAFE_INTEGER)%Z ∧
  Track.duration <$> [trackA; trackB] = [233; 200]%Z ∧
  L.getTotalDuration playlistAB
  = Some (sumZ (Track.duration <$> [trackA; trackB])) ∧
  (∃ text, L.getFormattedTotalDuration playlistAB = Some text ∧
           isMSS text = true) ∧
  L.getTotalDuration playlistAB = Some 433%Z ∧
  L.getFormattedTotalDuration playlistAB = Some "7:13".
Proof.
  assert (allTracks playlistAB = Some [trackA; trackB]) as Ht by reflexivity.
  assert (Forall (λ t, (0 ≤ Track.duration t)%Z) [trackA; trackB]) as Hpos
    by (repeat constructor; by vm_compute).
  assert (sumZ (Track.duration <$> [trackA; trackB]) ≤ MAX_SAFE_INTEGER)%Z
    as Hmax by (by vm_compute).
  assert (Track.duration <$> [trackA; trackB] = [233; 200]%Z) as Hd
    by reflexivity.
  split; [exact reachable_playlistAB|]. split; [exact Ht|].
  split; [exact Hpos|]. split; [exact Hmax|]. split; [exact Hd|].
  destruct (total_duration playlistAB _ reachable_playlistAB Ht)
    as [Hsafe Hex].
  destruct (Hsafe Hpos Hmax) as (Etot & text & Etext & _ & Hshape).
  split; [exact Etot|]. split; [by exists text|]. exact (Hex Hd).
Defined.

(** C9 as the claim words it fails in two ways.  Durations are added as
    float64 numbers: with tracks of 2^53 seconds and of one second the
    total is 2^53, one short of the sum.  And a negative total is
    rendered with its minus signs and without padding: a single track of
    -1 second gives -1:-1, which is neither "M:SS" nor "H:MM:SS". *)
Lemma total_outside_safe_range :
  (reachable playlistLong ∧
   allTracks playlistLong = Some [trackLong; trackSecond] ∧
   Track.duration <$> [trackLong; trackSecond] = [2 ^ 53; 1]%Z ∧
   L.getTotalDuration playlistLong = Some (2 ^ 53)%Z ∧
   sumZ (Track.duration <$> [trackLong; trackSecond]) = (2 ^ 53 + 1)%Z) ∧
  (reachable playlistNegative ∧
   allTracks playlistNegative = Some [trackNegative] ∧
   Track.duration <$> [trackNegative] = [-1]%Z ∧
   L.getTotalDuration playlistNegative = Some (-1)%Z ∧
   L.getFormattedTotalDuration playlistNegative = Some "-1:-1" ∧
   isMSS "-1:-1" = false ∧ isHMMSS "-1:-1" = false).
Proof.
  split.
  - split; [exact reachable_playlistLong|]. by split_and!; vm_compute.
  - split; [exact reachable_playlistNegative|]. by split_and!; vm_compute.
Qed.

(** ** Removal *)

(** C3, as the code has it: [removeTrack] succeeds exactly when some ring
    node carries the identifier.  On failure the state is unchanged.  On
    success the first such node in ring order leaves [getAllTracks],
    nothing else moves, and [size] drops by one; the identifier is gone
    from the list when no later node carries it as well.  Removing the
    only node empties the list; otherwise [head] and [current] move to
    the removed node's successor when they pointed at it and stay
    otherwise. *)
Theorem remove_by_id s l trackId :
  reachable s → L.getAllTracks s = Some l →
  let h := L.mem s in
  ∃ b s',
    L.removeTrack trackId s = Some (b, s') ∧
    (b = true ↔ ∃ p, p ∈ l ∧ idOf h p = Some trackId) ∧
    (b = false → s' = s) ∧
    (b = true →
     ∃ l1 x l2 nx,
       l = l1 ++ x :: l2 ∧
       idOf h x = Some trackId ∧
       (∀ p, p ∈ l1 → idOf h p ≠ Some trackId) ∧
       nextOf h x = Some nx ∧
       L.getAllTracks s' = Some (l1 ++ l2) ∧
       (∀ q, dataOf (L.mem s') q = dataOf h q) ∧
       L.size s' = (L.size s - 1)%Z ∧
       ((∀ p, p ∈ l2 → idOf h p ≠ Some trackId) →
        ∀ p, p ∈ l1 ++ l2 → idOf (L.mem s') p ≠ Some trackId) ∧
       (l = [x] →
        L.head s' = None ∧ L.current s' = None ∧ L.size s' = 0%Z) ∧
       (l ≠ [x] →
        L.head s'
        = (if decide (L.head s = Some x) then Some nx else L.head s) ∧
        L.current s'
        = (if decide (L.current s = Some x) then Some nx else L.current s))).
Proof.
  intros Hs Hl h. pose proof (reachable_getAllTracks s l Hs Hl) as HI.
  subst h. destruct (firstWithId (L.mem s) trackId l) as [x|] eqn:Ef.
  - destruct (removeTrack_hit trackId s l x HI Ef)
      as (l1 & l2 & nx & s' & El & Hl1 & Hx & Hnx & E & HI' & Hd & Hone & Hmany).
    exists true, s'. split; [done|]. split; [|split; [done|]].
    { split; [|done]. intros _. exists x. split; [|done]. rewrite El. set_solver. }
    intros _. exists l1, x, l2, nx. split_and!; try done.
    + by apply getAllTracks_Inv.
    + destruct HI as [_ _ Hsz _ _]. destruct HI' as [_ _ Hsz' _ _].
      rewrite Hsz, Hsz', El, !length_app. simpl. lia.
    + intros Hl2 p Hp. rewrite (dataOf_idOf (L.mem s) (L.mem s') p p) by apply Hd.
      apply elem_of_app in Hp as [Hp|Hp]; auto.
    + intros ->%Hone. done.
  - exists false, s. rewrite (removeTrack_miss trackId s l HI Ef).
    split; [done|]. split; [|done].
    split; [done|]. intros (p & Hp & Hid).
    pose proof (proj1 (firstWithId_None _ _ _) Ef) as Hno.
    by destruct (Hno p Hp).
Qed.

Lemma remove_by_id_witness :
  reachable playlistABC ∧ L.getAllTracks playlistABC = Some [0; 1; 2] ∧
  ∃ b s',
    L.removeTrack "1" playlistABC = Some (b, s') ∧
    (b = true ↔ ∃ p, p ∈ [0; 1; 2] ∧ idOf (L.mem playlistABC) p = Some "1") ∧
    (b = true → L.getAllTracks s' = Some [1; 2] ∧ L.head s' = Some 1
                ∧ L.current s' = Some 1 ∧ L.size s' = 2%Z).
Proof.
  assert (L.getAllTracks playlistABC = Some [0; 1; 2]) as Hl by reflexivity.
  split; [exact reachable_playlistABC|]. split; [exact Hl|].
  destruct (remove_by_id playlistABC [0; 1; 2] "1" reachable_playlistABC Hl)
    as (b & s' & E & Hb & _ & _).
  exists b, s'. split; [exact E|]. split; [exact Hb|].
  intros ->. vm_compute in E. injection E as <-. vm_compute. done.
Defined.

(** C3 as the claim words it fails on a list that holds an identifier
    twice: removing "1" from the list of [trackA] and [trackA'] succeeds,
    and "1" is still the identifier of the track that remains. *)
Lemma remove_leaves_duplicate :
  reachable playlistAA ∧
  allTracks playlistAA = Some [trackA; trackA'] ∧
  ∃ s', L.removeTrack "1" playlistAA = Some (true, s') ∧
        allTracks s' = Some [trackA'] ∧
        "1" ∈ Track._id <$> [trackA'].
Proof.
  split; [exact reachable_playlistAA|]. split; [done|].
  eexists. split; [vm_compute; reflexivity|]. split; [vm_compute; reflexivity|].
  vm_compute. by left.
Qed.

(** * Further properties *)

(** ** What each method does to the flag and the snapshot *)

Section frames.
Implicit Types (s : L.state).

Lemma updateOriginalOrder_fields s s' :
  L.updateOriginalOrder s = Some s' →
  L.mem s' = L.mem s ∧ L.head s' = L.head s ∧ L.current s' = L.current s ∧
  L.size s' = L.size s ∧ L.isShuffled s' = L.isShuffled s ∧
  (L.isShuffled s = true → L.originalOrder s' = L.originalOrder s).
Proof.
  unfold L.updateOriginalOrder. destruct (L.isShuffled s) eqn:E.
  - by intros [= <-].
  - destruct (L.getAllTracks s); simpl; [|done]. intros [= <-]. by simpl.
Qed.

Lemma addTrack_fields t s s' :
  L.addTrack t s = Some s' →
  L.size s' = (L.size s + 1)%Z ∧ L.isShuffled s' = L.isShuffled s ∧
  L.head s' = Some (default (length (L.mem s)) (L.head s)) ∧
  L.current s'
  = (if L.head s is Some _ then L.current s else Some (length (L.mem s))) ∧
  (L.isShuffled s = true → L.originalOrder s' = L.originalOrder s).
Proof.
  unfold L.addTrack. intros ([[h hd] cur] & E & H)%bind_Some.
  apply updateOriginalOrder_fields in H as (_ & Hh & Hc & Hs & Hb & Ho).
  simpl in *. rewrite Hh, Hc, Hs, Hb. split; [done|]. split; [done|].
  destruct (L.head s) as [hd0|]; simpl.
  - apply bind_Some in E as (hn & _ & E).
    apply bind_Some in E as (h1 & _ & E). apply bind_Some in E as (h2 & _ & E).
    apply bind_Some in E as (tl & _ & E). apply bind_Some in E as (h3 & _ & E).
    apply bind_Some in E as (h4 & _ & E). by injection E as <- <- <-.
  - apply bind_Some in E as (h1 & _ & E). apply bind_Some in E as (h2 & _ & E).
    by injection E as <- <- <-.
Qed.

Lemma addTracks_fields tracks s s' :
  addTracks tracks s = Some s' →
  L.isShuffled s' = L.isShuffled s ∧
  (L.isShuffled s = true → L.originalOrder s' = L.originalOrder s).
Proof.
  revert s. induction tracks as [|t tracks IH]; intros s; simpl.
  - by intros [= <-].
  - intros (s1 & E1 & E)%bind_Some.
    apply addTrack_fields in E1 as (_ & Hb & _ & _ & Ho).
    apply IH in E as [Hb' Ho']. rewrite Hb', Hb. split; [done|].
    intros Ht. rewrite Ho' by congruence. by apply Ho.
Qed.

Lemma addEach_fields ts s s' :
  L.addEach ts s = Some s' →
  L.isShuffled s' = L.isShuffled s ∧
  (L.isShuffled s = true → L.originalOrder s' = L.originalOrder s).
Proof.
  revert s. induction ts as [|p ts IH]; intros s; simpl.
  - by intros [= <-].
  - intros (n & _ & E)%bind_Some. apply bind_Some in E as (s1 & E1 & E).
    apply addTrack_fields in E1 as (_ & Hb & _ & _ & Ho).
    apply IH in E as [Hb' Ho']. rewrite Hb', Hb. split; [done|].
    intros Ht. rewrite Ho' by congruence. by apply Ho.
Qed.

Lemma setCurrentTrack_fields trackId s r s' :
  L.setCurrentTrack trackId s = Some (r, s') →
  L.mem s' = L.mem s ∧ L.head s' = L.head s ∧ L.size s' = L.size s ∧
  L.isShuffled s' = L.isShuffled s ∧ L.originalOrder s' = L.originalOrder s.
Proof.
  unfold L.setCurrentTrack. destruct (L.head s) eqn:Eh; [|by intros [= <- <-]].
  intros ([q|] & _ & E)%bind_Some; by injection E as <- <-.
Qed.

Lemma reselect_fields c s s' :
  L.reselect c s = Some s' →
  L.mem s' = L.mem s ∧ L.head s' = L.head s ∧ L.size s' = L.size s ∧
  L.isShuffled s' = L.isShuffled s ∧ L.originalOrder s' = L.originalOrder s.
Proof.
  destruct c as [p|]; simpl; [|by intros [= <-]].
  intros (n & _ & E)%bind_Some. apply fmap_Some in E as ([r s1] & E & ->).
  by eapply setCurrentTrack_fields.
Qed.

Lemma removeTrack_fields trackId s b s' :
  L.removeTrack trackId s = Some (b, s') →
  L.isShuffled s' = L.isShuffled s ∧
  (L.isShuffled s = true → L.originalOrder s' = L.originalOrder s).
Proof.
  unfold L.removeTrack. destruct (L.head s); [|by intros [= <- <-]].
  case_bool_decide; [by intros [= <- <-]|].
  intros ([x|] & _ & E)%bind_Some; [|by injection E as <- <-].
  case_bool_decide; [by injection E as <- <-|].
  apply bind_Some in E as (nd & _ & E). apply bind_Some in E as (pv & _ & E).
  apply bind_Some in E as (nx & _ & E). apply bind_Some in E as (h1 & _ & E).
  apply bind_Some in E as (h2 & _ & E). apply bind_Some in E as (s1 & E1 & E).
  injection E as <- <-.
  by apply updateOriginalOrder_fields in E1 as (_ & _ & _ & _ & Hb & Ho).
Qed.

Lemma shuffle_fields rnd s s' :
  L.shuffle rnd s = Some s' →
  s' = s ∨ (L.isShuffled s' = true ∧ (1 < L.size s)%Z ∧
            (L.isShuffled s = true → L.originalOrder s' = L.originalOrder s)).
Proof.
  unfold L.shuffle. case_bool_decide; [intros [= <-]; by left|].
  intros (l & _ & E)%bind_Some. apply bind_Some in E as (σ & _ & E).
  apply bind_Some in E as (s1 & E1 & E). apply bind_Some in E as (s2 & E2 & E).
  injection E as <-. right. split; [done|]. split; [lia|]. simpl.
  apply addEach_fields in E1 as [Hb1 Ho1].
  apply reselect_fields in E2 as (_ & _ & _ & _ & Ho2).
  intros Ht. rewrite Ho2. by apply Ho1.
Qed.

Lemma restoreOrder_fields s s' :
  L.restoreOrder s = Some s' →
  (s' = s ∧ (L.isShuffled s = false ∨ L.originalOrder s = [])) ∨
  (L.isShuffled s' = false ∧ L.originalOrder s' = L.originalOrder s).
Proof.
  unfold L.restoreOrder. destruct (L.isShuffled s) eqn:Eb; simpl.
  - case_bool_decide as Hn.
    + intros [= <-]. left. split; [done|]. right.
      by destruct (L.originalOrder s).
    + intros (s1 & E1 & E)%bind_Some. apply bind_Some in E as (s2 & E2 & E).
      injection E as <-. right. split; [done|]. simpl.
      apply addEach_fields in E1 as [_ Ho1].
      apply reselect_fields in E2 as (_ & _ & _ & _ & Ho2).
      rewrite Ho2. by apply Ho1.
  - intros [= <-]. left. auto.
Qed.

(** Apart from [shuffle] and [restoreOrder] no method touches the flag. *)
Lemma run_flag c s s' :
  run c s = Some s' → (∀ rnd, c ≠ Shuffle rnd) → c ≠ RestoreOrder →
  L.isShuffled s' = L.isShuffled s.
Proof.
  destruct c as [t| | |trackId|rnd| | |trackId]; simpl; intros E Hs Hr;
    try done.
  - by apply addTrack_fields in E as (_ & ? & _).
  - apply fmap_Some in E as ([r s1] & E & ->). unfold L.nextTrack in E.
    destruct (L.current s); [|by injection E as <- <-].
    apply bind_Some in E as (nd & _ & E). by injection E as <- <-.
  - apply fmap_Some in E as ([r s1] & E & ->). unfold L.prevTrack in E.
    destruct (L.current s); [|by injection E as <- <-].
    apply bind_Some in E as (nd & _ & E). by injection E as <- <-.
  - apply fmap_Some in E as ([r s1] & E & ->).
    by apply setCurrentTrack_fields in E as (_ & _ & _ & ? & _).
  - by destruct (Hs rnd).
  - by injection E as <-.
  - apply fmap_Some in E as ([r s1] & E & ->).
    by apply removeTrack_fields in E as [? _].
Qed.

(** While the flag is set, only [restoreOrder] clears it, and no method
    replaces the snapshot. *)
Lemma run_snapshot c s s' :
  run c s = Some s' → c ≠ RestoreOrder → L.isShuffled s = true →
  L.isShuffled s' = true ∧ L.originalOrder s' = L.originalOrder s.
Proof.
  destruct c as [t| | |trackId|rnd| | |trackId]; simpl; intros E Hr Hb;
    try done.
  - apply addTrack_fields in E as (_ & ? & _ & _ & Ho). split; [congruence|auto].
  - apply fmap_Some in E as ([r s1] & E & ->). unfold L.nextTrack in E.
    destruct (L.current s); [|by injection E as <- <-].
    apply bind_Some in E as (nd & _ & E). by injection E as <- <-.
  - apply fmap_Some in E as ([r s1] & E & ->). unfold L.prevTrack in E.
    destruct (L.current s); [|by injection E as <- <-].
    apply bind_Some in E as (nd & _ & E). by injection E as <- <-.
  - apply fmap_Some in E as ([r s1] & E & ->).
    apply setCurrentTrack_fields in E as (_ & _ & _ & ? & ?).
    simpl. split; congruence.
  - apply shuffle_fields in E as [->|(? & _ & Ho)]; auto.
  - by injection E as <-.
  - apply fmap_Some in E as ([r s1] & E & ->).
    apply removeTrack_fields in E as [? Ho]. simpl. split; [congruence|auto].
Qed.

Lemma restore_or_not c : c = RestoreOrder ∨ c ≠ RestoreOrder.
Proof. destruct c; (by left) || (by right). Qed.

(** A set flag comes with a snapshot that is not empty. *)
Lemma reachable_flag s :
  reachable s → L.isShuffled s = true → L.originalOrder s ≠ [].
Proof.
  induction 1 as [|c s s' Hs IH Hfair E]; [done|].
  intros Hb'. destruct (L.isShuffled s) eqn:Hb.
  - destruct (restore_or_not c) as [->|Hc].
    + apply restoreOrder_fields in E as [[-> _]|[? _]]; [auto|congruence].
    + destruct (run_snapshot c s s' E Hc Hb) as [_ ->]. auto.
  - destruct c as [t| | |trackId|rnd| | |trackId];
      try (rewrite (run_flag _ s s' E) in Hb' by done; congruence).
    + destruct (reachable_Inv s Hs) as [l HI]. simpl in E, Hfair.
      destruct (decide (L.size s ≤ 1)%Z) as [Hsz|Hsz].
      { rewrite shuffle_small in E by done. injection E as <-. congruence. }
      destruct (shuffle_Inv rnd s l HI Hfair)
        as (s'' & l' & σ & E' & HI' & _ & Hσ & Hd & _ & Ho); [lia|].
      rewrite E in E'. injection E' as <-. rewrite Hb in Ho. rewrite Ho.
      intros ->. simpl in Hd. symmetry in Hd. apply fmap_nil_inv in Hd.
      subst σ. apply Permutation_nil_l in Hσ. subst l.
      destruct HI as [_ _ Hs' _ _]. simpl in Hs'. lia.
    + simpl in E. apply restoreOrder_fields in E as [[-> _]|[? _]]; congruence.
Qed.

End frames.

(** ** The rebuild in full *)

Section rebuild.
Implicit Types (h : heap) (l : list loc) (s : L.state).

Lemma snoc_ne {A} (l : list A) x : l ++ [x] ≠ [].
Proof. by destruct l. Qed.

Lemma addTracks_keeps tracks s l :
  Inv s l → l ≠ [] → ∀ s', addTracks tracks s = Some s' →
  L.head s' = L.head s ∧ L.current s' = L.current s.
Proof.
  revert s l. induction tracks as [|t tracks IH]; intros s l HI Hne s'; simpl.
  - by intros [= <-].
  - intros (s1 & E1 & E)%bind_Some.
    destruct (addTrack_Inv t s l HI) as (s1' & E1' & HI1 & _).
    rewrite E1 in E1'. injection E1' as <-.
    apply addTrack_fields in E1 as (_ & _ & Hh & Hc & _).
    destruct HI as [_ Hhd _ _ _]. destruct l as [|a l]; [done|].
    rewrite Hhd in Hh, Hc. simpl in Hh, Hc.
    destruct (IH s1 _ HI1 (snoc_ne _ _) s' E) as [-> ->].
    by rewrite Hh, Hc, Hhd.
Qed.

Lemma addTracks_from_empty tracks s :
  Inv s [] → ∀ s', addTracks tracks s = Some s' →
  L.head s' = head (seq (length (L.mem s)) (length tracks)) ∧
  L.current s' = head (seq (length (L.mem s)) (length tracks)).
Proof.
  intros HI s'. destruct tracks as [|t tracks]; simpl.
  - intros [= <-]. destruct HI as [_ Hh _ Hc _]. split; [done|].
    destruct (L.current s); [|done]. by apply elem_of_nil in Hc.
  - intros (s1 & E1 & E)%bind_Some.
    destruct (addTrack_Inv t s [] HI) as (s1' & E1' & HI1 & _).
    rewrite E1 in E1'. injection E1' as <-.
    apply addTrack_fields in E1 as (_ & _ & Hh & Hc & _).
    destruct HI as [_ Hhd _ _ _]. rewrite Hhd in Hh, Hc. simpl in Hh, Hc.
    destruct (addTracks_keeps tracks s1 _ HI1 (snoc_ne _ _) s' E)
      as [-> ->].
    by rewrite Hh, Hc.
Qed.

(** After the rebuild the ring is made of fresh nodes that carry the
    data of [ts] in order; the old nodes keep their data; the current
    node is the first new node with the identifier of the old current
    node, or the first new node when there is none. *)
Lemma rebuild_full ts c s l :
  Inv s l →
  Forall (λ p, p < length (L.mem s)) ts →
  (∀ p, c = Some p → p < length (L.mem s)) →
  let n := length (L.mem s) in
  let l' := seq n (length ts) in
  ∃ s2, (L.addEach ts (L.clear s) ≫= L.reselect c) = Some s2 ∧
    Inv s2 l' ∧
    length (L.mem s2) = n + length ts ∧
    (∀ q, q < n → dataOf (L.mem s2) q = dataOf (L.mem s) q) ∧
    dataOf (L.mem s2) <$> l' = dataOf (L.mem s) <$> ts ∧
    L.current s2
    = match c ≫= idOf (L.mem s) with
      | Some i => from_option Some (head l') (firstWithId (L.mem s2) i l')
      | None => head l'
      end.
Proof.
  intros HI Hts Hc n l'. pose proof (clear_Inv _ _ HI) as HI0.
  destruct (addEach_addTracks ts _ _ HI0 Hts) as (tracks & Ht & ->).
  destruct (addTracks_Inv tracks _ _ HI0)
    as (s1 & E1 & HI1 & Hl1 & Hf1 & Hd1 & _).
  destruct (addTracks_from_empty tracks _ HI0 s1 E1) as [_ Hc1].
  simpl in *. rewrite E1. simpl.
  assert (length tracks = length ts) as Hk.
  { apply (f_equal length) in Ht. by rewrite !length_fmap in Ht. }
  rewrite Hk in *. fold n l' in HI1, Hd1, Hc1, Hl1, Hf1.
  destruct c as [p|]; simpl.
  - assert (p < n) as Hp by (by apply Hc).
    destruct (lookup_lt_is_Some_2 (L.mem s1) p) as [nd End]; [lia|].
    rewrite End. simpl.
    destruct (setCurrentTrack_Inv (TrackNode.id nd) s1 l' HI1) as [E HI2].
    assert (idOf (L.mem s) p = Some (TrackNode.id nd)) as Hid.
    { rewrite <- (dataOf_idOf (L.mem s) (L.mem s1) p p) by (by apply Hf1).
      unfold idOf. by rewrite End. }
    rewrite Hid. simpl.
    destruct (firstWithId (L.mem s1) (TrackNode.id nd) l') as [q|] eqn:Ef;
      rewrite E; simpl; eexists; (split; [done|]); simpl; rewrite ?Ef; simpl;
      split_and!; try done; by rewrite Hd1, Ht.
  - exists s1. split_and!; try done. by rewrite Hd1, Ht.
Qed.

Lemma shuffle_full rnd s l :
  Inv s l → (∀ k, rnd k ≤ k) → (1 < L.size s)%Z →
  let n := length (L.mem s) in
  let l' := seq n (length l) in
  ∃ s' σ, L.shuffle rnd s = Some s' ∧ Inv s' l' ∧
    L.fisherYates rnd (length l - 1) l = Some σ ∧ σ ≡ₚ l ∧
    length (L.mem s') = n + length l ∧
    (∀ q, q < n → dataOf (L.mem s') q = dataOf (L.mem s) q) ∧
    dataOf (L.mem s') <$> l' = dataOf (L.mem s) <$> σ ∧
    L.current s'
    = match L.current s ≫= idOf (L.mem s) with
      | Some i => from_option Some (head l') (firstWithId (L.mem s') i l')
      | None => head l'
      end.
Proof.
  intros HI Hrnd Hsz n l'.
  unfold L.shuffle. rewrite bool_decide_false by lia.
  rewrite (getAllTracks_Inv _ _ HI). simpl.
  destruct (fisherYates_perm rnd (length l - 1) l Hrnd) as (σ & Eσ & Hσ); [lia|].
  rewrite Eσ. simpl.
  destruct (rebuild_full σ (L.current s) s l HI)
    as (s2 & E2 & HI2 & Hl2 & Hf2 & Hd2 & Hc2).
  { apply Forall_forall. intros p Hp. rewrite Hσ in Hp.
    destruct HI as [Hr _ _ _ _]. by eapply ring_lt. }
  { intros p. by apply current_lt with l. }
  rewrite (Permutation_length Hσ) in HI2, Hl2, Hd2, Hc2.
  unfold mbind, option_bind in E2 |- *.
  destruct (L.addEach σ (L.clear s)) as [s1|]; [|done]. rewrite E2.
  exists (L.setIsShuffled true s2), σ. split; [done|].
  split; [by apply setIsShuffled_Inv|]. by split_and!.
Qed.

Lemma restoreOrder_full s l :
  Inv s l → L.isShuffled s = true → L.originalOrder s ≠ [] →
  let n := length (L.mem s) in
  let l' := seq n (length (L.originalOrder s)) in
  ∃ s', L.restoreOrder s = Some s' ∧ Inv s' l' ∧
    length (L.mem s') = n + length (L.originalOrder s) ∧
    (∀ q, q < n → dataOf (L.mem s') q = dataOf (L.mem s) q) ∧
    dataOf (L.mem s') <$> l' = dataOf (L.mem s) <$> L.originalOrder s ∧
    L.current s'
    = match L.current s ≫= idOf (L.mem s) with
      | Some i => from_option Some (head l') (firstWithId (L.mem s') i l')
      | None => head l'
      end.
Proof.
  intros HI Hb Hne n l'. pose proof HI as [Hr Hh Hs Hc Ho].
  unfold L.restoreOrder. rewrite Hb. simpl.
  rewrite bool_decide_false by (by destruct (L.originalOrder s)).
  destruct (rebuild_full (L.originalOrder s) (L.current s) s l HI Ho)
    as (s2 & E2 & HI2 & Hl2 & Hf2 & Hd2 & Hc2).
  { intros p. by apply current_lt with l. }
  unfold mbind, option_bind in E2 |- *.
  destruct (L.addEach (L.originalOrder s) (L.clear s)) as [s1|]; [|done].
  rewrite E2.
  exists (L.setIsShuffled false s2). split; [done|].
  split; [by apply setIsShuffled_Inv|]. by split_and!.
Qed.

(** No method changes the track data of an allocated node, and none
    frees a node. *)
Lemma run_frame c s l s' :
  Inv s l → fair c → run c s = Some s' →
  length (L.mem s) ≤ length (L.mem s') ∧
  ∀ q, q < length (L.mem s) → dataOf (L.mem s') q = dataOf (L.mem s) q.
Proof.
  intros HI Hfair E.
  destruct c as [t| | |trackId|rnd| | |trackId]; simpl in E.
  - destruct (addTrack_Inv t s l HI) as (s1 & E1 & _ & Hl & Hd & _).
    rewrite E in E1. injection E1 as <-. split; [lia|].
    intros q Hq. rewrite Hd. by rewrite decide_False by lia.
  - apply fmap_Some in E as ([r s1] & E & ->). unfold L.nextTrack in E.
    destruct (L.current s); [|by injection E as <- <-].
    apply bind_Some in E as (nd & _ & E). by injection E as <- <-.
  - apply fmap_Some in E as ([r s1] & E & ->). unfold L.prevTrack in E.
    destruct (L.current s); [|by injection E as <- <-].
    apply bind_Some in E as (nd & _ & E). by injection E as <- <-.
  - apply fmap_Some in E as ([r s1] & E & ->).
    apply setCurrentTrack_fields in E as (Hm & _). simpl. by rewrite Hm.
  - destruct (decide (L.size s ≤ 1)%Z) as [Hsz|Hsz].
    + rewrite shuffle_small in E by done. by injection E as <-.
    + destruct (shuffle_full rnd s l HI Hfair)
        as (s1 & σ & E1 & _ & _ & _ & Hl & Hf & _); [lia|].
      rewrite E in E1. injection E1 as <-. split; [lia|done].
  - destruct (L.isShuffled s) eqn:Hb.
    + destruct (decide (L.originalOrder s = [])) as [Ho|Ho].
      * rewrite restoreOrder_skip in E by auto. by injection E as <-.
      * destruct (restoreOrder_full s l HI Hb Ho) as (s1 & E1 & _ & Hl & Hf & _).
        rewrite E in E1. injection E1 as <-. split; [lia|done].
    + rewrite restoreOrder_skip in E by auto. by injection E as <-.
  - by injection E as <-.
  - apply fmap_Some in E as ([b s1] & E & ->). simpl.
    destruct (firstWithId (L.mem s) trackId l) as [x|] eqn:Ef.
    + destruct (removeTrack_hit trackId s l x HI Ef)
        as (l1 & l2 & nx & s2 & _ & _ & _ & _ & E2 & _ & Hd & _).
      rewrite E in E2. injection E2 as -> ->. split; [|by intros; apply Hd].
      apply Nat.le_ngt. intros Hlt.
      pose proof (Hd (length (L.mem s2))) as Hq. unfold dataOf in Hq.
      rewrite (lookup_ge_None_2 (L.mem s2)) in Hq by lia.
      destruct (lookup_lt_is_Some_2 (L.mem s) (length (L.mem s2))) as [nd End];
        [done|]. by rewrite End in Hq.
    + rewrite (removeTrack_miss trackId s l HI Ef) in E. by injection E as <- <-.
Qed.

End rebuild.

(** ** Observers and navigation *)

Lemma nextTrack_eq s c q :
  L.current s = Some c → nextOf (L.mem s) c = Some q →
  L.nextTrack s = Some (Some q, withCurrent (Some q) s).
Proof.
  intros Ec Hn. unfold L.nextTrack, nextOf in *. rewrite Ec.
  destruct (L.mem s !! c); simpl in *; [|done]. by rewrite Hn.
Qed.

Lemma prevTrack_eq s c q :
  L.current s = Some c → prevOf (L.mem s) c = Some q →
  L.prevTrack s = Some (Some q, withCurrent (Some q) s).
Proof.
  intros Ec Hn. unfold L.prevTrack, prevOf in *. rewrite Ec.
  destruct (L.mem s !! c); simpl in *; [|done]. by rewrite Hn.
Qed.

(** [getSize] is the number of nodes [getAllTracks] returns, so
    [isEmpty] says whether [getAllTracks] returns the empty array. *)
Theorem size_counts_nodes s l :
  reachable s → L.getAllTracks s = Some l →
  L.getSize s = Z.of_nat (length l) ∧ (L.isEmpty s = true ↔ l = []).
Proof.
  intros Hs Hl. destruct (reachable_getAllTracks s l Hs Hl) as [_ _ Hsz _ _].
  unfold L.getSize, L.isEmpty. rewrite Hsz. split; [done|].
  rewrite bool_decide_eq_true. destruct l; simpl; split; (done || lia).
Qed.

Lemma size_counts_nodes_witness :
  reachable playlistABC ∧ L.getAllTracks playlistABC = Some [0; 1; 2] ∧
  L.getSize playlistABC = Z.of_nat (length [0; 1; 2]) ∧
  (L.isEmpty playlistABC = true ↔ [0; 1; 2] = []).
Proof.
  assert (L.getAllTracks playlistABC = Some [0; 1; 2]) as Hl by reflexivity.
  split; [exact reachable_playlistABC|]. split; [exact Hl|].
  exact (size_counts_nodes playlistABC _ reachable_playlistABC Hl).
Defined.

(** [getCurrentTrack] is [null] exactly on the empty list, and otherwise
    one of the nodes [getAllTracks] returns. *)
Theorem current_among_nodes s l :
  reachable s → L.getAllTracks s = Some l →
  (L.getCurrentTrack s = None ↔ l = []) ∧
  (∀ c, L.getCurrentTrack s = Some c → c ∈ l).
Proof.
  intros Hs Hl. destruct (reachable_getAllTracks s l Hs Hl) as [_ _ _ Hc _].
  unfold L.getCurrentTrack. destruct (L.current s) as [c|]; split.
  - split; [done|]. intros ->. by apply elem_of_nil in Hc.
  - by intros ? [= <-].
  - done.
  - done.
Qed.

Lemma current_among_nodes_witness :
  reachable playlistABC ∧ L.getAllTracks playlistABC = Some [0; 1; 2] ∧
  (L.getCurrentTrack playlistABC = None ↔ [0; 1; 2] = []) ∧
  (∀ c, L.getCurrentTrack playlistABC = Some c → c ∈ [0; 1; 2]).
Proof.
  assert (L.getAllTracks playlistABC = Some [0; 1; 2]) as Hl by reflexivity.
  split; [exact reachable_playlistABC|]. split; [exact Hl|].
  exact (current_among_nodes playlistABC _ reachable_playlistABC Hl).
Defined.

(** [prevTrack] undoes [nextTrack] and [nextTrack] undoes [prevTrack]:
    either pair of calls gives back the state it started from. *)
Theorem next_prev_inverse s :
  reachable s →
  ((snd <$> L.nextTrack s) ≫= λ s1, snd <$> L.prevTrack s1) = Some s ∧
  ((snd <$> L.prevTrack s) ≫= λ s1, snd <$> L.nextTrack s1) = Some s.
Proof.
  intros [l [Hr _ _ Hc _]]%reachable_Inv.
  destruct (L.current s) as [c|] eqn:Ec.
  - destruct (ring_next _ _ _ Hr Hc) as (q & _ & Hn & Hp).
    destruct (ring_prev _ _ _ Hr Hc) as (q' & _ & Hp' & Hn').
    rewrite (nextTrack_eq s c q Ec Hn), (prevTrack_eq s c q' Ec Hp'). simpl.
    rewrite (prevTrack_eq (withCurrent (Some q) s) q c eq_refl Hp).
    rewrite (nextTrack_eq (withCurrent (Some q') s) q' c eq_refl Hn'). simpl.
    unfold withCurrent. simpl. destruct s; simpl in *. by rewrite Ec.
  - unfold L.nextTrack, L.prevTrack. rewrite Ec. simpl. by rewrite Ec.
Qed.

Lemma next_prev_inverse_witness :
  reachable playlistABC ∧
  ((snd <$> L.nextTrack playlistABC) ≫= λ s1, snd <$> L.prevTrack s1)
  = Some playlistABC ∧
  ((snd <$> L.prevTrack playlistABC) ≫= λ s1, snd <$> L.nextTrack s1)
  = Some playlistABC.
Proof.
  split; [exact reachable_playlistABC|].
  exact (next_prev_inverse playlistABC reachable_playlistABC).
Defined.

Lemma path_last_link h m t z : path h (m ++ [t; z]) → linked h t z.
Proof. intros [_ [? _]]%path_app. done. Qed.

(** [nextTrack] moves to the node that follows the current one in
    [getAllTracks], and from the last node to the first; [prevTrack]
    moves to the node before it, and from the first node to the last. *)
Theorem navigation_order s l1 c l2 :
  reachable s → L.getAllTracks s = Some (l1 ++ c :: l2) →
  L.current s = Some c →
  let nx := head (l2 ++ l1 ++ [c]) in
  let pv := last (c :: l2 ++ l1) in
  L.nextTrack s = Some (nx, withCurrent nx s) ∧
  L.prevTrack s = Some (pv, withCurrent pv s).
Proof.
  intros Hs Hl Ec nx pv.
  destruct (reachable_getAllTracks s _ Hs Hl) as [Hr _ _ _ _].
  apply ring_lap in Hr. split.
  - assert (∃ q, nx = Some q ∧ nextOf (L.mem s) c = Some q) as (q & -> & Hn).
    { subst nx. rewrite (assoc_L (++)).
      destruct (l2 ++ l1) as [|q m]; simpl in *; destruct Hr as [[Hn _] _]; eauto. }
    by apply (nextTrack_eq s c q).
  - assert (∃ q, pv = Some q ∧ prevOf (L.mem s) c = Some q) as (q & -> & Hp).
    { subst pv. destruct (snoc_cases (c :: l2 ++ l1)) as [?|(m & t & Em)]; [done|].
      rewrite Em, last_snoc.
      change (path (L.mem s) ((c :: l2 ++ l1) ++ [c])) in Hr. rewrite Em in Hr.
      rewrite <- (assoc_L (++)) in Hr. apply path_last_link in Hr as [_ Hp]. eauto. }
    by apply (prevTrack_eq s c q).
Qed.

Lemma navigation_order_witness :
  reachable playlistABC ∧
  L.getAllTracks playlistABC = Some ([] ++ 0 :: [1; 2]) ∧
  L.current playlistABC = Some 0 ∧
  L.nextTrack playlistABC = Some (Some 1, withCurrent (Some 1) playlistABC) ∧
  L.prevTrack playlistABC = Some (Some 2, withCurrent (Some 2) playlistABC).
Proof.
  assert (L.getAllTracks playlistABC = Some ([] ++ 0 :: [1; 2])) as Hl
    by reflexivity.
  assert (L.current playlistABC = Some 0) as Hc by reflexivity.
  split; [exact reachable_playlistABC|]. split; [exact Hl|]. split; [exact Hc|].
  exact (navigation_order playlistABC [] 0 [1; 2] reachable_playlistABC Hl Hc).
Defined.

(** ** Adding and removing *)

Lemma fmap_Some_nil {A B} (f : A → option B) (l : list A) :
  f <$> l = Some <$> [] → l = [].
Proof. by destruct l. Qed.

Lemma addTrack_step t s l tracks :
  Inv s l → allTracks s = Some tracks →
  let new := length (L.mem s) in
  ∃ s', L.addTrack t s = Some s' ∧ Inv s' (l ++ [new]) ∧
    allTracks s' = Some (tracks ++ [t]) ∧
    dataOf (L.mem s') new = Some t ∧
    (∀ q, q < new → dataOf (L.mem s') q = dataOf (L.mem s) q).
Proof.
  intros HI Ht new. pose proof (allTracks_Inv_eq s l tracks HI Ht) as Hd.
  destruct (addTrack_Inv t s l HI) as (s' & E & HI' & _ & Hd' & _).
  fold new in HI', Hd'.
  assert (∀ q, q < new → dataOf (L.mem s') q = dataOf (L.mem s) q) as Hf.
  { intros q Hq. rewrite Hd'. by rewrite decide_False by lia. }
  assert (dataOf (L.mem s') new = Some t) as Hn.
  { rewrite Hd'. by rewrite decide_True. }
  exists s'. split_and!; try done.
  destruct (allTracks_Inv s' _ HI') as (tracks' & Et' & Hdt').
  rewrite Et'. f_equal. apply Some_fmap_inj. rewrite <- Hdt'.
  rewrite !fmap_app. simpl. rewrite Hn, <- Hd. f_equal.
  apply Forall_fmap_ext, Forall_forall. intros q Hq. apply Hf.
  destruct HI as [Hr _ _ _ _]. by eapply ring_lt.
Qed.

(** [addTrack] puts the track behind the last one: [getAllTracks] grows
    by it at the end, [getSize] by one, the flag stays.  On the empty
    list the new node becomes head and current; otherwise head and
    current stay where they were. *)
Theorem addTrack_appends t s tracks :
  reachable s → allTracks s = Some tracks →
  ∃ s', L.addTrack t s = Some s' ∧
    allTracks s' = Some (tracks ++ [t]) ∧
    L.getSize s' = (L.getSize s + 1)%Z ∧
    L.getIsShuffled s' = L.getIsShuffled s ∧
    (tracks = [] → L.head s' = L.current s' ∧ currentTrack s' = Some t) ∧
    (tracks ≠ [] →
     L.head s' = L.head s ∧ L.current s' = L.current s ∧
     currentTrack s' = currentTrack s).
Proof.
  intros [l HI]%reachable_Inv Ht.
  pose proof (allTracks_Inv_eq s l tracks HI Ht) as Hd.
  destruct (addTrack_step t s l tracks HI Ht) as (s' & E & HI' & Et' & Hn & Hf).
  pose proof (addTrack_fields t s s' E) as (Hsz & Hb & Hh & Hc & _).
  pose proof HI as [Hr Hhd _ Hcur _].
  exists s'. split_and!; try done.
  - intros ->. apply fmap_Some_nil in Hd. subst l.
    rewrite Hhd in Hh, Hc. simpl in Hh, Hc. rewrite Hh, Hc. split; [done|].
    unfold currentTrack, L.getCurrentTrack. by rewrite Hc.
  - intros Hne. destruct l as [|a l].
    { simpl in Hd. symmetry in Hd. by apply fmap_nil_inv in Hd. }
    rewrite Hhd in Hh, Hc. simpl in Hh, Hc. rewrite Hh, Hc, Hhd.
    split_and!; try done. unfold currentTrack, L.getCurrentTrack. rewrite Hc.
    destruct (L.current s) as [c|]; [|done]. simpl. apply Hf. by eapply ring_lt.
Qed.

Lemma addTrack_appends_witness :
  reachable playlistAB ∧ allTracks playlistAB = Some [trackA; trackB] ∧
  ∃ s', L.addTrack trackC playlistAB = Some s' ∧
    allTracks s' = Some ([trackA; trackB] ++ [trackC]) ∧
    L.getSize s' = (L.getSize playlistAB + 1)%Z ∧
    L.getIsShuffled s' = L.getIsShuffled playlistAB ∧
    ([trackA; trackB] = [] →
     L.head s' = L.current s' ∧ currentTrack s' = Some trackC) ∧
    ([trackA; trackB] ≠ [] →
     L.head s' = L.head playlistAB ∧ L.current s' = L.current playlistAB ∧
     currentTrack s' = currentTrack playlistAB).
Proof.
  assert (allTracks playlistAB = Some [trackA; trackB]) as Ht by reflexivity.
  split; [exact reachable_playlistAB|]. split; [exact Ht|].
  exact (addTrack_appends trackC playlistAB _ reachable_playlistAB Ht).
Defined.

Lemma sumZ_app l k : sumZ (l ++ k) = (sumZ l + sumZ k)%Z.
Proof. unfold sumZ. induction l as [|x l IH]; simpl; [done|]. rewrite IH. lia. Qed.

(** While no duration is negative and the durations, the new one
    included, add up to at most [Number.MAX_SAFE_INTEGER],
    [getTotalDuration] after [addTrack] is the total before plus the
    duration of the added track. *)
Theorem addTrack_total t s tracks :
  reachable s → allTracks s = Some tracks →
  Forall (λ t, (0 ≤ Track.duration t)%Z) (tracks ++ [t]) →
  (sumZ (Track.duration <$> tracks ++ [t]) ≤ MAX_SAFE_INTEGER)%Z →
  ∃ total s', L.getTotalDuration s = Some total ∧
              L.addTrack t s = Some s' ∧
              L.getTotalDuration s' = Some (total + Track.duration t)%Z.
Proof.
  intros [l HI]%reachable_Inv Ht Hpos Hmax.
  pose proof Hpos as [Hpos1 [Hpos2 _]%Forall_cons]%Forall_app.
  pose proof (sumZ_nonneg tracks Hpos1) as H0.
  assert (sumZ (Track.duration <$> tracks ++ [t])
          = (sumZ (Track.duration <$> tracks) + Track.duration t)%Z) as Es.
  { rewrite fmap_app, sumZ_app. unfold sumZ. simpl. lia. }
  destruct (addTrack_step t s l tracks HI Ht) as (s' & E & HI' & Et' & _).
  exists (sumZ (Track.duration <$> tracks)), s'.
  split; [apply (getTotalDuration_Inv s l); [done..|lia]|].
  split; [done|].
  rewrite (getTotalDuration_Inv s' _ _ HI' Et' Hpos Hmax). by rewrite Es.
Qed.

Lemma addTrack_total_witness :
  reachable playlistAB ∧ allTracks playlistAB = Some [trackA; trackB] ∧
  Forall (λ t, (0 ≤ Track.duration t)%Z) ([trackA; trackB] ++ [trackC]) ∧
  (sumZ (Track.duration <$> [trackA; trackB] ++ [trackC])
   ≤ MAX_SAFE_INTEGER)%Z ∧
  ∃ total s', L.getTotalDuration playlistAB = Some total ∧
              L.addTrack trackC playlistAB = Some s' ∧
              L.getTotalDuration s' = Some (total + Track.duration trackC)%Z.
Proof.
  assert (allTracks playlistAB = Some [trackA; trackB]) as Ht by reflexivity.
  assert (Forall (λ t, (0 ≤ Track.duration t)%Z)
                 ([trackA; trackB] ++ [trackC])) as Hpos
    by (repeat constructor; by vm_compute).
  assert (sumZ (Track.duration <$> [trackA; trackB] ++ [trackC])
          ≤ MAX_SAFE_INTEGER)%Z as Hmax by (by vm_compute).
  split; [exact reachable_playlistAB|]. split; [exact Ht|].
  split; [exact Hpos|]. split; [exact Hmax|].
  exact (addTrack_total trackC playlistAB _ reachable_playlistAB Ht Hpos Hmax).
Defined.

Lemma snoc_split_NoDup (l l1 l2 : list loc) n :
  n ∉ l → l ++ [n] = l1 ++ n :: l2 → l1 = l ∧ l2 = [].
Proof.
  intros Hn E. destruct (snoc_cases l2) as [->|(m & z & ->)].
  - by apply app_inj_tail in E as [-> _].
  - change (l ++ [n] = l1 ++ (n :: m) ++ [z]) in E. rewrite (assoc_L (++)) in E.
    apply app_inj_tail in E as [-> _]. set_solver.
Qed.

Lemma ids_of_ring (h : heap) (l : list loc) (tracks : list Track.t) p :
  dataOf h <$> l = Some <$> tracks → p ∈ l →
  ∃ t, t ∈ tracks ∧ dataOf h p = Some t.
Proof.
  intros Hd Hp. apply (list_elem_of_fmap_2 (dataOf h)) in Hp. rewrite Hd in Hp.
  apply list_elem_of_fmap in Hp as (t & ? & ?). eauto.
Qed.

(** Adding a track whose identifier is not in the list and removing that
    identifier again gives back the same nodes, tracks, size, head,
    current and flag. *)
Theorem add_remove_round_trip t s tracks :
  reachable s → allTracks s = Some tracks →
  Track._id t ∉ Track._id <$> tracks →
  ∃ s1 s2,
    L.addTrack t s = Some s1 ∧
    L.removeTrack (Track._id t) s1 = Some (true, s2) ∧
    L.getAllTracks s2 = L.getAllTracks s ∧
    allTracks s2 = Some tracks ∧
    L.getSize s2 = L.getSize s ∧
    L.head s2 = L.head s ∧ L.current s2 = L.current s ∧
    L.getIsShuffled s2 = L.getIsShuffled s.
Proof.
  intros [l HI]%reachable_Inv Ht Hfresh.
  pose proof (allTracks_Inv_eq s l tracks HI Ht) as Hd.
  pose proof HI as [Hr Hhd Hsz Hcur _].
  destruct (addTrack_step t s l tracks HI Ht) as (s1 & E1 & HI1 & _ & Hn & Hf).
  pose proof (addTrack_fields t s s1 E1) as (_ & Hb1 & Hh1 & Hc1 & _).
  set (new := length (L.mem s)) in *.
  assert (new ∉ l) as Hnew.
  { intros Hin. apply (ring_lt _ _ _ Hr) in Hin. unfold new in Hin. lia. }
  assert (firstWithId (L.mem s1) (Track._id t) (l ++ [new]) = Some new) as Ef.
  { apply firstWithId_Some. exists l, []. split; [done|]. split.
    - rewrite idOf_dataOf, Hn. done.
    - intros p Hp. rewrite idOf_dataOf, Hf by (by eapply ring_lt).
      destruct (ids_of_ring _ _ _ p Hd Hp) as (t' & Ht' & ->). simpl.
      intros [= Eid]. apply Hfresh. rewrite <- Eid.
      by apply list_elem_of_fmap_2. }
  destruct (removeTrack_hit _ s1 _ new HI1 Ef)
    as (l1 & l2 & nx & s2 & El & _ & _ & _ & E2 & HI2 & Hd2 & Hone & Hmany).
  apply snoc_split_NoDup in El as [-> ->]; [|done]. rewrite app_nil_r in HI2.
  pose proof (removeTrack_fields _ _ _ _ E2) as [Hb2 _].
  exists s1, s2. split; [done|]. split; [done|].
  rewrite (getAllTracks_Inv _ _ HI2), (getAllTracks_Inv _ _ HI).
  split; [done|]. split.
  { destruct (allTracks_Inv s2 l HI2) as (tracks2 & Et2 & Hdt2).
    rewrite Et2. f_equal. apply Some_fmap_inj. rewrite <- Hdt2, <- Hd.
    apply Forall_fmap_ext, Forall_forall. intros q Hq.
    rewrite Hd2. apply Hf. by eapply ring_lt. }
  split.
  { destruct HI2 as [_ _ Hsz2 _ _]. unfold L.getSize. by rewrite Hsz2, Hsz. }
  unfold L.getIsShuffled. rewrite Hb2, Hb1.
  destruct l as [|a l].
  - rewrite (Hone eq_refl). simpl. rewrite Hhd. split; [done|]. split; [|done].
    destruct (L.current s) as [c|]; [|done]. by apply elem_of_nil in Hcur.
  - destruct Hmany as [Hh2 Hc2]; [by destruct l|].
    rewrite Hhd in Hh1, Hc1. simpl in Hh1, Hc1. rewrite Hh2, Hc2, Hh1, Hc1, Hhd.
    simpl. split; [|split; [|done]].
    + rewrite decide_False; [done|]. intros [= ->]. apply Hnew. set_solver.
    + rewrite decide_False; [done|]. intros Ec. rewrite Ec in Hcur. done.
Qed.

Lemma add_remove_round_trip_witness :
  reachable playlistAB ∧ allTracks playlistAB = Some [trackA; trackB] ∧
  Track._id trackC ∉ Track._id <$> [trackA; trackB] ∧
  ∃ s1 s2,
    L.addTrack trackC playlistAB = Some s1 ∧
    L.removeTrack (Track._id trackC) s1 = Some (true, s2) ∧
    L.getAllTracks s2 = L.getAllTracks playlistAB ∧
    allTracks s2 = Some [trackA; trackB] ∧
    L.getSize s2 = L.getSize playlistAB ∧
    L.head s2 = L.head playlistAB ∧ L.current s2 = L.current playlistAB ∧
    L.getIsShuffled s2 = L.getIsShuffled playlistAB.
Proof.
  assert (allTracks playlistAB = Some [trackA; trackB]) as Ht by reflexivity.
  assert (Track._id trackC ∉ Track._id <$> [trackA; trackB]) as Hf
    by compute_done.
  split; [exact reachable_playlistAB|]. split; [exact Ht|]. split; [exact Hf|].
  exact (add_remove_round_trip trackC playlistAB _ reachable_playlistAB Ht Hf).
Defined.

(** ** Shuffle, restore and the player's shuffle button *)

Lemma fmap_eq_elem {A B C} (f : A → C) (g : B → C) (l : list A) (k : list B) c :
  f <$> l = g <$> k → c ∈ k → ∃ p, p ∈ l ∧ f p = g c.
Proof.
  intros E Hc. apply (list_elem_of_fmap_2 g) in Hc. rewrite <- E in Hc.
  apply list_elem_of_fmap in Hc as (p & ? & ?). eauto.
Qed.

Lemma currentId_idOf s c :
  L.current s = Some c → currentId s = idOf (L.mem s) c.
Proof.
  intros Ec. unfold currentId, currentTrack, L.getCurrentTrack. rewrite Ec.
  simpl. by rewrite idOf_dataOf.
Qed.

Lemma from_firstWithId h i l d q :
  from_option Some d (firstWithId h i l) = Some q →
  firstWithId h i l ≠ None → idOf h q = Some i.
Proof.
  destruct (firstWithId h i l) as [x|] eqn:E; [|done]. simpl.
  intros [= ->] _. by apply firstWithId_Some in E as (_ & _ & _ & ? & _).
Qed.

(** [shuffle] returns for draws within range, and the current track
    afterwards carries the identifier the current track carried before;
    with more than one track the flag is set. *)
Theorem shuffle_keeps_current rnd s :
  reachable s → (∀ i, rnd i ≤ i) →
  ∃ s', L.shuffle rnd s = Some s' ∧ currentId s' = currentId s ∧
        ((1 < L.getSize s)%Z → L.getIsShuffled s' = true).
Proof.
  intros [l HI]%reachable_Inv Hrnd. unfold L.getSize.
  destruct (decide (L.size s ≤ 1)%Z) as [Hsz|Hsz].
  { exists s. rewrite shuffle_small by done. split_and!; [done..|lia]. }
  destruct (shuffle_full rnd s l HI Hrnd)
    as (s' & σ & E & HI' & _ & Hσ & _ & _ & Hd & Hc); [lia|].
  exists s'. split; [done|]. split.
  - pose proof HI as [Hr _ Hs Hcur _].
    destruct (L.current s) as [c|] eqn:Ec;
      [|subst l; simpl in Hs; lia].
    destruct (lookup_lt_is_Some_2 (L.mem s) c) as [nd End].
    { by eapply ring_lt. }
    assert (idOf (L.mem s) c = Some (TrackNode.id nd)) as Hid.
    { unfold idOf. by rewrite End. }
    simpl in Hc. rewrite Hid in Hc.
    set (l' := seq (length (L.mem s)) (length l)) in *.
    assert (firstWithId (L.mem s') (TrackNode.id nd) l' ≠ None) as Hfound.
    { intros Hnone. pose proof (proj1 (firstWithId_None _ _ _) Hnone) as Hno.
      destruct (fmap_eq_elem _ _ _ _ c Hd) as (p & Hp & Hpc).
      { by rewrite Hσ. }
      apply (Hno p Hp). by rewrite (dataOf_idOf (L.mem s) (L.mem s') c p). }
    destruct (firstWithId (L.mem s') (TrackNode.id nd) l') as [q|] eqn:Ef; [|done].
    simpl in Hc. rewrite (currentId_idOf s' q Hc), (currentId_idOf s c Ec), Hid.
    by apply firstWithId_Some in Ef as (_ & _ & _ & ? & _).
  - intros _.
    destruct (shuffle_Inv rnd s l HI Hrnd)
      as (s'' & l'' & σ' & E'' & _ & _ & _ & _ & Hb & _); [lia|].
    rewrite E in E''. by injection E'' as <-.
Qed.

Lemma shuffle_keeps_current_witness :
  reachable playlistABC ∧ (∀ i : nat, (λ _ : nat, 0) i ≤ i) ∧
  ∃ s', L.shuffle (λ _, 0) playlistABC = Some s' ∧
        currentId s' = currentId playlistABC ∧
        ((1 < L.getSize playlistABC)%Z → L.getIsShuffled s' = true).
Proof.
  assert (∀ i : nat, (λ _ : nat, 0) i ≤ i) as Hrnd by (intros i; simpl; lia).
  split; [exact reachable_playlistABC|]. split; [exact Hrnd|].
  exact (shuffle_keeps_current _ playlistABC reachable_playlistABC Hrnd).
Defined.

Lemma snapshotTracks_Inv s l :
  Inv s l →
  ∃ snap, snapshotTracks s = Some snap ∧
          dataOf (L.mem s) <$> L.originalOrder s = Some <$> snap.
Proof. intros [_ _ _ _ Ho]. by apply mapM_dataOf. Qed.

Lemma restoreOrder_snapshot_Inv s l snap :
  Inv s l → L.isShuffled s = true → L.originalOrder s ≠ [] →
  snapshotTracks s = Some snap →
  ∃ s', L.restoreOrder s = Some s' ∧
    Inv s' (seq (length (L.mem s)) (length snap)) ∧
    allTracks s' = Some snap ∧
    L.isShuffled s' = false ∧
    L.current s'
    = match L.current s ≫= idOf (L.mem s) with
      | Some i =>
          from_option Some (L.head s')
            (firstWithId (L.mem s') i (seq (length (L.mem s)) (length snap)))
      | None => L.head s'
      end.
Proof.
  intros HI Hb Hne Esnap.
  destruct (snapshotTracks_Inv s l HI) as (snap' & Esnap' & Hsn).
  rewrite Esnap in Esnap'. injection Esnap' as <-.
  destruct (restoreOrder_full s l HI Hb Hne) as (s' & E & HI' & _ & _ & Hd & Hc).
  assert (length (L.originalOrder s) = length snap) as Hlen.
  { apply (f_equal length) in Hsn. by rewrite !length_fmap in Hsn. }
  simpl in HI', Hd, Hc. rewrite Hlen in HI', Hd, Hc.
  exists s'. split; [done|]. split; [done|]. split.
  { destruct (allTracks_Inv s' _ HI') as (tracks' & Et' & Hdt').
    rewrite Et'. f_equal. apply Some_fmap_inj. by rewrite <- Hdt', Hd. }
  split.
  { apply restoreOrder_fields in E as [[-> [?|?]]|[? _]]; congruence. }
  destruct HI' as [_ -> _ _ _]. exact Hc.
Qed.

(** With the flag set, [restoreOrder] rebuilds the list from the
    snapshot: [getAllTracks] shows the snapshot's tracks in order,
    [getSize] is their number and the flag is cleared.  The current
    track keeps its identifier when a snapshot track carries it, and is
    the head otherwise. *)
Theorem restoreOrder_snapshot s snap :
  reachable s → L.getIsShuffled s = true → snapshotTracks s = Some snap →
  ∃ s', L.restoreOrder s = Some s' ∧
    allTracks s' = Some snap ∧
    L.getSize s' = Z.of_nat (length snap) ∧
    L.getIsShuffled s' = false ∧
    (∀ i, currentId s = Some i → i ∈ Track._id <$> snap →
          currentId s' = Some i) ∧
    ((∀ i, currentId s = Some i → i ∉ Track._id <$> snap) →
     L.current s' = L.head s').
Proof.
  intros Hs Hb Esnap. pose proof (reachable_flag s Hs Hb) as Hne.
  destruct (reachable_Inv s Hs) as [l HI].
  destruct (restoreOrder_snapshot_Inv s l snap HI Hb Hne Esnap)
    as (s' & E & HI' & Et' & Hb' & Hc).
  pose proof (allTracks_Inv_eq s' _ snap HI' Et') as Hd'.
  set (l' := seq (length (L.mem s)) (length snap)) in *.
  exists s'. split_and!; try done.
  - destruct HI' as [_ _ Hsz' _ _]. unfold L.getSize. rewrite Hsz'.
    unfold l'. by rewrite length_seq.
  - intros i Hi Hin. destruct (L.current s) as [c|] eqn:Ec;
      [|by unfold currentId, currentTrack, L.getCurrentTrack in Hi;
           rewrite Ec in Hi].
    rewrite (currentId_idOf s c Ec) in Hi. simpl in Hc. rewrite Hi in Hc.
    assert (firstWithId (L.mem s') i l' ≠ None) as Hfound.
    { intros Hnone. pose proof (proj1 (firstWithId_None _ _ _) Hnone) as Hno.
      apply list_elem_of_fmap in Hin as (t & -> & Ht).
      destruct (fmap_eq_elem _ _ _ _ t Hd' Ht) as (p & Hp & Hpt).
      apply (Hno p Hp). by rewrite idOf_dataOf, Hpt. }
    destruct (firstWithId (L.mem s') i l') as [q|] eqn:Ef; [|done].
    simpl in Hc. rewrite (currentId_idOf s' q Hc).
    by apply firstWithId_Some in Ef as (_ & _ & _ & ? & _).
  - intros Hno. destruct (L.current s ≫= idOf (L.mem s)) as [i|] eqn:Ei; [|done].
    destruct (L.current s) as [c|] eqn:Ec; [|done]. simpl in Ei.
    rewrite <- (currentId_idOf s c Ec) in Ei. specialize (Hno i Ei).
    destruct (firstWithId (L.mem s') i l') as [q|] eqn:Ef; [|done].
    apply firstWithId_Some in Ef as (l1 & l2 & El & Hq & _).
    assert (q ∈ l') as Hq' by (rewrite El; set_solver).
    destruct (ids_of_ring _ _ _ q Hd' Hq') as (t & Ht & Hqt).
    rewrite idOf_dataOf, Hqt in Hq. simpl in Hq. injection Hq as <-.
    destruct Hno. by apply list_elem_of_fmap_2.
Qed.

Lemma reachable_playlistShuffled : reachable playlistShuffled.
Proof.
  apply (reach_call (Shuffle (λ _, 0)) playlistABC);
    [exact reachable_playlistABC|simpl; lia|done].
Qed.

Lemma restoreOrder_snapshot_witness :
  reachable playlistShuffled ∧ L.getIsShuffled playlistShuffled = true ∧
  snapshotTracks playlistShuffled = Some [trackB; trackC; trackA] ∧
  ∃ s', L.restoreOrder playlistShuffled = Some s' ∧
    allTracks s' = Some [trackB; trackC; trackA] ∧
    L.getSize s' = Z.of_nat (length [trackB; trackC; trackA]) ∧
    L.getIsShuffled s' = false ∧
    (∀ i, currentId playlistShuffled = Some i →
          i ∈ Track._id <$> [trackB; trackC; trackA] → currentId s' = Some i) ∧
    ((∀ i, currentId playlistShuffled = Some i →
           i ∉ Track._id <$> [trackB; trackC; trackA]) →
     L.current s' = L.head s').
Proof.
  assert (L.getIsShuffled playlistShuffled = true) as Hb by reflexivity.
  assert (snapshotTracks playlistShuffled = Some [trackB; trackC; trackA])
    as Hsnap by reflexivity.
  split; [exact reachable_playlistShuffled|]. split; [exact Hb|].
  split; [exact Hsnap|].
  exact (restoreOrder_snapshot playlistShuffled _ reachable_playlistShuffled
           Hb Hsnap).
Defined.

Lemma restoreOrder_unflags s :
  reachable s → ∃ s', L.restoreOrder s = Some s' ∧ L.isShuffled s' = false.
Proof.
  intros Hs. destruct (run_total RestoreOrder s Hs I) as [s' E]. simpl in E.
  exists s'. split; [done|].
  pose proof (restoreOrder_fields s s' E) as [[-> [?|Ho]]|[? _]]; try done.
  destruct (L.isShuffled s) eqn:Hb; [|done].
  by destruct (reachable_flag s Hs Hb).
Qed.

(** [restoreOrder] always returns with the flag cleared: on a list a
    caller can build, the guard on an empty snapshot never keeps a set
    flag in place. *)
Theorem restoreOrder_clears_flag s :
  reachable s →
  ∃ s', L.restoreOrder s = Some s' ∧ L.getIsShuffled s' = false.
Proof. apply restoreOrder_unflags. Qed.

Lemma restoreOrder_clears_flag_witness :
  reachable playlistShuffled ∧
  ∃ s', L.restoreOrder playlistShuffled = Some s' ∧ L.getIsShuffled s' = false.
Proof.
  split; [exact reachable_playlistShuffled|].
  exact (restoreOrder_clears_flag playlistShuffled reachable_playlistShuffled).
Defined.

Lemma mapM_ext_Forall {A B} (f g : A → option B) (l : list A) :
  Forall (λ x, f x = g x) l → mapM f l = mapM g l.
Proof. induction 1 as [|x l E _ IH]; simpl; [done|]. by rewrite E, IH. Qed.

Lemma runAll_snapshot cs s s1 :
  reachable s → L.isShuffled s = true →
  Forall fair cs → Forall (λ c, c ≠ RestoreOrder) cs →
  runAll cs s = Some s1 →
  reachable s1 ∧ L.isShuffled s1 = true ∧ snapshotTracks s1 = snapshotTracks s.
Proof.
  revert s. induction cs as [|c cs IH]; intros s Hs Hb Hfair Hno; simpl.
  - by intros [= <-].
  - intros (s' & E & Ecs)%bind_Some.
    apply Forall_cons in Hfair as [Hf Hfair]. apply Forall_cons in Hno as [Hn Hno].
    destruct (run_snapshot c s s' E Hn Hb) as [Hb' Ho'].
    destruct (reachable_Inv s Hs) as [l HI].
    destruct (run_frame c s l s' HI Hf E) as [_ Hfr].
    assert (reachable s') as Hs' by (by apply (reach_call c s s')).
    destruct (IH s' Hs' Hb' Hfair Hno Ecs) as (? & ? & ->).
    split_and!; try done. unfold snapshotTracks. rewrite Ho'.
    apply mapM_ext_Forall. destruct HI as [_ _ _ _ Hsn].
    eapply Forall_impl; [exact Hsn|]. simpl. intros q Hq. by apply Hfr.
Qed.

(** Once the flag is set, whatever is added, removed, cleared, selected
    or shuffled again, [restoreOrder] brings back the tracks of the
    snapshot that was there when the calls began: tracks added in between
    are dropped and tracks removed in between return. *)
Theorem snapshot_survives cs s s1 snap :
  reachable s → L.getIsShuffled s = true → snapshotTracks s = Some snap →
  Forall fair cs → Forall (λ c, c ≠ RestoreOrder) cs →
  runAll cs s = Some s1 →
  ∃ s2, L.restoreOrder s1 = Some s2 ∧ allTracks s2 = Some snap ∧
        L.getIsShuffled s2 = false.
Proof.
  intros Hs Hb Esnap Hfair Hno E.
  destruct (runAll_snapshot cs s s1 Hs Hb Hfair Hno E) as (Hs1 & Hb1 & Esnap1).
  rewrite Esnap in Esnap1.
  destruct (reachable_Inv s1 Hs1) as [l1 HI1].
  destruct (restoreOrder_snapshot_Inv s1 l1 snap HI1 Hb1
              (reachable_flag s1 Hs1 Hb1) Esnap1) as (s2 & E2 & _ & Et & Hb2 & _).
  by exists s2.
Qed.

Lemma snapshot_survives_witness :
  reachable playlistShuffled ∧ L.getIsShuffled playlistShuffled = true ∧
  snapshotTracks playlistShuffled = Some [trackB; trackC; trackA] ∧
  ∃ s1, runAll [AddTrack trackA'; RemoveTrack "2"; NextTrack] playlistShuffled
        = Some s1 ∧
    allTracks s1 = Some [trackC; trackA; trackA'] ∧
    ∃ s2, L.restoreOrder s1 = Some s2 ∧
          allTracks s2 = Some [trackB; trackC; trackA] ∧
          L.getIsShuffled s2 = false.
Proof.
  assert (L.getIsShuffled playlistShuffled = true) as Hb by reflexivity.
  assert (snapshotTracks playlistShuffled = Some [trackB; trackC; trackA])
    as Hsnap by reflexivity.
  split; [exact reachable_playlistShuffled|]. split; [exact Hb|].
  split; [exact Hsnap|].
  destruct (runAll [AddTrack trackA'; RemoveTrack "2"; NextTrack] playlistShuffled)
    as [s1|] eqn:E; [|by vm_compute in E].
  exists s1. split; [done|]. split.
  { vm_compute in E. injection E as <-. reflexivity. }
  apply (snapshot_survives [AddTrack trackA'; RemoveTrack "2"; NextTrack]
           playlistShuffled s1 _ reachable_playlistShuffled Hb Hsnap);
    [by repeat constructor|by repeat constructor|exact E].
Defined.

Lemma shuffle_restore_witness :
  reachable playlistABC ∧ (∀ i : nat, (λ _ : nat, 0) i ≤ i) ∧
  L.isShuffled playlistABC = false ∧ (1 < L.size playlistABC)%Z ∧
  ∃ s1 s2 shuffled,
    L.shuffle (λ _, 0) playlistABC = Some s1 ∧ allTracks s1 = Some shuffled ∧
    L.restoreOrder s1 = Some s2 ∧ allTracks s2 = Some shuffled ∧
    L.isShuffled s2 = false.
Proof.
  assert (∀ i : nat, (λ _ : nat, 0) i ≤ i) as Hrnd by (intros i; simpl; lia).
  assert (L.isShuffled playlistABC = false) as Hb by reflexivity.
  assert (1 < L.size playlistABC)%Z as Hsz by (by vm_compute).
  split; [exact reachable_playlistABC|]. split; [exact Hrnd|].
  split; [exact Hb|]. split; [exact Hsz|].
  exact (shuffle_restore _ playlistABC reachable_playlistABC Hrnd Hb Hsz).
Defined.

(** The shuffle button: the list is shuffled or restored according to
    the button's own flag, which is then flipped.  The list's flag
    follows the button's except when an unshuffled list of at most one
    track is asked to shuffle: [shuffle] then does nothing while the
    button flips. *)
Theorem toggleShuffle_sync rnd isShuffled playlist :
  reachable playlist → (∀ i, rnd i ≤ i) →
  L.getIsShuffled playlist = isShuffled →
  ∃ playlist',
    toggleShuffle rnd isShuffled playlist = Some (negb isShuffled, playlist') ∧
    (L.getIsShuffled playlist' = negb isShuffled
     ↔ isShuffled = true ∨ (1 < L.getSize playlist)%Z).
Proof.
  intros Hs Hrnd Hb. unfold toggleShuffle. destruct isShuffled.
  - destruct (restoreOrder_unflags playlist Hs) as (p' & -> & Hb').
    exists p'. simpl. split; [done|]. unfold L.getIsShuffled. rewrite Hb'.
    by split; [left|].
  - destruct (reachable_Inv playlist Hs) as [l HI]. unfold L.getSize.
    destruct (decide (L.size playlist ≤ 1)%Z) as [Hsz|Hsz].
    + rewrite shuffle_small by done. exists playlist. simpl. split; [done|].
      rewrite Hb. split; [done|]. intros [?|?]; [done|lia].
    + destruct (shuffle_Inv rnd playlist l HI Hrnd)
        as (p' & _ & _ & -> & _ & _ & _ & _ & Hb' & _); [lia|].
      exists p'. simpl. split; [done|]. unfold L.getIsShuffled. rewrite Hb'.
      split; [|done]. intros _. right. lia.
Qed.

Lemma toggleShuffle_sync_witness :
  reachable playlistABC ∧ (∀ i : nat, (λ _ : nat, 0) i ≤ i) ∧
  L.getIsShuffled playlistABC = false ∧
  ∃ playlist',
    toggleShuffle (λ _, 0) false playlistABC = Some (negb false, playlist') ∧
    (L.getIsShuffled playlist' = negb false
     ↔ false = true ∨ (1 < L.getSize playlistABC)%Z).
Proof.
  assert (∀ i : nat, (λ _ : nat, 0) i ≤ i) as Hrnd by (intros i; simpl; lia).
  assert (L.getIsShuffled playlistABC = false) as Hb by reflexivity.
  split; [exact reachable_playlistABC|]. split; [exact Hrnd|]. split; [exact Hb|].
  exact (toggleShuffle_sync _ false playlistABC reachable_playlistABC Hrnd Hb).
Defined.

Lemma reload_Inv tracks s l :
  Inv s l →
  ∃ s', addTracks tracks (L.clear s) = Some s' ∧
    allTracks s' = Some tracks ∧
    L.getSize s' = Z.of_nat (length tracks) ∧
    L.current s' = L.head s' ∧
    currentTrack s' = head tracks ∧
    L.getIsShuffled s' = L.getIsShuffled s.
Proof.
  intros HI. pose proof (clear_Inv _ _ HI) as HI0.
  destruct (addTracks_Inv tracks _ _ HI0) as (s' & E & HI' & _ & _ & Hd & Hb & _).
  destruct (addTracks_from_empty tracks _ HI0 s' E) as [Hh Hc].
  simpl in HI', Hd, Hb, Hh, Hc.
  exists s'. split; [done|]. split.
  { destruct (allTracks_Inv s' _ HI') as (tracks' & Et' & Hdt').
    rewrite Et'. f_equal. apply Some_fmap_inj. by rewrite <- Hdt', Hd. }
  split.
  { destruct HI' as [_ _ Hsz _ _]. unfold L.getSize. by rewrite Hsz, length_seq. }
  split; [by rewrite Hh, Hc|]. split; [|done].
  unfold currentTrack, L.getCurrentTrack. rewrite Hc.
  destruct tracks as [|t tracks]; [done|]. simpl in *. by injection Hd as -> _.
Qed.

(** The player's rebuild on a change of [tracks]: whatever the list held,
    afterwards [getAllTracks] shows exactly the new tracks in order,
    [getSize] is their number, the first of them is head and current
    (none when there is no track), and the flag is what it was. *)
Theorem reload_tracks tracks s :
  reachable s →
  ∃ s', reload tracks s = Some s' ∧
    allTracks s' = Some tracks ∧
    L.getSize s' = Z.of_nat (length tracks) ∧
    L.current s' = L.head s' ∧
    currentTrack s' = head tracks ∧
    L.getIsShuffled s' = L.getIsShuffled s.
Proof. intros [l HI]%reachable_Inv. by apply (reload_Inv tracks s l). Qed.

Lemma reload_tracks_witness :
  reachable playlistShuffled ∧
  ∃ s', reload [trackA'; trackB] playlistShuffled = Some s' ∧
    allTracks s' = Some [trackA'; trackB] ∧
    L.getSize s' = Z.of_nat (length [trackA'; trackB]) ∧
    L.current s' = L.head s' ∧
    currentTrack s' = head [trackA'; trackB] ∧
    L.getIsShuffled s' = L.getIsShuffled playlistShuffled.
Proof.
  split; [exact reachable_playlistShuffled|].
  exact (reload_tracks [trackA'; trackB] playlistShuffled
           reachable_playlistShuffled).
Defined.

(** ** The Fisher-Yates loop *)

Section fisher_yates.
Context {A : Type}.
Implicit Types (l σ : list A) (rnd : nat → nat).

Lemma swapAt_Some i j l :
  i < length l → j < length l →
  ∃ l', swapAt i j l = Some l' ∧ length l' = length l ∧ l' ≡ₚ l ∧
        (∀ x, l !! j = Some x → l' !! i = Some x).
Proof.
  intros Hi Hj. unfold swapAt.
  destruct (lookup_lt_is_Some_2 l j Hj) as [tj Ej].
  destruct (lookup_lt_is_Some_2 l i Hi) as [ti Ei].
  rewrite Ej, Ei. simpl. eexists. split; [done|].
  split; [by rewrite !length_insert|].
  split; [by apply Permutation_insert_swap|].
  intros x [= <-]. destruct (decide (i = j)) as [->|Hne].
  - rewrite list_lookup_insert_eq by (by rewrite length_insert). congruence.
  - rewrite list_lookup_insert_ne by done. by apply list_lookup_insert_eq.
Qed.

Lemma shuffleLoop_perm rnd i l :
  (∀ k, rnd k ≤ k) → i < length l ∨ i = 0 →
  ∃ l', shuffleLoop rnd i l = Some l' ∧ l' ≡ₚ l.
Proof.
  intros Hrnd. revert l. induction i as [|i IH]; intros l Hi; [by exists l|].
  destruct Hi as [Hi|?]; [|done]. simpl.
  destruct (swapAt_Some (S i) (rnd (S i)) l) as (l1 & -> & Hl & Hp & _); [done| |].
  { pose proof (Hrnd (S i)). lia. }
  simpl. destruct (IH l1) as (l' & E & Hp'); [left; lia|].
  exists l'. split; [done|]. by rewrite Hp'.
Qed.

Lemma shuffleLoop_ext rnd rnd' i l :
  (∀ k, 1 ≤ k ≤ i → rnd k = rnd' k) →
  shuffleLoop rnd i l = shuffleLoop rnd' i l.
Proof.
  revert l. induction i as [|i IH]; intros l Hk; [done|]. simpl.
  rewrite <- (Hk (S i)) by lia. destruct (swapAt _ _ l); simpl; [|done].
  apply IH. intros k ?. apply Hk. lia.
Qed.

(** The loop started at [i] leaves everything behind position [i]
    alone. *)
Lemma shuffleLoop_app rnd i l1 l2 :
  (∀ k, rnd k ≤ k) → i < length l1 →
  shuffleLoop rnd i (l1 ++ l2) = (.++ l2) <$> shuffleLoop rnd i l1.
Proof.
  intros Hrnd. revert l1. induction i as [|i IH]; intros l1 Hi; [done|]. simpl.
  pose proof (Hrnd (S i)) as Hj.
  destruct (swapAt_Some (S i) (rnd (S i)) l1) as (l1' & E & Hl & _); [lia..|].
  assert (swapAt (S i) (rnd (S i)) (l1 ++ l2) = Some (l1' ++ l2)) as ->.
  { unfold swapAt in *. rewrite !lookup_app_l by lia.
    destruct (l1 !! rnd (S i)) as [tj|]; simpl in *; [|done].
    destruct (l1 !! S i) as [ti|]; simpl in *; [|done]. injection E as <-.
    rewrite insert_app_l by lia.
    by rewrite insert_app_l by (rewrite length_insert; lia). }
  rewrite E. simpl. apply IH. lia.
Qed.

Lemma last_split l k x :
  length l = S k → l !! k = Some x → l = take k l ++ [x].
Proof.
  intros Hl Hx. rewrite <- (take_S_r _ _ _ Hx). by rewrite take_ge by lia.
Qed.

(** Every ordering of the array is the outcome of some draws. *)
Lemma shuffleLoop_complete l σ :
  σ ≡ₚ l →
  ∃ rnd, (∀ k, rnd k ≤ k) ∧ shuffleLoop rnd (length l - 1) l = Some σ.
Proof.
  remember (length l) as n eqn:Hn. revert l σ Hn.
  induction n as [|m IH]; intros l σ Hn Hp.
  { destruct l; [|done]. apply Permutation_nil_r in Hp as ->.
    exists (λ _, 0). split; [lia|done]. }
  destruct (snoc_cases σ) as [->|(σ' & x & ->)].
  { apply Permutation_nil_l in Hp. by subst l. }
  destruct m as [|m'].
  { destruct l as [|y [|??]]; try done. destruct σ' as [|??].
    - apply Permutation_singleton_inj in Hp as ->.
      exists (λ _, 0). split; [lia|done].
    - apply Permutation_length in Hp. rewrite length_app in Hp. simpl in Hp. lia. }
  assert (x ∈ l) as Hx by (rewrite <- Hp; set_solver).
  apply list_elem_of_lookup_1 in Hx as [j Hj].
  pose proof (lookup_lt_Some _ _ _ Hj) as Hjl.
  destruct (swapAt_Some (S m') j l) as (l1 & E1 & Hl1 & Hp1 & Hlast); [lia..|].
  specialize (Hlast x Hj).
  pose proof (last_split l1 (S m') x ltac:(lia) Hlast) as El1.
  set (l0 := take (S m') l1) in *.
  assert (σ' ≡ₚ l0) as Hp0.
  { apply (Permutation_app_inv_r [x]). by rewrite <- El1, Hp1. }
  assert (length l0 = S m') as Hl0.
  { unfold l0. rewrite length_take_le; lia. }
  destruct (IH l0 σ' (eq_sym Hl0) Hp0) as (rnd0 & Hrnd0 & E0).
  simpl in E0. rewrite Nat.sub_0_r in E0.
  exists (λ k, if decide (k = S m') then j else rnd0 k). split.
  { intros k. case_decide; [lia|apply Hrnd0]. }
  simpl. rewrite decide_True by done. rewrite E1. simpl. rewrite El1.
  rewrite shuffleLoop_app.
  - rewrite (shuffleLoop_ext _ rnd0).
    + by rewrite E0.
    + intros k Hk. rewrite decide_False; [done|lia].
  - intros k. case_decide; [lia|apply Hrnd0].
  - lia.
Qed.

(** The stored-track query [shuffleTracks]: for draws within range the
    result is a rearrangement of the stored tracks, and every
    rearrangement is the result for some draws. *)
Theorem shuffleTracks_orders l :
  (∀ rnd, (∀ i, rnd i ≤ i) → ∃ σ, shuffleTracks rnd l = Some σ ∧ σ ≡ₚ l) ∧
  (∀ σ, σ ≡ₚ l → ∃ rnd, (∀ i, rnd i ≤ i) ∧ shuffleTracks rnd l = Some σ).
Proof.
  unfold shuffleTracks. split.
  - intros rnd Hrnd. apply shuffleLoop_perm; [done|].
    destruct l; [by right|left; simpl; lia].
  - apply shuffleLoop_complete.
Qed.

End fisher_yates.

Lemma shuffleTracks_orders_witness :
  (∀ i : nat, (λ _ : nat, 0) i ≤ i) ∧
  [trackB; trackC; trackA] ≡ₚ [trackA; trackB; trackC] ∧
  (∃ σ, shuffleTracks (λ _, 0) [trackA; trackB; trackC] = Some σ
        ∧ σ ≡ₚ [trackA; trackB; trackC]) ∧
  (∃ rnd, (∀ i, rnd i ≤ i) ∧
          shuffleTracks rnd [trackA; trackB; trackC]
          = Some [trackB; trackC; trackA]).
Proof.
  assert (∀ i : nat, (λ _ : nat, 0) i ≤ i) as Hrnd by (intros i; simpl; lia).
  assert ([trackB; trackC; trackA] ≡ₚ [trackA; trackB; trackC]) as Hp.
  { symmetry. apply (Permutation_cons_append [trackB; trackC] trackA). }
  split; [exact Hrnd|]. split; [exact Hp|]. split.
  - exact (proj1 (shuffleTracks_orders [trackA; trackB; trackC]) _ Hrnd).
  - exact (proj2 (shuffleTracks_orders [trackA; trackB; trackC]) _ Hp).
Defined.

Lemma fisherYates_shuffleLoop rnd i (l : list loc) :
  L.fisherYates rnd i l = shuffleLoop rnd i l.
Proof.
  revert l. induction i as [|i IH]; intros l; [done|]. simpl.
  change (L.swap (S i) (rnd (S i)) l) with (swapAt (S i) (rnd (S i)) l).
  destruct (swapAt _ _ l); simpl; [apply IH|done].
Qed.

(** [shuffle] can produce every ordering: for each rearrangement of the
    tracks of a list of two or more there are draws within range for
    which [getAllTracks] shows exactly that rearrangement afterwards. *)
Theorem shuffle_reaches_every_order s tracks σ :
  reachable s → allTracks s = Some tracks → (1 < L.getSize s)%Z →
  σ ≡ₚ tracks →
  ∃ rnd s', (∀ i, rnd i ≤ i) ∧ L.shuffle rnd s = Some s' ∧
            allTracks s' = Some σ.
Proof.
  intros [l HI]%reachable_Inv Ht Hsz Hp.
  pose proof (allTracks_Inv_eq s l tracks HI Ht) as Hd.
  assert (Permutation (Some <$> σ) (map (dataOf (L.mem s)) l)) as Hp'.
  { change (map (dataOf (L.mem s)) l) with (dataOf (L.mem s) <$> l).
    by rewrite Hd, Hp. }
  apply Permutation_map_inv in Hp' as (σl & Eσ & Hpl).
  change (map (dataOf (L.mem s)) σl) with (dataOf (L.mem s) <$> σl) in Eσ.
  destruct (shuffleLoop_complete l σl) as (rnd & Hrnd & Eloop); [by symmetry|].
  destruct (shuffle_full rnd s l HI Hrnd Hsz)
    as (s' & σ' & E & HI' & Efy & _ & _ & _ & Hd' & _).
  rewrite fisherYates_shuffleLoop, Eloop in Efy. injection Efy as <-.
  exists rnd, s'. split; [done|]. split; [done|].
  destruct (allTracks_Inv s' _ HI') as (tracks' & Et' & Hdt').
  rewrite Et'. f_equal. apply Some_fmap_inj. by rewrite <- Hdt', Hd', Eσ.
Qed.

Lemma shuffle_reaches_every_order_witness :
  reachable playlistABC ∧ allTracks playlistABC = Some [trackA; trackB; trackC] ∧
  (1 < L.getSize playlistABC)%Z ∧
  [trackC; trackA; trackB] ≡ₚ [trackA; trackB; trackC] ∧
  ∃ rnd s', (∀ i, rnd i ≤ i) ∧ L.shuffle rnd playlistABC = Some s' ∧
            allTracks s' = Some [trackC; trackA; trackB].
Proof.
  assert (allTracks playlistABC = Some [trackA; trackB; trackC]) as Ht
    by reflexivity.
  assert (1 < L.getSize playlistABC)%Z as Hsz by (by vm_compute).
  assert ([trackC; trackA; trackB] ≡ₚ [trackA; trackB; trackC]) as Hp.
  { apply (Permutation_cons_append [trackA; trackB] trackC). }
  split; [exact reachable_playlistABC|]. split; [exact Ht|]. split; [exact Hsz|].
  split; [exact Hp|].
  exact (shuffle_reaches_every_order playlistABC _ _ reachable_playlistABC
           Ht Hsz Hp).
Defined.

(** ** Searching and filtering *)

Lemma prefix_spec sub s :
  String.prefix sub s = true ↔ ∃ post, s = sub +:+ post.
Proof.
  revert s. induction sub as [|a sub IH]; intros s.
  - destruct s; simpl; (split; [eauto|done]).
  - destruct s as [|b s]; simpl.
    + split; [done|]. by intros [post ?].
    + destruct (Ascii.ascii_dec a b) as [->|Hne].
      * rewrite IH. split; intros [post E]; exists post.
        -- by rewrite E.
        -- by injection E.
      * split; [done|]. intros [post [= ? _]]. done.
Qed.

Lemma includes_spec s sub : includes s sub = true ↔ contains s sub.
Proof.
  unfold contains. induction s as [|c s IH].
  - change (includes "" sub) with (String.prefix sub "" || false).
    rewrite orb_false_r, prefix_spec. split.
    + intros [post E]. by exists "", post.
    + intros (pre & post & E). destruct pre; [|done]. by exists post.
  - change (includes (String c s) sub)
      with (String.prefix sub (String c s) || includes s sub).
    rewrite orb_true_iff, prefix_spec, IH. split.
    + intros [[post E]|(pre & post & E)].
      * by exists "", post.
      * exists (String c pre), post. simpl. by rewrite E.
    + intros ([|c' pre] & post & E); simpl in E.
      * left. by exists post.
      * right. injection E as -> ->. by exists pre, post.
Qed.

Lemma includes_refl s : includes s s = true.
Proof.
  apply includes_spec. exists "", "".
  change (s = s +:+ ""). induction s as [|c s IH]; [done|].
  change (String c s = String c (s +:+ "")). by f_equal.
Qed.

Lemma matches_fields term n :
  L.matches term n = matchesTrack term (TrackNode.fields n).
Proof. done. Qed.

Lemma genreIs_fields g n : L.genreIs g n = genreIsTrack g (TrackNode.fields n).
Proof. done. Qed.

Lemma filterNodes_tracks predN predT (h : heap) (l : list loc) tracks :
  (∀ n, predN n = predT (TrackNode.fields n)) →
  dataOf h <$> l = Some <$> tracks →
  ∃ r, L.filterNodes predN h l = Some r ∧
       dataOf h <$> r = Some <$> List.filter predT tracks ∧
       sublist r l.
Proof.
  intros Hpred. revert tracks.
  induction l as [|p l IH]; intros [|t tracks]; simpl; try done.
  - intros _. exists []. by split_and!.
  - intros [= Hp Hl]. destruct (IH tracks Hl) as (r & E & Hd & Hsub).
    unfold dataOf in Hp. destruct (h !! p) as [n|] eqn:En; [|done].
    simpl in Hp. injection Hp as <-. simpl. rewrite E. simpl.
    rewrite Hpred. destruct (predT (TrackNode.fields n)).
    + exists (p :: r). split; [done|]. split; [|by constructor].
      simpl. unfold dataOf at 1. rewrite En. simpl. by f_equal.
    + exists r. split; [done|]. split; [done|]. by constructor.
Qed.

Lemma matchesTrack_spec term t :
  matchesTrack term t = true ↔
  contains (toLowerCase (Track.title t)) term ∨
  contains (toLowerCase (Track.artist t)) term ∨
  ∃ g, Track.genre t = Some g ∧ contains (toLowerCase g) term.
Proof.
  unfold matchesTrack. rewrite !orb_true_iff, !includes_spec.
  destruct (Track.genre t) as [g|].
  - rewrite includes_spec. split.
    + intros [[?|?]|?]; eauto.
    + intros [?|[?|(g' & [= <-] & ?)]]; auto.
  - split.
    + intros [[?|?]|?]; auto. done.
    + intros [?|[?|(g' & ? & ?)]]; auto. done.
Qed.

(** On text within ASCII, [searchTracks] returns, in the order of
    [getAllTracks], exactly the tracks whose title, artist or genre
    contains the query when the case of the letters A-Z is ignored; a
    track without genre can only match by title or artist. *)
Theorem search_results query s tracks :
  reachable s → allTracks s = Some tracks →
  Forall (λ t, asciiTrack t = true) tracks → isAscii query = true →
  let term := toLowerCase query in
  ∃ r, L.searchTracks query s = Some r ∧
    dataOf (L.mem s) <$> r = Some <$> List.filter (matchesTrack term) tracks ∧
    (∀ t, matchesTrack term t = true ↔
          contains (toLowerCase (Track.title t)) term ∨
          contains (toLowerCase (Track.artist t)) term ∨
          ∃ g, Track.genre t = Some g ∧ contains (toLowerCase g) term).
Proof.
  intros [l HI]%reachable_Inv Ht _ _ term.
  pose proof (allTracks_Inv_eq s l tracks HI Ht) as Hd.
  destruct (filterNodes_tracks (L.matches term) (matchesTrack term) _ _ _
              (matches_fields term) Hd) as (r & E & Hr & _).
  exists r. unfold L.searchTracks. rewrite (getAllTracks_Inv _ _ HI). simpl.
  split; [done|]. split; [done|]. apply matchesTrack_spec.
Qed.

Lemma search_results_witness :
  reachable playlistABC ∧ allTracks playlistABC = Some [trackA; trackB; trackC] ∧
  Forall (λ t, asciiTrack t = true) [trackA; trackB; trackC] ∧
  isAscii "POP" = true ∧
  ∃ r, L.searchTracks "POP" playlistABC = Some r ∧
    dataOf (L.mem playlistABC) <$> r
    = Some <$> List.filter (matchesTrack (toLowerCase "POP"))
                 [trackA; trackB; trackC] ∧
    List.filter (matchesTrack (toLowerCase "POP")) [trackA; trackB; trackC]
    = [trackA; trackC].
Proof.
  assert (allTracks playlistABC = Some [trackA; trackB; trackC]) as Ht
    by reflexivity.
  assert (Forall (λ t, asciiTrack t = true) [trackA; trackB; trackC]) as Ha
    by (repeat constructor).
  assert (isAscii "POP" = true) as Hq by reflexivity.
  split; [exact reachable_playlistABC|]. split; [exact Ht|].
  split; [exact Ha|]. split; [exact Hq|].
  destruct (search_results "POP" playlistABC _ reachable_playlistABC Ht Ha Hq)
    as (r & E & Hr & _).
  exists r. split; [exact E|]. split; [exact Hr|]. reflexivity.
Defined.

(** On text within ASCII, [getTracksByGenre] returns, in the order of
    [getAllTracks], exactly the tracks that have a genre equal to the
    given one when the case of the letters A-Z is ignored; a track
    without genre is never returned. *)
Theorem genre_results genre s tracks :
  reachable s → allTracks s = Some tracks →
  Forall (λ t, asciiTrack t = true) tracks → isAscii genre = true →
  ∃ r, L.getTracksByGenre genre s = Some r ∧
    dataOf (L.mem s) <$> r = Some <$> List.filter (genreIsTrack genre) tracks ∧
    (∀ t, genreIsTrack genre t = true ↔
          ∃ g, Track.genre t = Some g ∧ toLowerCase g = toLowerCase genre).
Proof.
  intros [l HI]%reachable_Inv Ht _ _.
  pose proof (allTracks_Inv_eq s l tracks HI Ht) as Hd.
  destruct (filterNodes_tracks (L.genreIs genre) (genreIsTrack genre) _ _ _
              (genreIs_fields genre) Hd) as (r & E & Hr & _).
  exists r. unfold L.getTracksByGenre. rewrite (getAllTracks_Inv _ _ HI). simpl.
  split; [done|]. split; [done|]. intros t. unfold genreIsTrack.
  destruct (Track.genre t) as [g|].
  - rewrite bool_decide_eq_true. split; [eauto|]. by intros (g' & [= <-] & ?).
  - split; [done|]. by intros (g' & ? & ?).
Qed.

Lemma genre_results_witness :
  reachable playlistABC ∧ allTracks playlistABC = Some [trackA; trackB; trackC] ∧
  Forall (λ t, asciiTrack t = true) [trackA; trackB; trackC] ∧
  isAscii "pOp" = true ∧
  ∃ r, L.getTracksByGenre "pOp" playlistABC = Some r ∧
    dataOf (L.mem playlistABC) <$> r
    = Some <$> List.filter (genreIsTrack "pOp") [trackA; trackB; trackC] ∧
    List.filter (genreIsTrack "pOp") [trackA; trackB; trackC]
    = [trackA; trackC].
Proof.
  assert (allTracks playlistABC = Some [trackA; trackB; trackC]) as Ht
    by reflexivity.
  assert (Forall (λ t, asciiTrack t = true) [trackA; trackB; trackC]) as Ha
    by (repeat constructor).
  assert (isAscii "pOp" = true) as Hq by reflexivity.
  split; [exact reachable_playlistABC|]. split; [exact Ht|].
  split; [exact Ha|]. split; [exact Hq|].
  destruct (genre_results "pOp" playlistABC _ reachable_playlistABC Ht Ha Hq)
    as (r & E & Hr & _).
  exists r. split; [exact E|]. split; [exact Hr|]. reflexivity.
Defined.

Lemma filterNodes_sublist (p1 p2 : TrackNode.t → bool) (h : heap) (l : list loc) r1 :
  (∀ n, p1 n = true → p2 n = true) →
  L.filterNodes p1 h l = Some r1 →
  ∃ r2, L.filterNodes p2 h l = Some r2 ∧ sublist r1 r2.
Proof.
  intros Himp. revert r1. induction l as [|p l IH]; intros r1; simpl.
  - intros [= <-]. by exists [].
  - destruct (h !! p) as [n|]; simpl; [|done].
    destruct (L.filterNodes p1 h l) as [r|]; simpl; [|done].
    destruct (IH r eq_refl) as (r2 & -> & Hsub). simpl. intros [= <-].
    eexists. split; [done|]. pose proof (Himp n) as Hn.
    destruct (p1 n), (p2 n); [by constructor|by discriminate Hn|
                              by constructor|done].
Qed.

(** Whatever [getTracksByGenre] returns for a string, [searchTracks]
    returns for the same string too, in the same order. *)
Theorem genre_within_search genre s :
  reachable s →
  ∃ rg rs, L.getTracksByGenre genre s = Some rg ∧
           L.searchTracks genre s = Some rs ∧ sublist rg rs.
Proof.
  intros [l HI]%reachable_Inv.
  destruct (allTracks_Inv s l HI) as (tracks & Ht & Hd).
  destruct (filterNodes_tracks (L.genreIs genre) (genreIsTrack genre) _ _ _
              (genreIs_fields genre) Hd) as (rg & Eg & _).
  destruct (filterNodes_sublist (L.genreIs genre)
              (L.matches (toLowerCase genre)) (L.mem s) l rg)
    as (rs & Es & Hsub); [|done|].
  { intros n. unfold L.genreIs, L.matches.
    destruct (TrackNode.genre n) as [g|]; [|done].
    rewrite bool_decide_eq_true. intros ->.
    by rewrite includes_refl, !orb_true_r. }
  exists rg, rs. unfold L.getTracksByGenre, L.searchTracks.
  rewrite (getAllTracks_Inv _ _ HI). simpl. by split_and!.
Qed.

Lemma genre_within_search_witness :
  reachable playlistABC ∧
  ∃ rg rs, L.getTracksByGenre "Pop" playlistABC = Some rg ∧
           L.searchTracks "Pop" playlistABC = Some rs ∧ sublist rg rs.
Proof.
  split; [exact reachable_playlistABC|].
  exact (genre_within_search "Pop" playlistABC reachable_playlistABC).
Defined.




(** ** A track's own duration text *)

(** [getFormattedDuration] of a track whose duration is a whole number
    of seconds between 0 and [Number.MAX_SAFE_INTEGER] is the whole
    minutes, a colon and the two-digit seconds ("M:SS"); the minutes are
    not wrapped at 60.  Below one hour this is the text
    [getFormattedTotalDuration] produces for the same number of seconds. *)
Theorem track_duration_text n :
  (0 ≤ TrackNode.duration n ≤ MAX_SAFE_INTEGER)%Z →
  let d := TrackNode.duration n in
  getFormattedDuration n
  = toString (d / 60) +:+ ":" +:+ twoDigits (d `mod` 60) ∧
  isMSS (getFormattedDuration n) = true ∧
  ((d < 3600)%Z → L.formatTotal d = getFormattedDuration n).
Proof.
  intros Hd d. fold d in Hd. unfold getFormattedDuration. fold d.
  rewrite Z.rem_mod_nonneg by lia.
  pose proof (Z.mod_pos_bound d 60 ltac:(lia)) as Hsec.
  rewrite padStart0_two by done.
  split; [done|]. split.
  - apply isMSS_intro; [|by apply twoDigitField_twoDigits].
    apply numberField_toString, Z.div_pos; lia.
  - intros Hlt. by rewrite formatTotal_minutes by lia.
Qed.

Lemma track_duration_text_witness :
  (0 ≤ TrackNode.duration (TrackNode.new trackA) ≤ MAX_SAFE_INTEGER)%Z ∧
  (TrackNode.duration (TrackNode.new trackA) < 3600)%Z ∧
  getFormattedDuration (TrackNode.new trackA) = "3:53" ∧
  isMSS (getFormattedDuration (TrackNode.new trackA)) = true ∧
  L.formatTotal (TrackNode.duration (TrackNode.new trackA))
  = getFormattedDuration (TrackNode.new trackA).
Proof.
  assert (0 ≤ TrackNode.duration (TrackNode.new trackA)
          ≤ MAX_SAFE_INTEGER)%Z as Hd by (by vm_compute).
  assert (TrackNode.duration (TrackNode.new trackA) < 3600)%Z as Hlt
    by (by vm_compute).
  destruct (track_duration_text (TrackNode.new trackA) Hd) as (E & Hm & Hf).
  split; [exact Hd|]. split; [exact Hlt|]. split; [exact E|].
  split; [exact Hm|]. exact (Hf Hlt).
Defined.

(** ** Node references held by a caller *)

(** A node keeps its track data for good: whatever method is called, a
    node that had been handed out still shows the same identifier,
    title, artist, duration and locators. *)
Theorem node_data_is_stable c s s' q t :
  reachable s → fair c → run c s = Some s' →
  dataOf (L.mem s) q = Some t → dataOf (L.mem s') q = Some t.
Proof.
  intros [l HI]%reachable_Inv Hfair E Hq.
  destruct (run_frame c s l s' HI Hfair E) as [_ Hfr]. rewrite Hfr; [done|].
  unfold dataOf in Hq. destruct (L.mem s !! q) eqn:Eq; [|done].
  by eapply lookup_lt_Some.
Qed.

Lemma node_data_is_stable_witness :
  reachable playlistABC ∧ fair (Shuffle (λ _, 0)) ∧
  run (Shuffle (λ _, 0)) playlistABC = Some playlistShuffled ∧
  dataOf (L.mem playlistABC) 0 = Some trackA ∧
  dataOf (L.mem playlistShuffled) 0 = Some trackA.
Proof.
  assert (fair (Shuffle (λ _, 0))) as Hf by (intros i; simpl; lia).
  assert (run (Shuffle (λ _, 0)) playlistABC = Some playlistShuffled) as E
    by reflexivity.
  assert (dataOf (L.mem playlistABC) 0 = Some trackA) as Hq by reflexivity.
  split; [exact reachable_playlistABC|]. split; [exact Hf|]. split; [exact E|].
  split; [exact Hq|].
  exact (node_data_is_stable _ _ _ 0 trackA reachable_playlistABC Hf E Hq).
Defined.

(** [shuffle] on more than one track rebuilds the list out of new nodes:
    none of the nodes [getAllTracks] returned before is among those it
    returns afterwards, so a node obtained earlier is no longer part of
    the list, although it still shows its track. *)
Theorem shuffle_replaces_nodes rnd s l :
  reachable s → (∀ i, rnd i ≤ i) → L.getAllTracks s = Some l →
  (1 < L.getSize s)%Z →
  ∃ s' l', L.shuffle rnd s = Some s' ∧ L.getAllTracks s' = Some l' ∧
    length l' = length l ∧
    (∀ p, p ∈ l → p ∉ l') ∧
    (∀ p, p ∈ l → dataOf (L.mem s') p = dataOf (L.mem s) p).
Proof.
  intros Hs Hrnd Hl Hsz. pose proof (reachable_getAllTracks s l Hs Hl) as HI.
  destruct (shuffle_full rnd s l HI Hrnd Hsz)
    as (s' & σ & E & HI' & _ & _ & _ & Hf & _).
  pose proof HI as [Hr _ _ _ _].
  exists s', (seq (length (L.mem s)) (length l)).
  split; [done|]. split; [by apply getAllTracks_Inv|].
  split; [by rewrite length_seq|]. split.
  - intros p Hp%(ring_lt _ _ _ Hr) Hin%elem_of_seq. lia.
  - intros p Hp%(ring_lt _ _ _ Hr). by apply Hf.
Qed.

Lemma shuffle_replaces_nodes_witness :
  reachable playlistABC ∧ (∀ i : nat, (λ _ : nat, 0) i ≤ i) ∧
  L.getAllTracks playlistABC = Some [0; 1; 2] ∧
  (1 < L.getSize playlistABC)%Z ∧
  ∃ s' l', L.shuffle (λ _, 0) playlistABC = Some s' ∧
    L.getAllTracks s' = Some l' ∧ length l' = length [0; 1; 2] ∧
    (∀ p, p ∈ [0; 1; 2] → p ∉ l') ∧
    (∀ p, p ∈ [0; 1; 2] →
          dataOf (L.mem s') p = dataOf (L.mem playlistABC) p).
Proof.
  assert (∀ i : nat, (λ _ : nat, 0) i ≤ i) as Hrnd by (intros i; simpl; lia).
  assert (L.getAllTracks playlistABC = Some [0; 1; 2]) as Hl by reflexivity.
  assert (1 < L.getSize playlistABC)%Z as Hsz by (by vm_compute).
  split; [exact reachable_playlistABC|]. split; [exact Hrnd|].
  split; [exact Hl|]. split; [exact Hsz|].
  exact (shuffle_replaces_nodes _ playlistABC _ reachable_playlistABC
           Hrnd Hl Hsz).
Defined.

(** ** The empty list and the freshly mounted list *)

(** On an empty list every reader returns its empty answer:
    [getAllTracks], [searchTracks] and [getTracksByGenre] return no
    node, the total duration is 0 and is rendered as 0:00. *)
Theorem empty_list_readers s query genre :
  reachable s → L.isEmpty s = true →
  L.getAllTracks s = Some [] ∧ L.searchTracks query s = Some [] ∧
  L.getTracksByGenre genre s = Some [] ∧
  L.getTotalDuration s = Some 0%Z ∧
  L.getFormattedTotalDuration s = Some "0:00".
Proof.
  intros [l HI]%reachable_Inv He. unfold L.isEmpty in He.
  apply bool_decide_eq_true in He. pose proof HI as [_ _ Hsz _ _].
  assert (l = []) as -> by (destruct l; [done|simpl in Hsz; lia]).
  pose proof (getAllTracks_Inv _ _ HI) as Hg.
  unfold L.searchTracks, L.getTracksByGenre, L.getFormattedTotalDuration,
    L.getTotalDuration. rewrite Hg. by split_and!.
Qed.

Lemma empty_list_readers_witness :
  reachable L.empty ∧ L.isEmpty L.empty = true ∧
  L.getAllTracks L.empty = Some [] ∧ L.searchTracks "pop" L.empty = Some [] ∧
  L.getTracksByGenre "pop" L.empty = Some [] ∧
  L.getTotalDuration L.empty = Some 0%Z ∧
  L.getFormattedTotalDuration L.empty = Some "0:00".
Proof.
  assert (L.isEmpty L.empty = true) as He by reflexivity.
  split; [exact reach_new|]. split; [exact He|].
  exact (empty_list_readers L.empty "pop" "pop" reach_new He).
Defined.

(** The list the player builds when it mounts shows the given tracks in
    order, starts on the first of them (on none when there is no track)
    and is not shuffled. *)
Theorem mount_starts_at_first tracks :
  ∃ s, mount tracks = Some s ∧ reachable s ∧
    allTracks s = Some tracks ∧ currentTrack s = head tracks ∧
    L.getIsShuffled s = false.
Proof.
  destruct (reload_Inv tracks L.empty [] empty_Inv)
    as (s & E & Ht & _ & _ & Hc & Hb).
  change (addTracks tracks (L.clear L.empty)) with (mount tracks) in E.
  exists s. split; [done|]. split; [|by split_and!].
  apply (reachable_addTracks tracks L.empty); [apply reach_new|exact E].
Qed.
